(** * The UltraStar TXT song parser of composer (song.hh, songparser-txt.cc)

    A shallow embedding of [Song] (song.hh) and of the TXT functions of
    [SongParser] (txtParseHeader, txtParse, txtParseField, txtParseNote),
    with the properties the specification states about them, and then
    further properties of the same functions, of [txtCheck] and of the
    label cut of the note graph.

    Conventions.
    - [double] is modelled by the rationals [Q] with exact arithmetic:
      the properties below only use assignment, [<], [<=], [==] and, for
      the time base, [+], [*] and [/].
    - [unsigned int] is a [Z] kept in [0, 2^32) with the wrap-around
      written out; [int] is a [Z].
    - a C++ exception is the [Throw] outcome of [result]; an access the
      language leaves undefined is the [Undefined] outcome. *)

From Stdlib Require Import ZArith QArith Qround Lqa Lia Ascii String Sorted.
From Stdlib Require OrderedTypeEx.
From stdpp Require Import base option list strings gmap.

Local Open Scope Z_scope.

(** ** Outcomes of a call *)

Inductive exn : Type :=
| runtime_error (what : string)
| out_of_range.

Inductive result (A : Type) : Type :=
| Ok (a : A)
| Throw (e : exn)
| Undefined.
Arguments Ok {A} a.
Arguments Throw {A} e.
Arguments Undefined {A}.

#[global] Instance result_ret : MRet result := fun A a => Ok a.
#[global] Instance result_bind : MBind result := fun A B k r =>
  match r with
  | Ok a => k a
  | Throw e => Throw e
  | Undefined => Undefined
  end.

(** ** Time and ticks *)

Definition Qltb (x y : Q) : bool := negb (Qle_bool y x).

Definition UINT_MAX : Z := 4294967295.
Definition INT_MAX : Z := 2147483647.
Definition INT_MIN : Z := -2147483648.

(** Arithmetic on [unsigned int] wraps modulo 2^32. *)
Definition uadd (a b : Z) : Z := (a + b) mod 2 ^ 32.

(** ** The time base *)

Module Timebase.

(** Modelled from the spec: songparser.hh, which declares
    [SongParser::addBPM] and [SongParser::tsTime], is not under src/.
    The state is the sequence of change-points, each with the seconds
    offset at which it takes effect, the active BPM and the most
    recently resolved offset.  The newest change-point is the head of
    [points]. *)
Record ChangePoint : Type := {
  cp_tick : Z;
  cp_bpm : Q;
  cp_offset : Q
}.

Record t : Type := {
  points : list ChangePoint;
  active : Q;
  offset : Q
}.

Definition resolution : Q := 4.

(** No BPM registered: active BPM is the sentinel 0 and the offset is 0. *)
Definition empty : t := {| points := []; active := 0; offset := 0 |}.

(** Seconds per tick, 60 / (BPM * resolution); the sentinel 0 is never
    divided by, the offset is then used as it is. *)
Definition secondsPerTick (bpm : Q) : Q :=
  if Qeq_bool bpm 0 then 0%Q else (60 / (bpm * resolution))%Q.

Definition lastTick (tb : t) : Z :=
  match points tb with
  | [] => 0
  | cp :: _ => cp_tick cp
  end.

(** Modelled from the spec: advance the running offset with the previous
    BPM over the ticks since the last change-point, then make the new
    BPM the active one. *)
Definition addBPM (tick : Z) (bpm : Q) (tb : t) : t :=
  let off := (offset tb + inject_Z (tick - lastTick tb) * secondsPerTick (active tb))%Q in
  {| points := {| cp_tick := tick; cp_bpm := bpm; cp_offset := off |} :: points tb;
     active := bpm;
     offset := off |}.

(** The last change-point at or before [tick]; of two change-points at
    one tick the later one wins. *)
Fixpoint lookupPoint (tick : Z) (cps : list ChangePoint) : option ChangePoint :=
  match cps with
  | [] => None
  | cp :: older => if cp_tick cp <=? tick then Some cp else lookupPoint tick older
  end.

Definition timeAt (cps : list ChangePoint) (tick : Z) : Q :=
  match lookupPoint tick cps with
  | Some cp => (cp_offset cp + inject_Z (tick - cp_tick cp) * secondsPerTick (cp_bpm cp))%Q
  | None => 0%Q
  end.

(** Modelled from the spec: offset of the last change-point at or before
    the tick, plus the ticks since then at that change-point's rate. *)
Definition tsTime (tb : t) (tick : Z) : Q := timeAt (points tb) tick.

(** A sequence of [addBPM] calls, first call first. *)
Definition addAll (calls : list (Z * Q)) (tb : t) : t :=
  fold_left (fun acc c => addBPM (fst c) (snd c) acc) calls tb.

(** What a run of [addBPM] calls with non-decreasing ticks and positive
    BPM builds. *)
Inductive chain : list ChangePoint -> Prop :=
| chain_nil : chain []
| chain_first cp :
    (cp_offset cp == 0)%Q -> (0 < cp_bpm cp)%Q -> chain [cp]
| chain_next cp prev older :
    chain (prev :: older) ->
    cp_tick prev <= cp_tick cp ->
    (0 < cp_bpm cp)%Q ->
    (cp_offset cp ==
       cp_offset prev + inject_Z (cp_tick cp - cp_tick prev) * secondsPerTick (cp_bpm prev))%Q ->
    chain (cp :: prev :: older).

Definition synced (tb : t) : Prop :=
  match points tb with
  | [] => (active tb == 0)%Q /\ (offset tb == 0)%Q
  | cp :: _ => active tb = cp_bpm cp /\ offset tb = cp_offset cp
  end.

End Timebase.

(** ** Strings *)

Definition CR : ascii := "013"%char.

(** [std::isspace] in the classic locale: space and the controls 9 to 13. *)
Definition isspace (c : ascii) : bool :=
  let n := nat_of_ascii c in
  Nat.eqb n 32 || (Nat.leb 9 n && Nat.leb n 13).

Fixpoint trim_left (s : string) : string :=
  match s with
  | EmptyString => EmptyString
  | String c s' => if isspace c then trim_left s' else s
  end.

Fixpoint trim_right (s : string) : string :=
  match s with
  | EmptyString => EmptyString
  | String c s' =>
      match trim_right s' with
      | EmptyString => if isspace c then EmptyString else String c EmptyString
      | kept => String c kept
      end
  end.

(** [boost::trim_copy]. *)
Definition trim_copy (s : string) : string := trim_right (trim_left s).

(** [std::string::find_first_not_of]; [None] is [npos]. *)
Fixpoint find_first_not_of (chars : list ascii) (s : string) : option nat :=
  match s with
  | EmptyString => None
  | String c s' =>
      if existsb (Ascii.eqb c) chars then S <$> find_first_not_of chars s'
      else Some O
  end.

(** [s.substr(pos)]: the tail from [pos]; a [pos] past the size, so also
    [npos], throws [std::out_of_range]. *)
Definition substr (s : string) (pos : option nat) : result string :=
  match pos with
  | Some p =>
      if Nat.leb p (String.length s)
      then Ok (String.substring p (String.length s - p) s)
      else Throw out_of_range
  | None => Throw out_of_range
  end.

(** [s.back()] and [s.erase(s.size() - 1)] on a non-empty string. *)
Fixpoint back (s : string) : option ascii :=
  match s with
  | EmptyString => None
  | String c EmptyString => Some c
  | String _ s' => back s'
  end.

Fixpoint erase_back (s : string) : string :=
  match s with
  | EmptyString => EmptyString
  | String c EmptyString => EmptyString
  | String c s' => String c (erase_back s')
  end.

(** ** Notes and vocal tracks *)

Module Note.

(** Modelled from the spec: notes.hh, which declares [Note], is not
    under src/.  The four types the TXT parser accepts, with the
    single-letter codes of the UltraStar format; a character that is
    none of them reaches the [default] of the parser's [switch]. *)
Inductive Type_ : Type := NORMAL | FREESTYLE | GOLDEN | SLEEP.

Definition Type_of_char (c : ascii) : option Type_ :=
  if Ascii.eqb c ":" then Some NORMAL
  else if Ascii.eqb c "F" then Some FREESTYLE
  else if Ascii.eqb c "*" then Some GOLDEN
  else if Ascii.eqb c "-" then Some SLEEP
  else None.

Definition is_SLEEP (ty : Type_) : bool :=
  match ty with SLEEP => true | _ => false end.

Record t : Type := {
  type : Type_;
  begin : Q;
  end_ : Q;
  note : Z;
  notePrev : Z;
  syllable : string;
  lineBreak : bool
}.

Definition set_begin (v : Q) (n : t) : t :=
  {| type := type n; begin := v; end_ := end_ n; note := note n;
     notePrev := notePrev n; syllable := syllable n; lineBreak := lineBreak n |}.
Definition set_end (v : Q) (n : t) : t :=
  {| type := type n; begin := begin n; end_ := v; note := note n;
     notePrev := notePrev n; syllable := syllable n; lineBreak := lineBreak n |}.
Definition set_lineBreak (v : bool) (n : t) : t :=
  {| type := type n; begin := begin n; end_ := end_ n; note := note n;
     notePrev := notePrev n; syllable := syllable n; lineBreak := v |}.

End Note.

Abbreviation Notes := (list Note.t).

Module VocalTrack.

(** Modelled from the spec: notes.hh, which declares [VocalTrack], is
    not under src/.  A named sequence of notes with its pitch range. *)
Record t : Type := {
  name : string;
  notes : Notes;
  noteMin : Z;
  noteMax : Z
}.

(** Modelled from the spec: the constructor gives a track without
    notes; the pitch range starts empty. *)
Definition make (name : string) : t :=
  {| name := name; notes := []; noteMin := INT_MAX; noteMax := INT_MIN |}.

Definition set_notes (v : Notes) (tr : t) : t :=
  {| name := name tr; notes := v; noteMin := noteMin tr; noteMax := noteMax tr |}.
Definition set_range (lo hi : Z) (tr : t) : t :=
  {| name := name tr; notes := notes tr; noteMin := lo; noteMax := hi |}.

End VocalTrack.

(** ** [std::map] with string keys *)

Module StdMap.
Section Map.
Context {V : Type}.

(** The entries in the order of iteration, that is by increasing key
    ([std::less<std::string>], bytes compared as unsigned). *)
Definition t : Type := list (string * V).

Fixpoint find (k : string) (m : t) : option V :=
  match m with
  | [] => None
  | (k', v) :: m' => if String.eqb k k' then Some v else find k m'
  end.

Definition empty (m : t) : bool :=
  match m with [] => true | _ => false end.

(** [m.begin()], when [m] is not empty. *)
Definition begin (m : t) : option (string * V) := head m.

Fixpoint erase (k : string) (m : t) : t :=
  match m with
  | [] => []
  | (k', v) :: m' => if String.eqb k k' then erase k m' else (k', v) :: erase k m'
  end.

(** [m.insert(std::make_pair(k, v))]: a key already there keeps its
    value. *)
Fixpoint insert (k : string) (v : V) (m : t) : t :=
  match m with
  | [] => [(k, v)]
  | (k', v') :: m' =>
      if String.eqb k k' then m
      else if String.ltb k k' then (k, v) :: m
      else (k', v') :: insert k v m'
  end.

Definition keys (m : t) : list string := List.map fst m.

(** The keys of a [std::map] are strictly increasing. *)
Definition sorted (m : t) : Prop :=
  StronglySorted (fun a b => String.ltb a b = true) (keys m).

End Map.
Arguments t V : clear implicits.
End StdMap.

(** ** Songs (song.hh) *)

Module TrackName.
Definition LEAD_VOCAL : string := "Vocals".
Definition HARMONIC_1 : string := "Harmonic 1".
Definition HARMONIC_2 : string := "Harmonic 2".
Definition HARMONIC_3 : string := "Harmonic 3".
End TrackName.

Abbreviation VocalTracks := (StdMap.t VocalTrack.t).

Module Song.

(** The members of [Song] that the functions below read or write. *)
Record t : Type := {
  path : string;
  filename : string;
  genre : string;
  edition : string;
  title : string;
  artist : string;
  creator : string;
  language : string;
  music : gmap string string;
  cover : string;
  background : string;
  video : string;
  videoGap : Q;
  start : Q;
  preview_start : Q;
  vocalTracks : VocalTracks;
  dummyVocal : VocalTrack.t;
  b0rkedTracks : bool
}.

Definition set_genre (v : string) (s : t) : t :=
  {| path := path s; filename := filename s; genre := v; edition := edition s;
     title := title s; artist := artist s; creator := creator s;
     language := language s; music := music s; cover := cover s;
     background := background s; video := video s; videoGap := videoGap s;
     start := start s; preview_start := preview_start s;
     vocalTracks := vocalTracks s; dummyVocal := dummyVocal s;
     b0rkedTracks := b0rkedTracks s |}.
Definition set_edition (v : string) (s : t) : t :=
  {| path := path s; filename := filename s; genre := genre s; edition := v;
     title := title s; artist := artist s; creator := creator s;
     language := language s; music := music s; cover := cover s;
     background := background s; video := video s; videoGap := videoGap s;
     start := start s; preview_start := preview_start s;
     vocalTracks := vocalTracks s; dummyVocal := dummyVocal s;
     b0rkedTracks := b0rkedTracks s |}.
Definition set_title (v : string) (s : t) : t :=
  {| path := path s; filename := filename s; genre := genre s;
     edition := edition s; title := v; artist := artist s;
     creator := creator s; language := language s; music := music s;
     cover := cover s; background := background s; video := video s;
     videoGap := videoGap s; start := start s;
     preview_start := preview_start s; vocalTracks := vocalTracks s;
     dummyVocal := dummyVocal s; b0rkedTracks := b0rkedTracks s |}.
Definition set_artist (v : string) (s : t) : t :=
  {| path := path s; filename := filename s; genre := genre s;
     edition := edition s; title := title s; artist := v;
     creator := creator s; language := language s; music := music s;
     cover := cover s; background := background s; video := video s;
     videoGap := videoGap s; start := start s;
     preview_start := preview_start s; vocalTracks := vocalTracks s;
     dummyVocal := dummyVocal s; b0rkedTracks := b0rkedTracks s |}.
Definition set_creator (v : string) (s : t) : t :=
  {| path := path s; filename := filename s; genre := genre s;
     edition := edition s; title := title s; artist := artist s; creator := v;
     language := language s; music := music s; cover := cover s;
     background := background s; video := video s; videoGap := videoGap s;
     start := start s; preview_start := preview_start s;
     vocalTracks := vocalTracks s; dummyVocal := dummyVocal s;
     b0rkedTracks := b0rkedTracks s |}.
Definition set_language (v : string) (s : t) : t :=
  {| path := path s; filename := filename s; genre := genre s;
     edition := edition s; title := title s; artist := artist s;
     creator := creator s; language := v; music := music s; cover := cover s;
     background := background s; video := video s; videoGap := videoGap s;
     start := start s; preview_start := preview_start s;
     vocalTracks := vocalTracks s; dummyVocal := dummyVocal s;
     b0rkedTracks := b0rkedTracks s |}.
Definition set_music (v : gmap string string) (s : t) : t :=
  {| path := path s; filename := filename s; genre := genre s;
     edition := edition s; title := title s; artist := artist s;
     creator := creator s; language := language s; music := v;
     cover := cover s; background := background s; video := video s;
     videoGap := videoGap s; start := start s;
     preview_start := preview_start s; vocalTracks := vocalTracks s;
     dummyVocal := dummyVocal s; b0rkedTracks := b0rkedTracks s |}.
Definition set_cover (v : string) (s : t) : t :=
  {| path := path s; filename := filename s; genre := genre s;
     edition := edition s; title := title s; artist := artist s;
     creator := creator s; language := language s; music := music s;
     cover := v; background := background s; video := video s;
     videoGap := videoGap s; start := start s;
     preview_start := preview_start s; vocalTracks := vocalTracks s;
     dummyVocal := dummyVocal s; b0rkedTracks := b0rkedTracks s |}.
Definition set_background (v : string) (s : t) : t :=
  {| path := path s; filename := filename s; genre := genre s;
     edition := edition s; title := title s; artist := artist s;
     creator := creator s; language := language s; music := music s;
     cover := cover s; background := v; video := video s;
     videoGap := videoGap s; start := start s;
     preview_start := preview_start s; vocalTracks := vocalTracks s;
     dummyVocal := dummyVocal s; b0rkedTracks := b0rkedTracks s |}.
Definition set_video (v : string) (s : t) : t :=
  {| path := path s; filename := filename s; genre := genre s;
     edition := edition s; title := title s; artist := artist s;
     creator := creator s; language := language s; music := music s;
     cover := cover s; background := background s; video := v;
     videoGap := videoGap s; start := start s;
     preview_start := preview_start s; vocalTracks := vocalTracks s;
     dummyVocal := dummyVocal s; b0rkedTracks := b0rkedTracks s |}.
Definition set_videoGap (v : Q) (s : t) : t :=
  {| path := path s; filename := filename s; genre := genre s;
     edition := edition s; title := title s; artist := artist s;
     creator := creator s; language := language s; music := music s;
     cover := cover s; background := background s; video := video s;
     videoGap := v; start := start s; preview_start := preview_start s;
     vocalTracks := vocalTracks s; dummyVocal := dummyVocal s;
     b0rkedTracks := b0rkedTracks s |}.
Definition set_start (v : Q) (s : t) : t :=
  {| path := path s; filename := filename s; genre := genre s;
     edition := edition s; title := title s; artist := artist s;
     creator := creator s; language := language s; music := music s;
     cover := cover s; background := background s; video := video s;
     videoGap := videoGap s; start := v; preview_start := preview_start s;
     vocalTracks := vocalTracks s; dummyVocal := dummyVocal s;
     b0rkedTracks := b0rkedTracks s |}.
Definition set_preview_start (v : Q) (s : t) : t :=
  {| path := path s; filename := filename s; genre := genre s;
     edition := edition s; title := title s; artist := artist s;
     creator := creator s; language := language s; music := music s;
     cover := cover s; background := background s; video := video s;
     videoGap := videoGap s; start := start s; preview_start := v;
     vocalTracks := vocalTracks s; dummyVocal := dummyVocal s;
     b0rkedTracks := b0rkedTracks s |}.
Definition set_vocalTracks (v : VocalTracks) (s : t) : t :=
  {| path := path s; filename := filename s; genre := genre s;
     edition := edition s; title := title s; artist := artist s;
     creator := creator s; language := language s; music := music s;
     cover := cover s; background := background s; video := video s;
     videoGap := videoGap s; start := start s;
     preview_start := preview_start s; vocalTracks := v;
     dummyVocal := dummyVocal s; b0rkedTracks := b0rkedTracks s |}.

(** [Song(path_, filename_)] before any parsing: [dummyVocal] is built
    with the name LEAD_VOCAL.  Modelled from the spec: [reload], which
    resets the other members, is not under src/; they start empty, zero
    and false. *)
Definition make (path_ filename_ : string) : t :=
  {| path := path_; filename := filename_; genre := ""; edition := "";
     title := ""; artist := ""; creator := ""; language := ""; music := ∅;
     cover := ""; background := ""; video := ""; videoGap := 0; start := 0;
     preview_start := 0; vocalTracks := [];
     dummyVocal := VocalTrack.make TrackName.LEAD_VOCAL; b0rkedTracks := false |}.

Definition insertVocalTrack (vocalTrack : string) (track : VocalTrack.t) (s : t) : t :=
  set_vocalTracks (StdMap.insert vocalTrack track (StdMap.erase vocalTrack (vocalTracks s))) s.

(** A selected track, or LEAD_VOCAL if not found, or the first one if
    not found. *)
Definition getVocalTrack (s : t) (vocalTrack : string) : VocalTrack.t :=
  match StdMap.find vocalTrack (vocalTracks s) with
  | Some track => track
  | None =>
      match StdMap.find TrackName.LEAD_VOCAL (vocalTracks s) with
      | Some track => track
      | None =>
          if negb (StdMap.empty (vocalTracks s)) then
            match StdMap.begin (vocalTracks s) with
            | Some (_, track) => track
            | None => dummyVocal s
            end
          else dummyVocal s
      end
  end.

Definition getVocalTrackNames (s : t) : list string := StdMap.keys (vocalTracks s).

Definition hasVocals (s : t) : bool := negb (StdMap.empty (vocalTracks s)).

End Song.

(** ** Formatted input from a [std::istringstream]

    The stream is the string of the characters not yet read.  An
    extraction that fails returns [None]; the callers below read nothing
    more from a stream that failed, and a variable whose extraction failed
    keeps the value it had (the behaviour before C++11, on which the
    initialisation [ts = m_prevts] of txtParseNote relies).  Numbers are
    decimal; a [double] is read as sign, digits with an optional decimal
    point, and an optional exponent.  From C++11 on a failed extraction
    stores 0, or the largest value on overflow, instead of leaving the
    variable: the two rules differ only on a SLEEP line whose tick cannot
    be read. *)

Module IStream.

Fixpoint skipws (s : string) : string :=
  match s with
  | EmptyString => EmptyString
  | String c s' => if isspace c then skipws s' else s
  end.

Definition digit_of (c : ascii) : option Z :=
  let n := Z.of_nat (nat_of_ascii c) in
  if (48 <=? n) && (n <=? 57) then Some (n - 48) else None.

(** The longest run of digits: its value after [acc], how many digits
    it has, and the characters after it. *)
Fixpoint digits (s : string) (acc : Z) : Z * nat * string :=
  match s with
  | EmptyString => (acc, O, EmptyString)
  | String c s' =>
      match digit_of c with
      | Some d => let '(v, k, rest) := digits s' (acc * 10 + d) in (v, S k, rest)
      | None => (acc, O, s)
      end
  end.

Definition sign (s : string) : bool * string :=
  match s with
  | String "-" s' => (true, s')
  | String "+" s' => (false, s')
  | _ => (false, s)
  end.

(** Sign and magnitude of the integer at the front of the stream. *)
Definition integer (s : string) : option (bool * Z * string) :=
  let '(neg, s1) := sign (skipws s) in
  let '(v, k, rest) := digits s1 0 in
  match k with
  | O => None
  | S _ => Some (neg, v, rest)
  end.

(** [iss >> u] for an [unsigned int]: a magnitude over UINT_MAX fails,
    a minus sign negates modulo 2^32. *)
Definition extract_unsigned (s : string) : option (Z * string) :=
  match integer s with
  | Some (neg, v, rest) =>
      if v <=? UINT_MAX
      then Some (if neg then (2 ^ 32 - v) mod 2 ^ 32 else v, rest)
      else None
  | None => None
  end.

(** [iss >> i] for an [int]. *)
Definition extract_int (s : string) : option (Z * string) :=
  match integer s with
  | Some (neg, v, rest) =>
      if neg then (if v <=? - INT_MIN then Some (- v, rest) else None)
      else (if v <=? INT_MAX then Some (v, rest) else None)
  | None => None
  end.

(** [iss >> d] for a [double]: a sign, digits with an optional decimal
    point, and an optional exponent, [e] or [E] with an optional sign and
    digits.  A mantissa without a digit fails, and so does an exponent
    without a digit: the characters read must all be part of the number. *)
Definition extract_double (s : string) : option (Q * string) :=
  let '(neg, s1) := sign (skipws s) in
  let '(whole, k1, s2) := digits s1 0 in
  let '(num, k2, s4) :=
    match s2 with
    | String "." s3 => digits s3 whole
    | _ => (whole, O, s2)
    end in
  match (k1 + k2)%nat with
  | O => None
  | S _ =>
      let q := (inject_Z num / inject_Z (10 ^ Z.of_nat k2))%Q in
      let q := if neg then (- q)%Q else q in
      match s4 with
      | String c s5 =>
          if Ascii.eqb c "e" || Ascii.eqb c "E" then
            let '(eneg, s6) := sign s5 in
            let '(e, k3, rest) := digits s6 0 in
            match k3 with
            | O => None
            | S _ => Some ((q * Qpower (inject_Z 10) (if eneg then - e else e))%Q, rest)
            end
          else Some (q, s4)
      | EmptyString => Some (q, s4)
      end
  end.

(** [iss.get()]: the next character, [None] at the end. *)
Definition get (s : string) : option ascii * string :=
  match s with
  | EmptyString => (None, EmptyString)
  | String c s' => (Some c, s')
  end.

(** [iss.ignore()]: skip one character. *)
Definition ignore (s : string) : string := snd (get s).

(** [std::getline(iss, str)]: the characters up to the end of the line. *)
Fixpoint getline (s : string) : string :=
  match s with
  | EmptyString => EmptyString
  | String c s' => if Ascii.eqb c "010" then EmptyString else String c (getline s')
  end.

End IStream.

(** ** The TXT parser (songparser-txt.cc) *)

Module SongParser.

(** Modelled from the spec: songparser.hh, which declares the members
    of [SongParser], is not under src/.  The members are those the TXT
    functions name; [m_bpms] is the time base behind [addBPM] and
    [tsTime]; [cout] collects what is written to [std::cout]. *)
Record t : Type := {
  m_song : Song.t;
  m_relative : bool;
  m_gap : Q;
  m_bpm : Q;
  m_prevtime : Q;
  m_prevts : Z;
  m_relativeShift : Z;
  m_bpms : Timebase.t;
  cout : list string
}.

Definition set_m_song (v : Song.t) (P : t) : t :=
  {| m_song := v; m_relative := m_relative P; m_gap := m_gap P;
     m_bpm := m_bpm P; m_prevtime := m_prevtime P; m_prevts := m_prevts P;
     m_relativeShift := m_relativeShift P; m_bpms := m_bpms P; cout := cout P |}.
Definition set_m_relative (v : bool) (P : t) : t :=
  {| m_song := m_song P; m_relative := v; m_gap := m_gap P; m_bpm := m_bpm P;
     m_prevtime := m_prevtime P; m_prevts := m_prevts P;
     m_relativeShift := m_relativeShift P; m_bpms := m_bpms P; cout := cout P |}.
Definition set_m_gap (v : Q) (P : t) : t :=
  {| m_song := m_song P; m_relative := m_relative P; m_gap := v;
     m_bpm := m_bpm P; m_prevtime := m_prevtime P; m_prevts := m_prevts P;
     m_relativeShift := m_relativeShift P; m_bpms := m_bpms P; cout := cout P |}.
Definition set_m_bpm (v : Q) (P : t) : t :=
  {| m_song := m_song P; m_relative := m_relative P; m_gap := m_gap P;
     m_bpm := v; m_prevtime := m_prevtime P; m_prevts := m_prevts P;
     m_relativeShift := m_relativeShift P; m_bpms := m_bpms P; cout := cout P |}.
Definition set_m_prevtime (v : Q) (P : t) : t :=
  {| m_song := m_song P; m_relative := m_relative P; m_gap := m_gap P;
     m_bpm := m_bpm P; m_prevtime := v; m_prevts := m_prevts P;
     m_relativeShift := m_relativeShift P; m_bpms := m_bpms P; cout := cout P |}.
Definition set_m_prevts (v : Z) (P : t) : t :=
  {| m_song := m_song P; m_relative := m_relative P; m_gap := m_gap P;
     m_bpm := m_bpm P; m_prevtime := m_prevtime P; m_prevts := v;
     m_relativeShift := m_relativeShift P; m_bpms := m_bpms P; cout := cout P |}.
Definition set_m_relativeShift (v : Z) (P : t) : t :=
  {| m_song := m_song P; m_relative := m_relative P; m_gap := m_gap P;
     m_bpm := m_bpm P; m_prevtime := m_prevtime P; m_prevts := m_prevts P;
     m_relativeShift := v; m_bpms := m_bpms P; cout := cout P |}.
Definition set_m_bpms (v : Timebase.t) (P : t) : t :=
  {| m_song := m_song P; m_relative := m_relative P; m_gap := m_gap P;
     m_bpm := m_bpm P; m_prevtime := m_prevtime P; m_prevts := m_prevts P;
     m_relativeShift := m_relativeShift P; m_bpms := v; cout := cout P |}.
Definition set_cout (v : list string) (P : t) : t :=
  {| m_song := m_song P; m_relative := m_relative P; m_gap := m_gap P;
     m_bpm := m_bpm P; m_prevtime := m_prevtime P; m_prevts := m_prevts P;
     m_relativeShift := m_relativeShift P; m_bpms := m_bpms P; cout := v |}.

Definition upd_song (f : Song.t -> Song.t) (P : t) : t := set_m_song (f (m_song P)) P.

(** Modelled from the spec: a parser just built on a song has read
    nothing: no BPM yet (the sentinel 0), no tick or time resolved, no
    relative shift accumulated. *)
Definition make (s : Song.t) : t :=
  {| m_song := s; m_relative := false; m_gap := 0; m_bpm := 0; m_prevtime := 0;
     m_prevts := 0; m_relativeShift := 0; m_bpms := Timebase.empty; cout := [] |}.

(** [addBPM] and [tsTime] of the parser act on its time base. *)
Definition addBPM (ts : Z) (bpm : Q) (P : t) : t :=
  set_m_bpms (Timebase.addBPM ts bpm (m_bpms P)) P.

Definition tsTime (P : t) (ts : Z) : Q := Timebase.tsTime (m_bpms P) ts.

(** [line[0] == c]. *)
Definition front_is (c : ascii) (line : string) : bool :=
  match line with
  | String c' _ => Ascii.eqb c' c
  | EmptyString => false
  end.

Definition is_nil {A : Type} (l : list A) : bool :=
  match l with [] => true | _ => false end.

(** [notes.back() = p] on a sequence that is not empty. *)
Definition set_back (p : Note.t) (notes : Notes) : Notes :=
  <[pred (length notes) := p]> notes.

(** *** txtParseNote: reading the line (lines 243 to 273) *)

(** What a note line holds: the ticks as written, before any shift. *)
Inductive NoteLine : Type :=
| Sung (ty : Note.Type_) (ts length : Z) (note : Z) (syllable : string)
| Rest (ts end_ : Z).

Definition scanNote (line : string) (prevts : Z) : result NoteLine :=
  match IStream.get line with
  | (Some c, iss) =>
      match Note.Type_of_char c with
      | Some Note.SLEEP =>
          match IStream.extract_unsigned iss with
          | Some (ts, iss1) =>
              match IStream.extract_unsigned iss1 with
              | Some (e, _) => Ok (Rest ts e)
              | None => Ok (Rest ts ts)
              end
          | None => Ok (Rest prevts prevts)
          end
      | Some ty =>
          match
            '(ts, iss1) ← IStream.extract_unsigned iss;
            '(length, iss2) ← IStream.extract_unsigned iss1;
            '(pitch, iss3) ← IStream.extract_int iss2;
            Some (ts, length, pitch, iss3)
          with
          | Some (ts, length, pitch, iss3) =>
              let syllable :=
                match IStream.get iss3 with
                | (Some " "%char, iss4) => IStream.getline iss4
                | _ => EmptyString
                end in
              Ok (Sung ty ts length pitch syllable)
          | None => Throw (runtime_error "Invalid note line format")
          end
      | None => Throw (runtime_error "Unknown note type")
      end
  | (None, _) => Throw (runtime_error "Unknown note type")
  end.

(** The note of the line with its times, the tick [ts] it begins at,
    and the parser after the SLEEP case has moved [m_relativeShift]. *)
Definition timeNote (tok : NoteLine) (P : t) : Note.t * Z * t :=
  match tok with
  | Sung ty ts0 length pitch syl =>
      let ts := if m_relative P then uadd ts0 (m_relativeShift P) else ts0 in
      ({| Note.type := ty; Note.begin := tsTime P ts;
          Note.end_ := tsTime P (uadd ts length);
          Note.note := pitch; Note.notePrev := pitch;
          Note.syllable := syl; Note.lineBreak := false |}, ts, P)
  | Rest ts0 end0 =>
      let ts := if m_relative P then uadd ts0 (m_relativeShift P) else ts0 in
      let e := if m_relative P then uadd end0 (m_relativeShift P) else end0 in
      let P1 := if m_relative P then set_m_relativeShift e P else P in
      ({| Note.type := Note.SLEEP; Note.begin := tsTime P1 ts;
          Note.end_ := tsTime P1 e;
          Note.note := 0; Note.notePrev := 0;
          Note.syllable := EmptyString; Note.lineBreak := false |}, ts, P1)
  end.

(** The two steps together, on a line without its carriage return. *)
Definition readNote (line : string) (P : t) : result (Note.t * Z * t) :=
  tok ← scanNote line (m_prevts P);
  Ok (timeNote tok P).

(** The tick a note line is written with. *)
Definition rawTick (tok : NoteLine) : Z :=
  match tok with
  | Sung _ ts _ _ _ => ts
  | Rest ts _ => ts
  end.

(** *** txtParseNote: overlapping notes (lines 280 to 297) *)

(** The workaround for songs with semi-random sleep timestamps, on the
    last note [p]: [*++notes.rbegin()] is the note before it, and there
    is none when [notes] holds one note. *)
Definition sleepWorkaround (n p : Note.t) (notes : Notes) : result Note.t :=
  if Note.is_SLEEP (Note.type p) then
    let p1 := Note.set_end (Note.begin p) p in
    match rev notes !! 1%nat with
    | Some p2 =>
        if Qltb (Note.end_ p2) (Note.begin n)
        then Ok (Note.set_end (Note.begin n) (Note.set_begin (Note.begin n) p1))
        else Ok p1
    | None => Undefined
    end
  else Ok p.

(** The notes after the recovery, and whether the new note is kept. *)
Definition recoverOverlap (n : Note.t) (notes : Notes) : result (bool * Notes) :=
  match last notes with
  | Some p =>
      p1 ← sleepWorkaround n p notes;
      if Qle_bool (Note.begin p1) (Note.begin n)
      then Ok (true, set_back (Note.set_end (Note.begin n) p1) notes)
      else Ok (false, set_back p1 notes)
  | None => Throw (runtime_error "The first note has negative timestamp")
  end.

Definition warning (P : t) : string :=
  "songparser/warning: " +:+
  ("Skipping overlapping note in " +:+ Song.path (m_song P) +:+ Song.filename (m_song P)
     +:+ String "010" EmptyString).

(** *** txtParseNote: placing the note (lines 274 to 312) *)

(** [noteMin] and [noteMax] take in a note that is no SLEEP and ends
    after it begins. *)
Definition widenRange (n : Note.t) (vocal : VocalTrack.t) : VocalTrack.t :=
  if negb (Note.is_SLEEP (Note.type n)) && Qltb (Note.begin n) (Note.end_ n)
  then VocalTrack.set_range (Z.min (VocalTrack.noteMin vocal) (Note.note n))
                            (Z.max (VocalTrack.noteMax vocal) (Note.note n)) vocal
  else vocal.

Definition placeNote (n : Note.t) (ts : Z) (vocal : VocalTrack.t) (P : t)
  : result (bool * t * VocalTrack.t) :=
  let notes := VocalTrack.notes vocal in
  let P1 := if m_relative P && is_nil notes then set_m_relativeShift ts P else P in
  let P2 := set_m_prevts ts P1 in
  '(keep, notes1) ←
    (if Qltb (Note.begin n) (m_prevtime P2) then recoverOverlap n notes
     else Ok (true, notes));
  if negb keep
  then Ok (true, set_cout (cout P2 ++ [warning P2]) P2, VocalTrack.set_notes notes1 vocal)
  else
    let prevtime := m_prevtime P2 in
    let P3 := set_m_prevtime (Note.end_ n) P2 in
    let vocal1 := widenRange n vocal in
    if Note.is_SLEEP (Note.type n) then
      match last notes1 with
      | None => Ok (true, P3, VocalTrack.set_notes notes1 vocal1)
      | Some p =>
          let n1 := Note.set_end prevtime (Note.set_begin prevtime n) in
          Ok (true, P3,
              VocalTrack.set_notes (set_back (Note.set_lineBreak true p) notes1 ++ [n1]) vocal1)
      end
    else Ok (true, P3, VocalTrack.set_notes (notes1 ++ [n]) vocal1).

(** *** txtParseNote *)

(** [if (line[line.size() - 1] == '\r') line.erase(line.size() - 1)]. *)
Definition chomp (line : string) : string :=
  if bool_decide (back line = Some CR) then erase_back line else line.

Definition txtParseNote (line : string) (vocal : VocalTrack.t) (P : t)
  : result (bool * t * VocalTrack.t) :=
  if String.eqb line EmptyString || String.eqb line (String CR EmptyString)
  then Ok (true, P, vocal)
  else if front_is "#" line
  then Throw (runtime_error "Key found in the middle of notes")
  else
    let line := chomp line in
    if front_is "E" line then Ok (false, P, vocal)
    else if front_is "B" line then
      match
        '(ts, iss) ← IStream.extract_unsigned (IStream.ignore line);
        '(bpm, _) ← IStream.extract_double iss;
        Some (ts, bpm)
      with
      | Some (ts, bpm) => Ok (true, addBPM ts bpm P, vocal)
      | None => Throw (runtime_error "Invalid BPM line format")
      end
    else if front_is "P" line then Ok (true, P, vocal)
    else
      '(n, ts, P1) ← readNote line P;
      placeNote n ts vocal P1.

(** The lines that reach the note part of [txtParseNote]. *)
Definition noteLine (line : string) : bool :=
  negb (String.eqb line EmptyString || String.eqb line (String CR EmptyString))
  && negb (front_is "#" line)
  && negb (front_is "E" (chomp line))
  && negb (front_is "B" (chomp line))
  && negb (front_is "P" (chomp line)).

(** Whether the sequence starts with a SLEEP. *)
Definition leading_sleep (notes : Notes) : bool :=
  match notes with
  | q :: _ => Note.is_SLEEP (Note.type q)
  | [] => false
  end.

(** The tracks and parsers that the note loop of [txtParse] passes to
    [txtParseNote]: it starts from a track without notes and feeds it
    line after line. *)
Inductive reached : VocalTrack.t -> t -> Prop :=
| reached_start (P : t) : reached (VocalTrack.make TrackName.LEAD_VOCAL) P
| reached_line (line : string) (vocal vocal' : VocalTrack.t) (P P' : t) (more : bool) :
    reached vocal P ->
    txtParseNote line vocal P = Ok (more, P', vocal') ->
    reached vocal' P'.

(** *** The stream of lines *)

(** Modelled from the spec: [SongParser::getline] (songparser.hh, not
    under src/) reads the next line of the line source; at the end of
    the stream it fails and the line is left empty.  The lines still in
    the stream are passed beside the parser. *)
Definition getline (ss : list string) : bool * string * list string :=
  match ss with
  | [] => (false, EmptyString, [])
  | line :: ss' => (true, line, ss')
  end.

(** *** The header *)

Section Header.

(** [SongParserUtil::assign] for a [double] and for a [bool] member:
    songparser.hh and its implementation are not under src/, so the
    conversions are parameters; a text they refuse is an exception. *)
Variable assign_double : string -> result Q.
Variable assign_bool : string -> result bool.

Definition txtParseField (line : string) (P : t) : result (bool * t) :=
  if String.eqb line EmptyString then Ok (true, P)
  else if negb (front_is "#" line) then Ok (false, P)
  else
    match String.index 0 ":" line with
    | None => Throw (runtime_error "Invalid txt format, should be #key:value")
    | Some pos =>
        let key := trim_copy (String.substring 1 (pos - 1) line) in
        let value :=
          trim_copy (String.substring (pos + 1) (String.length line - (pos + 1)) line) in
        let unspaced := substr value (find_first_not_of [" "%char] value) in
        if String.eqb value EmptyString then Ok (true, P)
        else
          P1 ←
            (if String.eqb key "TITLE" then
               v ← substr value (find_first_not_of [" "%char; ":"%char] value);
               Ok (upd_song (Song.set_title v) P)
             else if String.eqb key "ARTIST" then
               v ← unspaced; Ok (upd_song (Song.set_artist v) P)
             else if String.eqb key "EDITION" then
               v ← unspaced; Ok (upd_song (Song.set_edition v) P)
             else if String.eqb key "GENRE" then
               v ← unspaced; Ok (upd_song (Song.set_genre v) P)
             else if String.eqb key "CREATOR" then
               v ← unspaced; Ok (upd_song (Song.set_creator v) P)
             else if String.eqb key "COVER" then
               Ok (upd_song (Song.set_cover value) P)
             else if String.eqb key "MP3" then
               Ok (upd_song (fun s => Song.set_music
                     (<["background" := Song.path s +:+ value]> (Song.music s)) s) P)
             else if String.eqb key "VOCALS" then
               Ok (upd_song (fun s => Song.set_music
                     (<["vocals" := Song.path s +:+ value]> (Song.music s)) s) P)
             else if String.eqb key "VIDEO" then
               Ok (upd_song (Song.set_video value) P)
             else if String.eqb key "BACKGROUND" then
               Ok (upd_song (Song.set_background value) P)
             else if String.eqb key "START" then
               d ← assign_double value; Ok (upd_song (Song.set_start d) P)
             else if String.eqb key "VIDEOGAP" then
               d ← assign_double value; Ok (upd_song (Song.set_videoGap d) P)
             else if String.eqb key "PREVIEWSTART" then
               d ← assign_double value; Ok (upd_song (Song.set_preview_start d) P)
             else if String.eqb key "RELATIVE" then
               b ← assign_bool value; Ok (set_m_relative b P)
             else if String.eqb key "GAP" then
               d ← assign_double value; Ok (set_m_gap (d * (1 / 1000))%Q P)
             else if String.eqb key "BPM" then
               d ← assign_double value; Ok (set_m_bpm d P)
             else if String.eqb key "LANGUAGE" then
               v ← unspaced; Ok (upd_song (Song.set_language v) P)
             else Ok P);
          Ok (true, P1)
    end.

(** [while (getline(line) && txtParseField(line)) {}] on the lines
    [ss] still in the stream: the lines left, the line read last and
    the parser.  The two cases are those of [getline ss]. *)
Fixpoint txtParseFields (ss : list string) (P : t) : result (list string * string * t) :=
  match ss with
  | [] => Ok ([], EmptyString, P)
  | line :: ss' =>
      '(more, P1) ← txtParseField line P;
      if (more : bool) then txtParseFields ss' P1 else Ok (ss', line, P1)
  end.

(** [if (m_bpm != 0.0) addBPM(0, m_bpm)]. *)
Definition registerBPM (P : t) : t :=
  if negb (Qeq_bool (m_bpm P) 0) then addBPM 0 (m_bpm P) P else P.

(** Parse header data for Songs screen. *)
Definition txtParseHeader (ss : list string) (P : t) : result (list string * t) :=
  '(ss1, _, P1) ← txtParseFields ss P;
  if String.eqb (Song.title (m_song P1)) EmptyString
     || String.eqb (Song.artist (m_song P1)) EmptyString
  then Throw (runtime_error "Required header fields missing")
  else
    Ok (ss1,
        upd_song (Song.insertVocalTrack TrackName.LEAD_VOCAL
                    (VocalTrack.make TrackName.LEAD_VOCAL))
                 (registerBPM P1)).

(** [while (txtParseNote(line, vocal) && getline(line)) {}]; the two
    cases on [ss] are those of [getline ss]. *)
Fixpoint txtParseNotes (ss : list string) (line : string) (vocal : VocalTrack.t) (P : t)
  : result (list string * t * VocalTrack.t) :=
  '(more, P1, vocal1) ← txtParseNote line vocal P;
  if (more : bool) then
    match ss with
    | [] => Ok ([], P1, vocal1)
    | line' :: ss' => txtParseNotes ss' line' vocal1 P1
    end
  else Ok (ss, P1, vocal1).

(** The workaround for the terminating [: 1 0 0] line. *)
Definition dropTerminator (vocal : VocalTrack.t) : VocalTrack.t :=
  match last (VocalTrack.notes vocal) with
  | Some b =>
      if negb (Note.is_SLEEP (Note.type b)) && Qeq_bool (Note.begin b) (Note.end_ b)
      then VocalTrack.set_notes (removelast (VocalTrack.notes vocal)) vocal
      else vocal
  | None => vocal
  end.

(** Parse notes. *)
Definition txtParse (ss : list string) (P : t) : result (list string * t) :=
  let vocal := VocalTrack.make TrackName.LEAD_VOCAL in
  '(ss1, line, P1) ← txtParseFields ss P;
  let P2 := registerBPM P1 in
  '(ss2, P3, vocal1) ← txtParseNotes ss1 line vocal P2;
  Ok (ss2, upd_song (Song.insertVocalTrack TrackName.LEAD_VOCAL (dropTerminator vocal1)) P3).

End Header.

End SongParser.

(** ** A song to run the parser on *)

Module Sample.

(** Conversions to run the header on: a decimal number, and a flag that
    is on when the number is not zero. *)
Definition assign_decimal (str : string) : result Q :=
  match IStream.extract_double str with
  | Some (q, EmptyString) => Ok q
  | _ => Throw (runtime_error "not a floating point value")
  end.

Definition assign_flag (str : string) : result bool :=
  match IStream.extract_double str with
  | Some (q, EmptyString) => Ok (negb (Qeq_bool q 0))
  | _ => Throw (runtime_error "not a flag")
  end.

(** BPM 120 from tick 0, BPM 240 from tick 16. *)
Definition tempo_120_240 : list (Z * Q) := [(0, 120%Q); (16, 240%Q)].

Definition song : Song.t := Song.make "songs/" "song.txt".

(** A parser that has read [#BPM:60]: a tick is a quarter of a second. *)
Definition parser60 : SongParser.t :=
  SongParser.registerBPM (SongParser.set_m_bpm 60 (SongParser.make song)).

(** The same in relative mode. *)
Definition relative60 : SongParser.t := SongParser.set_m_relative true parser60.

Definition lead : VocalTrack.t := VocalTrack.make TrackName.LEAD_VOCAL.

(** A note over the first two seconds. *)
Definition la_0_2 : Note.t :=
  {| Note.type := Note.NORMAL; Note.begin := 0; Note.end_ := 2; Note.note := 60;
     Note.notePrev := 60; Note.syllable := "la"; Note.lineBreak := false |}.

(** The notes of the lead track after [txtParse], each with its type,
    begin, end, pitch, syllable and lineBreak, or the exception. *)
Definition parsed (ss : list string)
  : result (list (Note.Type_ * Q * Q * Z * string * bool)) :=
  '(_, P) ← SongParser.txtParse Sample.assign_decimal Sample.assign_flag ss
             (SongParser.make Sample.song);
  Ok ((fun n => (Note.type n, Qred (Note.begin n), Qred (Note.end_ n), Note.note n,
                 Note.syllable n, Note.lineBreak n))
        <$> VocalTrack.notes (Song.getVocalTrack (SongParser.m_song P) TrackName.LEAD_VOCAL)).

End Sample.

(** ** Before the first note line *)

(** The track and the parser of the note loop of [txtParse] while it has
    read no note line yet: it starts on a track without notes, with the
    parser that the header loop and [registerBPM] leave of a parser just
    built, and has read only lines that are no note lines and that let it
    go on. *)
Inductive beforeFirstNote : VocalTrack.t -> SongParser.t -> Prop :=
| beforeFirstNote_start (assign_double : string -> result Q)
    (assign_bool : string -> result bool) (s : Song.t) (ss ss1 : list string)
    (line : string) (P1 : SongParser.t) :
    SongParser.txtParseFields assign_double assign_bool ss (SongParser.make s)
    = Ok (ss1, line, P1) ->
    beforeFirstNote (VocalTrack.make TrackName.LEAD_VOCAL) (SongParser.registerBPM P1)
| beforeFirstNote_line (line : string) (vocal vocal' : VocalTrack.t)
    (P P' : SongParser.t) :
    beforeFirstNote vocal P ->
    SongParser.noteLine line = false ->
    SongParser.txtParseNote line vocal P = Ok (true, P', vocal') ->
    beforeFirstNote vocal' P'.

(** ** The header, line by line *)

(** The keys that txtParseField knows. *)
Definition knownKeys : list string :=
  ["TITLE"; "ARTIST"; "EDITION"; "GENRE"; "CREATOR"; "COVER"; "MP3"; "VOCALS"; "VIDEO";
   "BACKGROUND"; "START"; "VIDEOGAP"; "PREVIEWSTART"; "RELATIVE"; "GAP"; "BPM"; "LANGUAGE"].

(** The member that a key with a text value names. *)
Definition textMember (key : string) : option (string -> Song.t -> Song.t) :=
  if String.eqb key "ARTIST" then Some Song.set_artist
  else if String.eqb key "EDITION" then Some Song.set_edition
  else if String.eqb key "GENRE" then Some Song.set_genre
  else if String.eqb key "CREATOR" then Some Song.set_creator
  else if String.eqb key "COVER" then Some Song.set_cover
  else if String.eqb key "VIDEO" then Some Song.set_video
  else if String.eqb key "BACKGROUND" then Some Song.set_background
  else if String.eqb key "LANGUAGE" then Some Song.set_language
  else None.

(** A header line written as key, colon and value. *)
Definition fieldLine (key value : string) : string :=
  String "#" (key +:+ String ":" value).

(** ** The check of the first bytes (lines 173 to 175) *)

(** [data[0] == '#' && data[1] >= 'A' && data[1] <= 'Z'] on the bytes
    of the file: [data[1]] is read only when [data[0]] is a hash, and an
    index past the end of the vector is not defined.  A byte over 127
    fails one of the two comparisons whether [char] is signed or not. *)
Definition txtCheck (data : list ascii) : result bool :=
  match data with
  | [] => Undefined
  | c0 :: rest =>
      if Ascii.eqb c0 "#" then
        match rest with
        | [] => Undefined
        | c1 :: _ =>
            Ok ((nat_of_ascii "A" <=? nat_of_ascii c1)%nat
                && (nat_of_ascii c1 <=? nat_of_ascii "Z")%nat)
        end
      else Ok false
  end.

(** ** What a header line assigns *)

Module Field.

(** The assignments of [txtParseField], one for each key that it knows,
    with the value that it assigns. *)
Inductive t : Type :=
| Title (v : string)
| Artist (v : string)
| Edition (v : string)
| Genre (v : string)
| Creator (v : string)
| Cover (v : string)
| Mp3 (v : string)
| Vocals (v : string)
| Video (v : string)
| Background (v : string)
| Start (d : Q)
| VideoGap (d : Q)
| PreviewStart (d : Q)
| Relative (b : bool)
| Gap (d : Q)
| Bpm (d : Q)
| Language (v : string).

Definition key (a : t) : string :=
  match a with
  | Title _ => "TITLE"
  | Artist _ => "ARTIST"
  | Edition _ => "EDITION"
  | Genre _ => "GENRE"
  | Creator _ => "CREATOR"
  | Cover _ => "COVER"
  | Mp3 _ => "MP3"
  | Vocals _ => "VOCALS"
  | Video _ => "VIDEO"
  | Background _ => "BACKGROUND"
  | Start _ => "START"
  | VideoGap _ => "VIDEOGAP"
  | PreviewStart _ => "PREVIEWSTART"
  | Relative _ => "RELATIVE"
  | Gap _ => "GAP"
  | Bpm _ => "BPM"
  | Language _ => "LANGUAGE"
  end.

(** The right-hand sides of lines 208 to 224. *)
Definition assign (a : t) (P : SongParser.t) : SongParser.t :=
  match a with
  | Title v => SongParser.upd_song (Song.set_title v) P
  | Artist v => SongParser.upd_song (Song.set_artist v) P
  | Edition v => SongParser.upd_song (Song.set_edition v) P
  | Genre v => SongParser.upd_song (Song.set_genre v) P
  | Creator v => SongParser.upd_song (Song.set_creator v) P
  | Cover v => SongParser.upd_song (Song.set_cover v) P
  | Mp3 v =>
      SongParser.upd_song
        (fun s => Song.set_music (<["background" := Song.path s +:+ v]> (Song.music s)) s) P
  | Vocals v =>
      SongParser.upd_song
        (fun s => Song.set_music (<["vocals" := Song.path s +:+ v]> (Song.music s)) s) P
  | Video v => SongParser.upd_song (Song.set_video v) P
  | Background v => SongParser.upd_song (Song.set_background v) P
  | Start d => SongParser.upd_song (Song.set_start d) P
  | VideoGap d => SongParser.upd_song (Song.set_videoGap d) P
  | PreviewStart d => SongParser.upd_song (Song.set_preview_start d) P
  | Relative b => SongParser.set_m_relative b P
  | Gap d => SongParser.set_m_gap (d * (1 / 1000))%Q P
  | Bpm d => SongParser.set_m_bpm d P
  | Language v => SongParser.upd_song (Song.set_language v) P
  end.

(** One assignment after the other, the first of the list first. *)
Definition assignAll (w : list t) (P : SongParser.t) : SongParser.t :=
  foldl (fun P a => assign a P) P w.

End Field.

(** ** What holds of the notes of a track *)

(** Each note's lineBreak tells whether the next note is a SLEEP; the
    last note has none. *)
Fixpoint lineBreaksMarkSleeps (notes : Notes) : Prop :=
  match notes with
  | [] => True
  | p :: rest =>
      Note.lineBreak p = SongParser.leading_sleep rest /\ lineBreaksMarkSleeps rest
  end.

(** The pitch range of the track holds the pitch of every note that is no
    SLEEP and ends after it begins. *)
Definition inRange (lo hi : Z) (q : Note.t) : Prop :=
  Note.is_SLEEP (Note.type q) = false ->
  Qltb (Note.begin q) (Note.end_ q) = true ->
  lo <= Note.note q <= hi.

Definition rangeCovers (vocal : VocalTrack.t) : Prop :=
  Forall (inRange (VocalTrack.noteMin vocal) (VocalTrack.noteMax vocal))
         (VocalTrack.notes vocal).

(** The last note, when it is no SLEEP, ends at the resolved end time. *)
Definition endsAtPrevtime (vocal : VocalTrack.t) (P : SongParser.t) : Prop :=
  forall p, last (VocalTrack.notes vocal) = Some p ->
            Note.is_SLEEP (Note.type p) = false ->
            Note.end_ p = SongParser.m_prevtime P.

(** What a loop leaves, without the lines still in the stream. *)
Definition outcome {A B : Type} (r : result (list string * A * B)) : result (A * B) :=
  '(_, a, b) ← r; Ok (a, b).

(** The lines of the note stream that txtParseNote passes over: the
    empty line, the lone carriage return and the player lines. *)
Definition ignoredLine (line : string) : bool :=
  String.eqb line EmptyString || String.eqb line (String CR EmptyString)
  || SongParser.front_is "P" line.

(** [q'] is the note [q], but for its times and its lineBreak. *)
Definition retimed (q q' : Note.t) : Prop :=
  Note.type q' = Note.type q /\ Note.note q' = Note.note q
  /\ Note.notePrev q' = Note.notePrev q /\ Note.syllable q' = Note.syllable q.

(** The notes [b] are the notes [a] with the last one retimed and
    others put after it. *)
Definition grows (a b : Notes) : Prop :=
  take (length a - 1) b = take (length a - 1) a
  /\ forall i q, a !! i = Some q -> exists q', b !! i = Some q' /\ retimed q q'.

(** What the note loop keeps of the parser [P] on the way to [P']: the
    members that the header sets, the shift outside relative mode, and
    the output but for at most [k] warnings. *)
Definition kept (k : nat) (P P' : SongParser.t) : Prop :=
  SongParser.m_song P' = SongParser.m_song P
  /\ SongParser.m_relative P' = SongParser.m_relative P
  /\ SongParser.m_gap P' = SongParser.m_gap P
  /\ SongParser.m_bpm P' = SongParser.m_bpm P
  /\ (SongParser.m_relative P = false ->
      SongParser.m_relativeShift P' = SongParser.m_relativeShift P)
  /\ exists j, (j <= k)%nat
               /\ SongParser.cout P' = SongParser.cout P ++ replicate j (SongParser.warning P).


(** ** The note graph (src/unnamed/part_000) *)

Module NoteGraphWidget.
Section Text.

(** A [QString] is a sequence of [QChar]. *)
Context {QChar : Type}.

(** [QString::left(n)] and [QString::right(n)]: the [n] leftmost and the
    [n] rightmost characters; the entire string when [n] is greater than
    or equal to the size, or less than zero. *)
Definition left (n : Z) (s : list QChar) : list QChar :=
  if (n <? 0) || (Z.of_nat (length s) <=? n) then s else take (Z.to_nat n) s.

Definition right (n : Z) (s : list QChar) : list QChar :=
  if (n <? 0) || (Z.of_nat (length s) <=? n) then s
  else drop (length s - Z.to_nat n) s.

(** [int(std::ceil(length / 2.0))]: the division by two and the ceiling
    are exact on a [double] that holds an [int]. *)
Definition cutpos (length : Z) : Z := Qceiling (inject_Z length / 2).

(** The texts of the two labels that a click of the right button puts
    in place of a label (lines 153 to 163). *)
Definition mousePressEvent_right (text : list QChar) : list QChar * list QChar :=
  let cut := cutpos (Z.of_nat (length text)) in
  (left cut text, right (Z.of_nat (length text) - cut) text).

End Text.
End NoteGraphWidget.

(** * Properties *)

(** ** The time base *)

Module TimebaseFacts.
Import Timebase.

Lemma secondsPerTick_zero (bpm : Q) : (bpm == 0)%Q -> secondsPerTick bpm = 0%Q.
Proof.
  intros H. unfold secondsPerTick.
  apply Qeq_bool_iff in H. now rewrite H.
Qed.

Lemma secondsPerTick_pos (bpm : Q) : (0 < bpm)%Q -> (0 < secondsPerTick bpm)%Q.
Proof.
  intros H. unfold secondsPerTick, resolution.
  destruct (Qeq_bool bpm 0) eqn:E.
  - apply Qeq_bool_iff in E. lra.
  - apply Qlt_shift_div_l; lra.
Qed.

Lemma elapsed_nonneg (a b : Z) (s : Q) :
  a <= b -> (0 <= s)%Q -> (0 <= inject_Z (b - a) * s)%Q.
Proof.
  intros Hab Hs. apply Qmult_le_0_compat; [|assumption].
  change 0%Q with (inject_Z 0). rewrite <- Zle_Qle. lia.
Qed.

Lemma elapsed_mono (t a b : Z) (s : Q) :
  a <= b -> (0 <= s)%Q -> (inject_Z (a - t) * s <= inject_Z (b - t) * s)%Q.
Proof.
  intros Hab Hs. apply Qmult_le_compat_r; [|assumption].
  rewrite <- Zle_Qle. lia.
Qed.

Lemma addBPM_chain (tick : Z) (bpm : Q) (tb : t) :
  chain (points tb) -> synced tb ->
  (0 < bpm)%Q ->
  (points tb <> [] -> lastTick tb <= tick) ->
  chain (points (addBPM tick bpm tb)) /\ synced (addBPM tick bpm tb).
Proof.
  intros Hc Hs Hb Ht. split; [|split; reflexivity].
  unfold addBPM, synced, lastTick in *. cbn [points].
  destruct (points tb) as [|prev older] eqn:E.
  - destruct Hs as [Ha Ho]. apply chain_first; cbn [cp_offset cp_bpm]; [|assumption].
    rewrite (secondsPerTick_zero _ Ha). lra.
  - destruct Hs as [Ha Ho].
    apply chain_next; cbn [cp_offset cp_bpm cp_tick]; try assumption.
    + apply Ht. discriminate.
    + rewrite Ha, Ho. reflexivity.
Qed.

Lemma addAll_chain (calls : list (Z * Q)) (tb : t) :
  chain (points tb) -> synced tb ->
  Forall (fun c => (0 < snd c)%Q) calls ->
  Sorted Z.le (List.map fst calls) ->
  (points tb <> [] -> HdRel Z.le (lastTick tb) (List.map fst calls)) ->
  chain (points (addAll calls tb)).
Proof.
  revert tb. induction calls as [|[tick bpm] calls IH]; intros tb Hc Hs Hpos Hsort Hhd.
  - exact Hc.
  - simpl in *. inversion Hpos as [|? ? Hb Hpos']; subst.
    inversion Hsort as [|? ? Hsort' Hhd']; subst.
    destruct (addBPM_chain tick bpm tb Hc Hs Hb) as [Hc' Hs'].
    { intros Hne. specialize (Hhd Hne). now inversion Hhd. }
    apply IH; try assumption.
    intros _. exact Hhd'.
Qed.

Lemma timeAt_nonneg (cps : list ChangePoint) :
  chain cps -> forall x, (0 <= timeAt cps x)%Q.
Proof.
  unfold timeAt. induction 1 as [|cp Ho Hb|cp prev older Hc IH Ht Hb Ho]; intros x.
  - simpl. lra.
  - simpl. destruct (cp_tick cp <=? x) eqn:E; [|lra].
    apply Z.leb_le in E.
    pose proof (elapsed_nonneg (cp_tick cp) x (secondsPerTick (cp_bpm cp)) E
                  (Qlt_le_weak _ _ (secondsPerTick_pos _ Hb))).
    lra.
  - cbn [lookupPoint]. destruct (cp_tick cp <=? x) eqn:E; [|apply IH].
    apply Z.leb_le in E.
    pose proof (elapsed_nonneg (cp_tick cp) x (secondsPerTick (cp_bpm cp)) E
                  (Qlt_le_weak _ _ (secondsPerTick_pos _ Hb))).
    specialize (IH (cp_tick cp)). cbn [lookupPoint] in IH.
    destruct (cp_tick prev <=? cp_tick cp) eqn:E'; [|apply Z.leb_gt in E'; lia].
    lra.
Qed.

Lemma chain_bpm_pos (cp : ChangePoint) (older : list ChangePoint) :
  chain (cp :: older) -> (0 < cp_bpm cp)%Q.
Proof. now inversion 1. Qed.

(** At the tick of a change-point the older change-points give the
    offset stored in it: the pieces join. *)
Lemma timeAt_joins (cp : ChangePoint) (older : list ChangePoint) :
  chain (cp :: older) -> (timeAt older (cp_tick cp) == cp_offset cp)%Q.
Proof.
  inversion 1 as [|? Ho Hb|? prev older' Hc Ht Hb Ho]; subst.
  - unfold timeAt. simpl. lra.
  - unfold timeAt. cbn [lookupPoint].
    destruct (cp_tick prev <=? cp_tick cp) eqn:E; [|apply Z.leb_gt in E; lia].
    rewrite Ho. reflexivity.
Qed.

Lemma chain_older (cp : ChangePoint) (older : list ChangePoint) :
  chain (cp :: older) -> chain older.
Proof. inversion 1; [constructor | assumption]. Qed.

Lemma timeAt_monotone (cps : list ChangePoint) :
  chain cps -> forall a b, a <= b -> (timeAt cps a <= timeAt cps b)%Q.
Proof.
  induction cps as [|cp older IH]; intros Hc a b Hab.
  - unfold timeAt. simpl. lra.
  - pose proof (chain_older _ _ Hc) as Hc'.
    pose proof (timeAt_joins _ _ Hc) as Hj.
    pose proof (Qlt_le_weak _ _ (secondsPerTick_pos _ (chain_bpm_pos _ _ Hc))) as Hs.
    specialize (IH Hc').
    unfold timeAt in *. cbn [lookupPoint].
    destruct (cp_tick cp <=? a) eqn:Ea; destruct (cp_tick cp <=? b) eqn:Eb.
    + pose proof (elapsed_mono (cp_tick cp) a b _ Hab Hs). lra.
    + apply Z.leb_le in Ea. apply Z.leb_gt in Eb. lia.
    + apply Z.leb_gt in Ea. apply Z.leb_le in Eb.
      assert (Ha : a <= cp_tick cp) by lia.
      specialize (IH a (cp_tick cp) Ha).
      pose proof (elapsed_nonneg (cp_tick cp) b _ Eb Hs).
      lra.
    + apply IH. assumption.
Qed.

(** With BPM 120 from tick 0 and BPM 240 from tick 16, the ticks 0 to 16
    last twice as long as the ticks 16 to 32. *)
Example tempo_change_mid_track :
  let tb := addAll [(0, 120%Q); (16, 240%Q)] empty in
  (tsTime tb 16 - tsTime tb 0 == 2 * (tsTime tb 32 - tsTime tb 16))%Q
  /\ (tsTime tb 16 == 2)%Q /\ (tsTime tb 32 == 3)%Q.
Proof. repeat split. Qed.

End TimebaseFacts.


(** C4. For every sequence of addBPM calls with non-decreasing ticks and
    positive BPM, tsTime is monotonic (a <= b gives tsTime a <= tsTime b),
    and with no BPM registered tsTime 0 is 0. *)
Theorem tsTime_monotonic (calls : list (Z * Q)) :
  Sorted Z.le (List.map fst calls) ->
  Forall (fun c => (0 < snd c)%Q) calls ->
  (forall a b : Z, a <= b ->
     (Timebase.tsTime (Timebase.addAll calls Timebase.empty) a
      <= Timebase.tsTime (Timebase.addAll calls Timebase.empty) b)%Q)
  /\ Timebase.tsTime Timebase.empty 0 = 0%Q.
Proof.
  intros Hsort Hpos. split; [|reflexivity].
  intros a b Hab. unfold Timebase.tsTime.
  apply TimebaseFacts.timeAt_monotone; [|assumption].
  apply TimebaseFacts.addAll_chain; try assumption.
  - constructor.
  - split; reflexivity.
  - intros Hne. now contradiction Hne.
Qed.

Lemma tsTime_monotonic_witness :
  (Timebase.tsTime (Timebase.addAll Sample.tempo_120_240 Timebase.empty) 8%Z
   <= Timebase.tsTime (Timebase.addAll Sample.tempo_120_240 Timebase.empty) 24%Z)%Q.
Proof.
  refine (proj1 (tsTime_monotonic Sample.tempo_120_240 _ _) 8 24 _).
  - simpl. repeat constructor. lia.
  - repeat constructor.
  - lia.
Defined.

(** ** The track map *)

Module StdMapFacts.
Section Map.
Context {V : Type}.
Implicit Types (m : StdMap.t V) (k : string) (v : V).

Lemma find_erase k m : StdMap.find k (StdMap.erase k m) = None.
Proof.
  induction m as [|[k' v'] m IH]; simpl; [reflexivity|].
  destruct (String.eqb k k') eqn:E; [assumption|].
  simpl. now rewrite E.
Qed.

Lemma find_insert_fresh k v m :
  StdMap.find k m = None -> StdMap.find k (StdMap.insert k v m) = Some v.
Proof.
  induction m as [|[k' v'] m IH]; simpl.
  - intros _. now rewrite String.eqb_refl.
  - destruct (String.eqb k k') eqn:E; [discriminate|]. intros H.
    destruct (String.ltb k k'); simpl.
    + now rewrite String.eqb_refl.
    + rewrite E. auto.
Qed.

(** What [Song::insertVocalTrack] leaves under the key. *)
Lemma find_replace k v m :
  StdMap.find k (StdMap.insert k v (StdMap.erase k m)) = Some v.
Proof. apply find_insert_fresh, find_erase. Qed.

Lemma ltb_trans (a b c : string) :
  String.ltb a b = true -> String.ltb b c = true -> String.ltb a c = true.
Proof.
  unfold String.ltb. intros Hab Hbc.
  destruct (String.compare a b) eqn:Eab; try discriminate.
  destruct (String.compare b c) eqn:Ebc; try discriminate.
  apply OrderedTypeEx.String_as_OT.cmp_lt in Eab, Ebc.
  pose proof (OrderedTypeEx.String_as_OT.lt_trans _ _ _ Eab Ebc) as Hac.
  apply OrderedTypeEx.String_as_OT.cmp_lt in Hac.
  unfold OrderedTypeEx.String_as_OT.cmp in Hac. now rewrite Hac.
Qed.

Lemma ltb_connected (a b : string) :
  String.eqb a b = false -> String.ltb a b = false -> String.ltb b a = true.
Proof.
  unfold String.ltb. intros Hne Hlt. rewrite String.compare_antisym.
  destruct (String.compare a b) eqn:E; try discriminate.
  - apply String.compare_eq_iff in E. apply String.eqb_neq in Hne. contradiction.
  - reflexivity.
Qed.

Lemma keys_erase (P : string -> Prop) k m :
  Forall P (StdMap.keys m) -> Forall P (StdMap.keys (StdMap.erase k m)).
Proof.
  induction m as [|[k' v'] m IH]; simpl; [auto|].
  intros H. inversion H; subst.
  destruct (String.eqb k k'); [auto|]. simpl. constructor; auto.
Qed.

Lemma erase_sorted k m : StdMap.sorted m -> StdMap.sorted (StdMap.erase k m).
Proof.
  unfold StdMap.sorted. induction m as [|[k' v'] m IH]; simpl; [auto|].
  intros H. inversion H; subst.
  destruct (String.eqb k k'); [auto|]. simpl.
  constructor; [auto|]. now apply keys_erase.
Qed.

Lemma keys_insert (P : string -> Prop) k v m :
  P k -> Forall P (StdMap.keys m) -> Forall P (StdMap.keys (StdMap.insert k v m)).
Proof.
  intros Hk. induction m as [|[k' v'] m IH]; simpl; [repeat constructor; auto|].
  intros H. inversion H; subst.
  destruct (String.eqb k k'); [exact H|].
  destruct (String.ltb k k'); simpl; constructor; auto.
Qed.

Lemma insert_sorted k v m : StdMap.sorted m -> StdMap.sorted (StdMap.insert k v m).
Proof.
  unfold StdMap.sorted. induction m as [|[k' v'] m IH]; simpl.
  - intros _. repeat constructor.
  - intros H. inversion H as [|? ? Hm Hall]; subst.
    destruct (String.eqb k k') eqn:Eeq; [exact H|].
    destruct (String.ltb k k') eqn:Elt; simpl.
    + constructor; [exact H|]. constructor; [exact Elt|].
      eapply Forall_impl; [exact Hall|]. intros k'' Hk''. simpl in Hk''.
      eapply ltb_trans; eassumption.
    + constructor; [auto|]. apply keys_insert; [|assumption].
      now apply ltb_connected.
Qed.

(** Under the order of the keys the first entry is the one with the
    least key. *)
Lemma begin_least k v m :
  StdMap.sorted m -> StdMap.begin m = Some (k, v) ->
  Forall (fun k' => k' = k \/ String.ltb k k' = true) (StdMap.keys m).
Proof.
  unfold StdMap.sorted. destruct m as [|[k0 v0] m]; simpl; [discriminate|].
  intros H [= -> ->]. inversion H as [|? ? _ Hall]; subst.
  constructor; [now left|].
  eapply Forall_impl; [exact Hall|]. simpl. auto.
Qed.

End Map.
End StdMapFacts.

(** [Song::insertVocalTrack] keeps the track map in the order of its keys. *)
Lemma insertVocalTrack_sorted (vocalTrack : string) (track : VocalTrack.t) (s : Song.t) :
  StdMap.sorted (Song.vocalTracks s) ->
  StdMap.sorted (Song.vocalTracks (Song.insertVocalTrack vocalTrack track s)).
Proof. intros H. apply StdMapFacts.insert_sorted, StdMapFacts.erase_sorted, H. Qed.

Lemma make_sorted (path_ filename_ : string) :
  StdMap.sorted (Song.vocalTracks (Song.make path_ filename_)).
Proof. constructor. Qed.

Module EntryFacts.
Section Map.
Context {V : Type}.
Implicit Types (m : StdMap.t V) (k : string) (v : V).

Lemma ltb_not_self k : String.ltb k k = false.
Proof.
  unfold String.ltb.
  assert (H : String.compare k k = Eq)
    by now apply OrderedTypeEx.String_as_OT.cmp_eq.
  now rewrite H.
Qed.

(** A key that [find] does not find is the key of no entry. *)
Lemma find_None_keys k m : StdMap.find k m = None <-> ~ In k (StdMap.keys m).
Proof.
  induction m as [|[k0 v0] m IH]; simpl; [tauto|].
  destruct (String.eqb_spec k k0) as [->|Hne].
  - split; [discriminate | intros H; exfalso; apply H; now left].
  - rewrite IH. split; [intros H [H'|H']; [congruence | contradiction] | tauto].
Qed.

(** In a map in the order of its keys no key has two entries: [find]
    gives the value of the entry with that key. *)
Lemma find_entry k v m : StdMap.sorted m -> In (k, v) m -> StdMap.find k m = Some v.
Proof.
  unfold StdMap.sorted. induction m as [|[k0 v0] m IH]; simpl; [contradiction|].
  intros Hs Hin. inversion Hs as [|? ? Hs' Hall]; subst.
  destruct Hin as [[= -> ->]|Hin]; [now rewrite String.eqb_refl|].
  destruct (String.eqb_spec k k0) as [->|Hne]; [|now apply IH].
  exfalso. rewrite List.Forall_forall in Hall.
  assert (Hk : In k0 (StdMap.keys m)) by (apply (in_map fst _ _ Hin)).
  specialize (Hall _ Hk). rewrite ltb_not_self in Hall. discriminate.
Qed.

End Map.
End EntryFacts.

(** C10. getVocalTrack returns the track under the requested name when
    the track map has an entry under that name; otherwise the track of
    the entry named LEAD_VOCAL when there is one; otherwise the track of
    the first entry of the map, the one with the least name, when the map
    is not empty; otherwise the built-in empty dummy track.  The track
    map is a std::map: its entries are in the order of their names, one
    for each name. *)
Theorem getVocalTrack_fallback (s : Song.t) (vocalTrack : string) :
  StdMap.sorted (Song.vocalTracks s) ->
  (forall track, In (vocalTrack, track) (Song.vocalTracks s) ->
     Song.getVocalTrack s vocalTrack = track)
  /\ (~ In vocalTrack (Song.getVocalTrackNames s) ->
      forall track, In (TrackName.LEAD_VOCAL, track) (Song.vocalTracks s) ->
        Song.getVocalTrack s vocalTrack = track)
  /\ (~ In vocalTrack (Song.getVocalTrackNames s) ->
      ~ In TrackName.LEAD_VOCAL (Song.getVocalTrackNames s) ->
      forall first track others, Song.vocalTracks s = (first, track) :: others ->
        Song.getVocalTrack s vocalTrack = track
        /\ Forall (fun k => String.ltb first k = true) (StdMap.keys others))
  /\ (Song.vocalTracks s = [] ->
      Song.getVocalTrack s vocalTrack = Song.dummyVocal s
      /\ Song.dummyVocal (Song.make (Song.path s) (Song.filename s))
         = VocalTrack.make TrackName.LEAD_VOCAL).
Proof.
  intros Hsorted. unfold Song.getVocalTrack, Song.getVocalTrackNames.
  split; [|split; [|split]].
  - intros track Hin. now rewrite (EntryFacts.find_entry _ _ _ Hsorted Hin).
  - intros Hname track Hin. apply EntryFacts.find_None_keys in Hname.
    now rewrite Hname, (EntryFacts.find_entry _ _ _ Hsorted Hin).
  - intros Hname Hlead first track others Hm.
    apply EntryFacts.find_None_keys in Hname, Hlead. rewrite Hname, Hlead, Hm.
    split; [reflexivity|].
    rewrite Hm in Hsorted. unfold StdMap.sorted in Hsorted. simpl in Hsorted.
    now inversion Hsorted.
  - intros Hm. rewrite Hm. split; reflexivity.
Qed.

Lemma getVocalTrack_fallback_witness :
  let harmonics :=
    Song.insertVocalTrack TrackName.HARMONIC_2 (VocalTrack.make TrackName.HARMONIC_2)
      (Song.insertVocalTrack TrackName.HARMONIC_1 (VocalTrack.make TrackName.HARMONIC_1)
         Sample.song) in
  let all := Song.insertVocalTrack TrackName.LEAD_VOCAL Sample.lead harmonics in
  Song.getVocalTrack all TrackName.HARMONIC_2 = VocalTrack.make TrackName.HARMONIC_2
  /\ Song.getVocalTrack all "Drums" = Sample.lead
  /\ Song.getVocalTrack harmonics "Drums" = VocalTrack.make TrackName.HARMONIC_1
  /\ Song.getVocalTrack Sample.song "Drums" = Song.dummyVocal Sample.song.
Proof.
  intros harmonics all.
  assert (Hall : StdMap.sorted (Song.vocalTracks all))
    by (unfold StdMap.sorted; simpl; repeat constructor).
  assert (Hharmonics : StdMap.sorted (Song.vocalTracks harmonics))
    by (unfold StdMap.sorted; simpl; repeat constructor).
  assert (Hnone : StdMap.sorted (Song.vocalTracks Sample.song)) by constructor.
  split; [|split; [|split]].
  - apply (proj1 (getVocalTrack_fallback all TrackName.HARMONIC_2 Hall)).
    simpl. tauto.
  - apply (proj1 (proj2 (getVocalTrack_fallback all "Drums" Hall))).
    + simpl. intros [H|[H|[H|[]]]]; discriminate H.
    + simpl. tauto.
  - apply (proj1 (proj2 (proj2 (getVocalTrack_fallback harmonics "Drums" Hharmonics)))
             ltac:(simpl; intros [H|[H|[]]]; discriminate H)
             ltac:(simpl; intros [H|[H|[]]]; discriminate H)
             TrackName.HARMONIC_1 _ [(TrackName.HARMONIC_2, _)] eq_refl).
  - apply (proj1 (proj2 (proj2 (proj2 (getVocalTrack_fallback Sample.song "Drums" Hnone)))
                    eq_refl)).
Defined.

(** ** The header *)

Section HeaderFacts.

Variable assign_double : string -> result Q.
Variable assign_bool : string -> result bool.

Abbreviation txtParseField := (SongParser.txtParseField assign_double assign_bool).
Abbreviation txtParseFields := (SongParser.txtParseFields assign_double assign_bool).
Abbreviation txtParseHeader := (SongParser.txtParseHeader assign_double assign_bool).
Abbreviation txtParse := (SongParser.txtParse assign_double assign_bool).

Lemma front_is_nonempty (c : ascii) (line : string) :
  SongParser.front_is c line = true -> String.eqb line EmptyString = false.
Proof. destruct line; [discriminate | reflexivity]. Qed.

(** C7. For one line given to the field parser: a blank line is
    accepted and changes nothing; a line that does not start with '#'
    makes the parser return false and changes nothing; a line that
    starts with '#' and holds no ':' raises the fatal format error; a
    '#' line whose value is empty once trimmed is accepted and sets no
    field. *)
Theorem txtParseField_classifies (line : string) (P : SongParser.t) :
  (line = EmptyString -> txtParseField line P = Ok (true, P))
  /\ (line <> EmptyString -> SongParser.front_is "#" line = false ->
      txtParseField line P = Ok (false, P))
  /\ (SongParser.front_is "#" line = true -> String.index 0 ":" line = None ->
      txtParseField line P
      = Throw (runtime_error "Invalid txt format, should be #key:value"))
  /\ (SongParser.front_is "#" line = true ->
      forall pos, String.index 0 ":" line = Some pos ->
        trim_copy (String.substring (pos + 1) (String.length line - (pos + 1)) line)
        = EmptyString ->
        txtParseField line P = Ok (true, P)).
Proof.
  unfold SongParser.txtParseField. split; [|split; [|split]].
  - intros ->. reflexivity.
  - intros Hne Hfront.
    destruct (String.eqb line EmptyString) eqn:E.
    + apply String.eqb_eq in E. contradiction.
    + now rewrite Hfront.
  - intros Hfront Hidx.
    rewrite (front_is_nonempty _ _ Hfront), Hfront, Hidx. reflexivity.
  - intros Hfront pos Hidx Hval.
    rewrite (front_is_nonempty _ _ Hfront), Hfront, Hidx. cbn [negb].
    rewrite Hval. reflexivity.
Qed.


End HeaderFacts.

Lemma txtParseField_classifies_witness :
  SongParser.txtParseField Sample.assign_decimal Sample.assign_flag
    ": 0 8 60 la" Sample.parser60 = Ok (false, Sample.parser60)
  /\ SongParser.txtParseField Sample.assign_decimal Sample.assign_flag
       "#TITLE" Sample.parser60
     = Throw (runtime_error "Invalid txt format, should be #key:value")
  /\ SongParser.txtParseField Sample.assign_decimal Sample.assign_flag
       "#EDITION:   " Sample.parser60 = Ok (true, Sample.parser60).
Proof.
  split; [|split].
  - apply (proj1 (proj2 (txtParseField_classifies Sample.assign_decimal Sample.assign_flag
                           ": 0 8 60 la" Sample.parser60)));
      [discriminate | reflexivity].
  - apply (proj1 (proj2 (proj2 (txtParseField_classifies Sample.assign_decimal
                                  Sample.assign_flag "#TITLE" Sample.parser60))));
      reflexivity.
  - apply (proj2 (proj2 (proj2 (txtParseField_classifies Sample.assign_decimal
                                  Sample.assign_flag "#EDITION:   " Sample.parser60)))
             eq_refl 8%nat); reflexivity.
Defined.


(** ** The note sequence *)

Module NotesFacts.
Import SongParser.

Lemma set_back_snoc (p p' : Note.t) (before : Notes) :
  set_back p' (before ++ [p]) = before ++ [p'].
Proof.
  unfold set_back. rewrite length_app. simpl.
  replace (pred (length before + 1)) with (length before + 0)%nat by lia.
  now rewrite insert_app_r.
Qed.

(** The note before the last one, as the reverse iterator finds it. *)
Lemma two_back_snoc (p : Note.t) (before : Notes) :
  rev (before ++ [p]) !! 1%nat = last before.
Proof.
  rewrite rev_app_distr. simpl.
  destruct before as [|q before'] using rev_ind; [reflexivity|].
  rewrite rev_app_distr, last_snoc. reflexivity.
Qed.

Lemma last_Some_snoc (notes : Notes) (p : Note.t) :
  last notes = Some p -> exists before, notes = before ++ [p].
Proof.
  destruct notes as [|q before] using rev_ind; [discriminate|].
  rewrite last_snoc. intros [= ->]. eauto.
Qed.

Lemma is_nil_snoc (p : Note.t) (before : Notes) : is_nil (before ++ [p]) = false.
Proof. destruct before; reflexivity. Qed.

(** A line that passes the guards of [txtParseNote] is read as a note
    and placed. *)
Lemma txtParseNote_noteLine (line : string) (vocal : VocalTrack.t) (P : t) :
  noteLine line = true ->
  txtParseNote line vocal P
  = '(n, ts, P1) ← readNote (chomp line) P; placeNote n ts vocal P1.
Proof.
  unfold noteLine, txtParseNote. intros H.
  repeat (apply andb_prop in H; destruct H as [H ?]).
  repeat match goal with
         | Hn : negb ?b = true |- _ => apply negb_true_iff in Hn; rewrite Hn
         end.
  reflexivity.
Qed.

(** Reading a line changes neither the song nor the resolved end time,
    and only the SLEEP case in relative mode moves the shift. *)
Lemma timeNote_keeps (tok : NoteLine) (P P1 : t) (n : Note.t) (ts : Z) :
  timeNote tok P = (n, ts, P1) ->
  m_song P1 = m_song P /\ m_prevtime P1 = m_prevtime P /\ cout P1 = cout P
  /\ m_relative P1 = m_relative P.
Proof.
  destruct tok; simpl; intros [= <- <- <-]; [tauto|].
  destruct (m_relative P) eqn:E; simpl; rewrite ?E; tauto.
Qed.

Lemma readNote_keeps (line : string) (P P1 : t) (n : Note.t) (ts : Z) :
  readNote line P = Ok (n, ts, P1) ->
  m_song P1 = m_song P /\ m_prevtime P1 = m_prevtime P /\ cout P1 = cout P
  /\ m_relative P1 = m_relative P.
Proof.
  unfold readNote. destruct (scanNote line (m_prevts P)) as [tok| |]; try discriminate.
  cbn [mbind result_bind]. intros [= H]. eapply timeNote_keeps, H.
Qed.


Lemma sleepWorkaround_defined (n p : Note.t) (before : Notes) :
  (Note.type p = Note.SLEEP -> before <> []) ->
  exists p1, sleepWorkaround n p (before ++ [p]) = Ok p1
             /\ Note.type p1 = Note.type p /\ Note.lineBreak p1 = Note.lineBreak p.
Proof.
  intros Hdef. unfold sleepWorkaround.
  destruct (Note.is_SLEEP (Note.type p)) eqn:E; [|eauto].
  rewrite two_back_snoc.
  assert (Hs : Note.type p = Note.SLEEP) by (destruct (Note.type p); try discriminate; reflexivity).
  specialize (Hdef Hs).
  destruct before as [|q before'] using rev_ind; [contradiction|].
  rewrite last_snoc.
  destruct (Qltb (Note.end_ q) (Note.begin n)); eauto.
Qed.



Lemma placeNote_overlap_skipped (n : Note.t) (ts : Z) (vocal : VocalTrack.t) (P : t)
    (before : Notes) (p p1 : Note.t) :
  Qltb (Note.begin n) (m_prevtime P) = true ->
  VocalTrack.notes vocal = before ++ [p] ->
  sleepWorkaround n p (VocalTrack.notes vocal) = Ok p1 ->
  Qle_bool (Note.begin p1) (Note.begin n) = false ->
  placeNote n ts vocal P
  = Ok (true,
        set_cout (cout P ++ [warning P]) (set_m_prevts ts P),
        VocalTrack.set_notes (before ++ [p1]) vocal).
Proof.
  intros Hlt Hnotes Hp1 Hgt.
  unfold placeNote. rewrite Hnotes in *. rewrite is_nil_snoc, andb_false_r.
  cbn [m_prevtime set_m_prevts]. rewrite Hlt.
  unfold recoverOverlap. rewrite last_snoc, Hp1. cbn [mbind result_bind].
  rewrite Hgt. cbn [mbind result_bind negb]. rewrite set_back_snoc.
  reflexivity.
Qed.

Lemma placeNote_overlap_first (n : Note.t) (ts : Z) (vocal : VocalTrack.t) (P : t) :
  Qltb (Note.begin n) (m_prevtime P) = true ->
  VocalTrack.notes vocal = [] ->
  placeNote n ts vocal P = Throw (runtime_error "The first note has negative timestamp").
Proof.
  intros Hlt Hnotes. unfold placeNote. rewrite Hnotes.
  destruct (m_relative P); cbn [andb is_nil m_prevtime set_m_prevts set_m_relativeShift];
    rewrite Hlt; reflexivity.
Qed.

Lemma placeNote_in_order (n : Note.t) (ts : Z) (vocal : VocalTrack.t) (P : t) :
  Qltb (Note.begin n) (m_prevtime P) = false ->
  exists P',
    m_song P' = m_song P /\ m_prevtime P' = Note.end_ n /\ m_prevts P' = ts
    /\ placeNote n ts vocal P
       = Ok (true, P',
             VocalTrack.set_notes
               (if Note.is_SLEEP (Note.type n) then
                  match last (VocalTrack.notes vocal) with
                  | Some p =>
                      set_back (Note.set_lineBreak true p) (VocalTrack.notes vocal)
                      ++ [Note.set_end (m_prevtime P) (Note.set_begin (m_prevtime P) n)]
                  | None => VocalTrack.notes vocal
                  end
                else VocalTrack.notes vocal ++ [n])
               (widenRange n vocal)).
Proof.
  intros Hge. unfold placeNote, widenRange.
  set (P1 := if m_relative P && is_nil (VocalTrack.notes vocal)
             then set_m_relativeShift ts P else P).
  assert (H1 : m_prevtime P1 = m_prevtime P /\ m_song P1 = m_song P)
    by (subst P1; destruct (_ && _); split; reflexivity).
  destruct H1 as [H1 H1'].
  cbn [m_prevtime set_m_prevts]. rewrite H1, Hge. cbn [mbind result_bind negb].
  eexists. split; [|split; [|split]]; cycle 3.
  - destruct (Note.is_SLEEP (Note.type n)); [destruct (last _)|]; reflexivity.
  - exact H1'.
  - reflexivity.
  - reflexivity.
Qed.

Lemma widenRange_notes (n : Note.t) (vocal : VocalTrack.t) :
  VocalTrack.notes (widenRange n vocal) = VocalTrack.notes vocal.
Proof. unfold widenRange. destruct (_ && _); reflexivity. Qed.

Lemma sleepWorkaround_type (n p p1 : Note.t) (notes : Notes) :
  sleepWorkaround n p notes = Ok p1 -> Note.type p1 = Note.type p.
Proof.
  unfold sleepWorkaround.
  destruct (Note.is_SLEEP (Note.type p)); [|now intros [= ->]].
  destruct (rev notes !! 1%nat) as [p2|]; [|discriminate].
  destruct (Qltb _ _); intros [= <-]; reflexivity.
Qed.

Lemma leading_sleep_snoc (n : Note.t) (notes : Notes) :
  leading_sleep (notes ++ [n])
  = if is_nil notes then Note.is_SLEEP (Note.type n) else leading_sleep notes.
Proof. destruct notes; reflexivity. Qed.

Lemma leading_sleep_retyped (p p' : Note.t) (before : Notes) :
  Note.type p' = Note.type p ->
  leading_sleep (before ++ [p']) = leading_sleep (before ++ [p]).
Proof. intros H. destruct before; simpl; [now rewrite H | reflexivity]. Qed.

Lemma leading_sleep_guard (p : Note.t) (before : Notes) :
  leading_sleep (before ++ [p]) = false -> Note.type p = Note.SLEEP -> before <> [].
Proof.
  intros H Hs ->. simpl in H. rewrite Hs in H. discriminate.
Qed.

(** Placing a note keeps a sequence that does not start with a SLEEP so. *)
Lemma placeNote_leading (n : Note.t) (ts : Z) (vocal vocal' : VocalTrack.t) (P P' : t)
    (more : bool) :
  leading_sleep (VocalTrack.notes vocal) = false ->
  placeNote n ts vocal P = Ok (more, P', vocal') ->
  leading_sleep (VocalTrack.notes vocal') = false.
Proof.
  intros Hlead. unfold placeNote.
  destruct (VocalTrack.notes vocal) as [|p before _] eqn:Hnotes using rev_ind.
  - destruct (Qltb _ _); [discriminate|]. cbn [mbind result_bind negb last].
    destruct (Note.is_SLEEP (Note.type n)) eqn:En; intros [= <- <- <-];
      cbn [VocalTrack.notes VocalTrack.set_notes]; [reflexivity|].
    simpl. exact En.
  - destruct (Qltb _ _).
    + unfold recoverOverlap. rewrite last_snoc.
      destruct (sleepWorkaround n p (before ++ [p])) as [p1| |] eqn:Hw; try discriminate.
      pose proof (sleepWorkaround_type _ _ _ _ Hw) as Hty.
      cbn [mbind result_bind].
      destruct (Qle_bool _ _); cbn [mbind result_bind negb]; rewrite set_back_snoc.
      * destruct (Note.is_SLEEP (Note.type n)); [rewrite last_snoc, set_back_snoc|];
          intros [= <- <- <-]; cbn [VocalTrack.notes VocalTrack.set_notes];
          rewrite leading_sleep_snoc, is_nil_snoc, <- Hlead;
          now apply leading_sleep_retyped.
      * intros [= <- <- <-]. cbn [VocalTrack.notes VocalTrack.set_notes].
        rewrite <- Hlead. now apply leading_sleep_retyped.
    + cbn [mbind result_bind negb].
      destruct (Note.is_SLEEP (Note.type n)); [rewrite last_snoc, set_back_snoc|];
        intros [= <- <- <-]; cbn [VocalTrack.notes VocalTrack.set_notes];
        rewrite leading_sleep_snoc, is_nil_snoc, <- ?Hlead; [|reflexivity].
      now apply leading_sleep_retyped.
Qed.

(** On such a sequence the note before the last one is there whenever
    the workaround looks for it. *)
Lemma placeNote_defined (n : Note.t) (ts : Z) (vocal : VocalTrack.t) (P : t) :
  leading_sleep (VocalTrack.notes vocal) = false ->
  placeNote n ts vocal P <> Undefined.
Proof.
  intros Hlead. unfold placeNote.
  destruct (VocalTrack.notes vocal) as [|p before _] eqn:Hnotes using rev_ind.
  - destruct (Qltb _ _); [discriminate|]. cbn [mbind result_bind negb last].
    destruct (Note.is_SLEEP _); discriminate.
  - destruct (Qltb _ _).
    + unfold recoverOverlap. rewrite last_snoc.
      destruct (sleepWorkaround_defined n p before (leading_sleep_guard _ _ Hlead))
        as (p1 & -> & _).
      cbn [mbind result_bind].
      destruct (Qle_bool _ _); cbn [mbind result_bind negb]; rewrite set_back_snoc;
        [|discriminate].
      destruct (Note.is_SLEEP _); [rewrite last_snoc|]; discriminate.
    + cbn [mbind result_bind negb].
      destruct (Note.is_SLEEP _); [rewrite last_snoc|]; discriminate.
Qed.

(** What placing a SLEEP does to the sequence: nothing on an empty
    one; otherwise the note is skipped as an overlap, or it is appended
    with both its times at the resolved end time and the note before
    it ends a line. *)
Lemma placeNote_sleep (n : Note.t) (ts : Z) (vocal vocal' : VocalTrack.t) (P P' : t)
    (more : bool) :
  Note.type n = Note.SLEEP ->
  placeNote n ts vocal P = Ok (more, P', vocal') ->
  (VocalTrack.notes vocal = [] /\ VocalTrack.notes vocal' = [])
  \/ (Qltb (Note.begin n) (m_prevtime P) = true
      /\ length (VocalTrack.notes vocal') = length (VocalTrack.notes vocal))
  \/ (exists before p s,
        VocalTrack.notes vocal' = before ++ [p; s]
        /\ length (VocalTrack.notes vocal) = S (length before)
        /\ Note.type s = Note.SLEEP
        /\ Note.begin s = m_prevtime P /\ Note.end_ s = m_prevtime P
        /\ Note.lineBreak p = true).
Proof.
  intros Hs. unfold placeNote. rewrite Hs. cbn [Note.is_SLEEP].
  set (P1 := if m_relative P && is_nil (VocalTrack.notes vocal)
             then set_m_relativeShift ts P else P).
  assert (H1 : m_prevtime P1 = m_prevtime P)
    by (subst P1; destruct (_ && _); reflexivity).
  cbn [m_prevtime set_m_prevts]. rewrite H1. clearbody P1.
  destruct (VocalTrack.notes vocal) as [|p before _] eqn:Hnotes using rev_ind.
  - destruct (Qltb _ _); [discriminate|]. cbn [mbind result_bind negb last].
    intros [= <- <- <-]. left. split; reflexivity.
  - intros H. right. destruct (Qltb _ _) eqn:Hlt.
    + unfold recoverOverlap in H. rewrite last_snoc in H.
      destruct (sleepWorkaround n p (before ++ [p])) as [p1| |]; try discriminate.
      cbn [mbind result_bind] in H.
      destruct (Qle_bool _ _); cbn [mbind result_bind negb] in H;
        rewrite set_back_snoc in H.
      * rewrite last_snoc, set_back_snoc in H. injection H as <- <- <-. right.
        eexists before, _, _. cbn [VocalTrack.notes VocalTrack.set_notes].
        rewrite <- app_assoc, length_app. simpl.
        split; [reflexivity|]. split; [lia|]. split; [exact Hs|]. repeat split.
      * injection H as <- <- <-. left. split; [reflexivity|].
        cbn [VocalTrack.notes VocalTrack.set_notes]. now rewrite !length_app.
    + cbn [mbind result_bind negb] in H. rewrite last_snoc, set_back_snoc in H.
      injection H as <- <- <-. right.
      eexists before, _, _. cbn [VocalTrack.notes VocalTrack.set_notes].
      rewrite <- app_assoc, length_app. simpl.
      split; [reflexivity|]. split; [lia|]. split; [exact Hs|]. repeat split.
Qed.

(** Where a placed note leaves the tick and the relative shift. *)
Lemma placeNote_shift (n : Note.t) (ts : Z) (vocal vocal' : VocalTrack.t) (P P' : t)
    (more : bool) :
  placeNote n ts vocal P = Ok (more, P', vocal') ->
  m_prevts P' = ts
  /\ m_relativeShift P'
     = if m_relative P && is_nil (VocalTrack.notes vocal) then ts else m_relativeShift P.
Proof.
  unfold placeNote.
  set (P1 := if m_relative P && is_nil (VocalTrack.notes vocal)
             then set_m_relativeShift ts P else P).
  assert (H1 : m_relativeShift P1
               = if m_relative P && is_nil (VocalTrack.notes vocal)
                 then ts else m_relativeShift P)
    by (subst P1; destruct (_ && _); reflexivity).
  rewrite <- H1. clearbody P1.
  destruct (if Qltb _ _ then _ else _) as [[keep notes1]| |]; try discriminate.
  cbn [mbind result_bind].
  destruct (negb keep); [intros [= <- <- <-]; split; reflexivity|].
  destruct (Note.is_SLEEP _); [destruct (last notes1)|];
    intros [= <- <- <-]; split; reflexivity.
Qed.

End NotesFacts.

(** ** Reading a note line *)

Module IStreamFacts.
Import IStream.

Lemma digit_of_range (c : ascii) (d : Z) : digit_of c = Some d -> 0 <= d <= 9.
Proof.
  unfold digit_of. destruct (_ && _) eqn:E; [|discriminate].
  apply andb_prop in E. destruct E as [E1 E2].
  apply Z.leb_le in E1, E2. intros [= <-]. lia.
Qed.

Lemma digits_nonneg (s : string) (acc v : Z) (k : nat) (rest : string) :
  0 <= acc -> digits s acc = (v, k, rest) -> 0 <= v.
Proof.
  revert acc v k rest. induction s as [|c s IH]; intros acc v k rest Hacc; simpl.
  - intros [= <- _ _]. assumption.
  - destruct (digit_of c) as [d|] eqn:Ed.
    + pose proof (digit_of_range _ _ Ed).
      destruct (digits s (acc * 10 + d)) as [[v' k'] rest'] eqn:E.
      intros [= <- _ _]. eapply IH; [|exact E]. lia.
    + intros [= <- _ _]. assumption.
Qed.

(** What is read into an [unsigned int] fits in 32 bits. *)
Lemma extract_unsigned_range (s rest : string) (v : Z) :
  extract_unsigned s = Some (v, rest) -> 0 <= v < 2 ^ 32.
Proof.
  unfold extract_unsigned, integer.
  destruct (sign (skipws s)) as [neg s1].
  destruct (digits s1 0) as [[m k] r] eqn:E.
  pose proof (digits_nonneg _ _ _ _ _ (Z.le_refl 0) E) as Hm.
  destruct k; [discriminate|].
  destruct (m <=? UINT_MAX) eqn:Hle; [|discriminate].
  apply Z.leb_le in Hle. unfold UINT_MAX in Hle.
  destruct neg; intros [= <- _].
  - apply Z.mod_pos_bound. lia.
  - lia.
Qed.

(** A number with an exponent, and an exponent without digits. *)
Example extract_double_exponent :
  extract_double "6e1 x" = Some (60%Q, " x")
  /\ extract_double "25.e-1" = Some ((25 # 10)%Q, EmptyString)
  /\ extract_double "1e" = None
  /\ extract_double "e5" = None.
Proof. repeat split; vm_compute; reflexivity. Qed.

End IStreamFacts.

(** The tick written on a note line fits in 32 bits, when the tick
    resolved before does. *)
Lemma scanNote_rawTick_range (line : string) (prevts : Z) (tok : SongParser.NoteLine) :
  0 <= prevts < 2 ^ 32 ->
  SongParser.scanNote line prevts = Ok tok ->
  0 <= SongParser.rawTick tok < 2 ^ 32.
Proof.
  intros Hprev. unfold SongParser.scanNote.
  destruct (IStream.get line) as [[c|] iss]; [|discriminate].
  destruct (Note.Type_of_char c) as [ty|]; [|discriminate].
  assert (Hsung :
    match
      '(ts, iss1) ← IStream.extract_unsigned iss;
      '(length, iss2) ← IStream.extract_unsigned iss1;
      '(pitch, iss3) ← IStream.extract_int iss2;
      Some (ts, length, pitch, iss3)
    with
    | Some (ts, length, pitch, iss3) =>
        Ok (SongParser.Sung ty ts length pitch
              match IStream.get iss3 with
              | (Some " "%char, iss4) => IStream.getline iss4
              | _ => EmptyString
              end)
    | None => Throw (runtime_error "Invalid note line format")
    end = Ok tok -> 0 <= SongParser.rawTick tok < 2 ^ 32).
  { destruct (IStream.extract_unsigned iss) as [[ts iss1]|] eqn:E1; [|discriminate].
    cbn [mbind option_bind].
    destruct (IStream.extract_unsigned iss1) as [[len iss2]|]; [|discriminate].
    cbn [mbind option_bind].
    destruct (IStream.extract_int iss2) as [[pitch iss3]|]; [|discriminate].
    cbn [mbind option_bind]. intros [= <-]. simpl.
    eapply IStreamFacts.extract_unsigned_range, E1. }
  destruct ty; try exact Hsung.
  destruct (IStream.extract_unsigned iss) as [[ts iss1]|] eqn:E1.
  - pose proof (IStreamFacts.extract_unsigned_range _ _ _ E1).
    destruct (IStream.extract_unsigned iss1) as [[e ?]|]; intros [= <-]; assumption.
  - intros [= <-]. assumption.
Qed.

(** ** One line of the note stream *)

Module ParseNoteFacts.
Import SongParser NotesFacts.

Lemma readNote_defined (line : string) (P : t) : readNote line P <> Undefined.
Proof.
  unfold readNote, scanNote.
  destruct (IStream.get line) as [[c|] iss]; [|discriminate].
  destruct (Note.Type_of_char c) as [[]|]; try discriminate;
    repeat match goal with
           | |- context [match ?x with _ => _ end] => destruct x
           end; discriminate.
Qed.

(** [txtParseNote] keeps a sequence that does not start with a SLEEP
    so, and on such a sequence every access it makes is defined. *)
Lemma txtParseNote_leading (line : string) (vocal vocal' : VocalTrack.t) (P P' : t)
    (more : bool) :
  leading_sleep (VocalTrack.notes vocal) = false ->
  txtParseNote line vocal P = Ok (more, P', vocal') ->
  leading_sleep (VocalTrack.notes vocal') = false.
Proof.
  intros Hlead. unfold txtParseNote.
  destruct (_ || _); [now intros [= <- <- <-]|].
  destruct (front_is "#" line); [discriminate|].
  destruct (front_is "E" _); [now intros [= <- <- <-]|].
  destruct (front_is "B" _).
  { destruct (_ ≫= _) as [[ts bpm]|]; [now intros [= <- <- <-] | discriminate]. }
  destruct (front_is "P" _); [now intros [= <- <- <-]|].
  destruct (readNote _ P) as [[[n ts] P1]| |]; try discriminate.
  cbn [mbind result_bind]. now apply placeNote_leading.
Qed.

Lemma txtParseNote_defined (line : string) (vocal : VocalTrack.t) (P : t) :
  leading_sleep (VocalTrack.notes vocal) = false ->
  txtParseNote line vocal P <> Undefined.
Proof.
  intros Hlead. unfold txtParseNote.
  destruct (_ || _); [discriminate|].
  destruct (front_is "#" line); [discriminate|].
  destruct (front_is "E" _); [discriminate|].
  destruct (front_is "B" _).
  { destruct (_ ≫= _) as [[ts bpm]|]; discriminate. }
  destruct (front_is "P" _); [discriminate|].
  destruct (readNote _ P) as [[[n ts] P1]| |] eqn:Hr; try discriminate.
  - cbn [mbind result_bind]. now apply placeNote_defined.
  - now apply readNote_defined in Hr.
Qed.

Lemma reached_leading (vocal : VocalTrack.t) (P : t) :
  reached vocal P -> leading_sleep (VocalTrack.notes vocal) = false.
Proof.
  induction 1 as [P|line vocal vocal' P P' more _ IH Hstep]; [reflexivity|].
  eapply txtParseNote_leading; eassumption.
Qed.

End ParseNoteFacts.

Module LoopFacts.
Import SongParser ParseNoteFacts.

(** The loops read their lines with [getline]. *)
Lemma txtParseFields_getline (assign_double : string -> result Q)
    (assign_bool : string -> result bool) (ss : list string) (P : t) :
  txtParseFields assign_double assign_bool ss P
  = match getline ss with
    | (false, line, ss') => Ok (ss', line, P)
    | (true, line, ss') =>
        '(more, P1) ← txtParseField assign_double assign_bool line P;
        if (more : bool) then txtParseFields assign_double assign_bool ss' P1
        else Ok (ss', line, P1)
    end.
Proof. destruct ss; reflexivity. Qed.

Lemma txtParseNotes_getline (ss : list string) (line : string) (vocal : VocalTrack.t)
    (P : t) :
  txtParseNotes ss line vocal P
  = '(more, P1, vocal1) ← txtParseNote line vocal P;
    if (more : bool) then
      match getline ss with
      | (false, _, ss') => Ok (ss', P1, vocal1)
      | (true, line', ss') => txtParseNotes ss' line' vocal1 P1
      end
    else Ok (ss, P1, vocal1).
Proof. destruct ss; reflexivity. Qed.

(** The note loop of [txtParse] only passes through reached tracks. *)
Lemma txtParseNotes_reached (ss ss' : list string) (line : string)
    (vocal vocal' : VocalTrack.t) (P P' : t) :
  reached vocal P ->
  txtParseNotes ss line vocal P = Ok (ss', P', vocal') ->
  reached vocal' P'.
Proof.
  revert line vocal P. induction ss as [|next ss IH]; intros line vocal P Hreached; simpl;
    destruct (txtParseNote line vocal P) as [[[more P1] vocal1]| |] eqn:Hstep;
    try discriminate; cbn [mbind result_bind];
    pose proof (reached_line _ _ _ _ _ _ Hreached Hstep) as Hnext;
    destruct more; try (intros [= <- <- <-]; exact Hnext).
  now apply IH.
Qed.

(** The note loop never makes an access that is not defined. *)
Lemma txtParseNotes_defined (ss : list string) (line : string) (vocal : VocalTrack.t)
    (P : t) :
  reached vocal P -> txtParseNotes ss line vocal P <> Undefined.
Proof.
  revert line vocal P. induction ss as [|next ss IH]; intros line vocal P Hreached; simpl;
    pose proof (txtParseNote_defined line vocal P (reached_leading _ _ Hreached)) as Hdef;
    destruct (txtParseNote line vocal P) as [[[more P1] vocal1]| |] eqn:Hstep;
    try discriminate; try contradiction; cbn [mbind result_bind];
    destruct more; try discriminate.
  apply IH. eapply reached_line; eassumption.
Qed.

End LoopFacts.

(** ** b0rkedTracks *)

Module FlagFacts.
Import SongParser.

Section Flag.
Variable assign_double : string -> result Q.
Variable assign_bool : string -> result bool.

Lemma txtParseField_flag (line : string) (P P' : t) (more : bool) :
  txtParseField assign_double assign_bool line P = Ok (more, P') ->
  Song.b0rkedTracks (m_song P') = Song.b0rkedTracks (m_song P).
Proof.
  unfold txtParseField. intros H.
  repeat match type of H with
         | context [if ?b then _ else _] => destruct b
         | context [String.index ?n ?a ?b] => destruct (String.index n a b)
         | context [substr ?v ?p] => destruct (substr v p)
         | context [assign_double ?v] => destruct (assign_double v)
         | context [assign_bool ?v] => destruct (assign_bool v)
         | _ => progress cbn [mbind result_bind] in H
         end;
    try discriminate; injection H as <- <-; reflexivity.
Qed.

Lemma txtParseFields_flag (ss ss' : list string) (line : string) (P P' : t) :
  txtParseFields assign_double assign_bool ss P = Ok (ss', line, P') ->
  Song.b0rkedTracks (m_song P') = Song.b0rkedTracks (m_song P).
Proof.
  revert P. induction ss as [|l ss IH]; intros P; simpl.
  - now intros [= <- <- <-].
  - destruct (txtParseField assign_double assign_bool l P) as [[more P1]| |] eqn:Hf;
      try discriminate. cbn [mbind result_bind].
    pose proof (txtParseField_flag _ _ _ _ Hf) as H1.
    destruct more.
    + intros H. rewrite (IH _ H). exact H1.
    + intros [= <- <- <-]. exact H1.
Qed.

End Flag.

(** A line of the note stream leaves the song as it is. *)
Lemma placeNote_song (n : Note.t) (ts : Z) (vocal vocal' : VocalTrack.t) (P P' : t)
    (more : bool) :
  placeNote n ts vocal P = Ok (more, P', vocal') -> m_song P' = m_song P.
Proof.
  unfold placeNote.
  set (P1 := if m_relative P && is_nil (VocalTrack.notes vocal)
             then set_m_relativeShift ts P else P).
  assert (H1 : m_song P1 = m_song P) by (subst P1; destruct (_ && _); reflexivity).
  rewrite <- H1. clearbody P1.
  destruct (if Qltb _ _ then _ else _) as [[keep notes1]| |]; try discriminate.
  cbn [mbind result_bind].
  destruct (negb keep); [now intros [= <- <- <-]|].
  destruct (Note.is_SLEEP _); [destruct (last notes1)|]; now intros [= <- <- <-].
Qed.

Lemma txtParseNote_song (line : string) (vocal vocal' : VocalTrack.t) (P P' : t)
    (more : bool) :
  txtParseNote line vocal P = Ok (more, P', vocal') -> m_song P' = m_song P.
Proof.
  unfold txtParseNote.
  destruct (_ || _); [now intros [= <- <- <-]|].
  destruct (front_is "#" line); [discriminate|].
  destruct (front_is "E" _); [now intros [= <- <- <-]|].
  destruct (front_is "B" _).
  { destruct (_ ≫= _) as [[ts bpm]|]; [now intros [= <- <- <-] | discriminate]. }
  destruct (front_is "P" _); [now intros [= <- <- <-]|].
  destruct (readNote _ P) as [[[n ts] P1]| |] eqn:Hr; try discriminate.
  cbn [mbind result_bind]. intros H.
  rewrite (placeNote_song _ _ _ _ _ _ _ H).
  now destruct (NotesFacts.readNote_keeps _ _ _ _ _ Hr).
Qed.

Lemma txtParseNotes_song (ss ss' : list string) (line : string)
    (vocal vocal' : VocalTrack.t) (P P' : t) :
  txtParseNotes ss line vocal P = Ok (ss', P', vocal') -> m_song P' = m_song P.
Proof.
  revert line vocal P. induction ss as [|next ss IH]; intros line vocal P; simpl;
    destruct (txtParseNote line vocal P) as [[[more P1] vocal1]| |] eqn:Hstep;
    try discriminate; cbn [mbind result_bind];
    pose proof (txtParseNote_song _ _ _ _ _ _ Hstep) as H1;
    destruct more; try (now intros [= <- <- <-]).
  intros H. rewrite (IH _ _ _ H). exact H1.
Qed.

Lemma registerBPM_song (P : t) : m_song (registerBPM P) = m_song P.
Proof. unfold registerBPM. destruct (negb _); reflexivity. Qed.

(** No path of the TXT parser writes b0rkedTracks: a whole parse leaves
    the flag as it found it. *)
Lemma txtParse_flag (assign_double : string -> result Q)
    (assign_bool : string -> result bool) (ss ss' : list string) (P P' : t) :
  txtParse assign_double assign_bool ss P = Ok (ss', P') ->
  Song.b0rkedTracks (m_song P') = Song.b0rkedTracks (m_song P).
Proof.
  unfold txtParse.
  destruct (txtParseFields _ _ ss P) as [[[ss1 line] P1]| |] eqn:Hf; try discriminate.
  cbn [mbind result_bind].
  destruct (txtParseNotes ss1 line _ _) as [[[ss2 P3] vocal1]| |] eqn:Hn; try discriminate.
  cbn [mbind result_bind]. intros [= <- <-].
  cbn. rewrite (txtParseNotes_song _ _ _ _ _ _ _ Hn), registerBPM_song.
  eapply txtParseFields_flag, Hf.
Qed.

End FlagFacts.

(** ** Overlapping notes *)




(** C2, as amended.  For a note line of the note loop whose begin is
    before the resolved end time: when the track has notes and the
    previous note, as the SLEEP workaround leaves it (a note that is no
    SLEEP is left as it is), begins after the new note, the new note is
    discarded with a warning on the output, parsing goes on with as many
    notes as before and the same resolved end time, and the song, so also
    its b0rkedTracks, is left as it was; when the track has no note, the
    fatal error is raised. *)
Theorem overlap_skips_note (line : string) (vocal : VocalTrack.t)
    (P P1 : SongParser.t) (n : Note.t) (ts : Z) :
  SongParser.reached vocal P ->
  SongParser.noteLine line = true ->
  SongParser.readNote (SongParser.chomp line) P = Ok (n, ts, P1) ->
  Qltb (Note.begin n) (SongParser.m_prevtime P) = true ->
  (forall before p,
      VocalTrack.notes vocal = before ++ [p] ->
      exists p1,
        SongParser.sleepWorkaround n p (VocalTrack.notes vocal) = Ok p1
        /\ (Note.type p <> Note.SLEEP -> p1 = p)
        /\ (Qle_bool (Note.begin p1) (Note.begin n) = false ->
            exists P' vocal',
              SongParser.txtParseNote line vocal P = Ok (true, P', vocal')
              /\ VocalTrack.notes vocal' = before ++ [p1]
              /\ length (VocalTrack.notes vocal') = length (VocalTrack.notes vocal)
              /\ SongParser.cout P' = SongParser.cout P ++ [SongParser.warning P]
              /\ SongParser.m_prevtime P' = SongParser.m_prevtime P
              /\ SongParser.m_song P' = SongParser.m_song P
              /\ Song.b0rkedTracks (SongParser.m_song P')
                 = Song.b0rkedTracks (SongParser.m_song P)))
  /\ (VocalTrack.notes vocal = [] ->
      SongParser.txtParseNote line vocal P
      = Throw (runtime_error "The first note has negative timestamp")).
Proof.
  intros Hreached Hline Hread Hlt.
  pose proof (ParseNoteFacts.reached_leading _ _ Hreached) as Hlead.
  destruct (NotesFacts.readNote_keeps _ _ _ _ _ Hread) as (Hsong & Htime & Hcout & _).
  rewrite (NotesFacts.txtParseNote_noteLine _ _ _ Hline), Hread. cbn [mbind result_bind].
  rewrite <- Htime in Hlt. split.
  - intros before p Hnotes. rewrite Hnotes in Hlead.
    destruct (NotesFacts.sleepWorkaround_defined n p before
                (NotesFacts.leading_sleep_guard _ _ Hlead)) as (p1 & Hp1 & _).
    rewrite <- Hnotes in Hp1. exists p1. split; [exact Hp1|]. split.
    + intros Hty. unfold SongParser.sleepWorkaround in Hp1.
      destruct (Note.type p); try contradiction; now inversion Hp1.
    + intros Hgt.
      rewrite (NotesFacts.placeNote_overlap_skipped n ts vocal P1 before p p1 Hlt Hnotes Hp1 Hgt).
      eexists _, _. split; [reflexivity|].
      cbn [VocalTrack.notes VocalTrack.set_notes SongParser.cout SongParser.set_cout
           SongParser.m_prevtime SongParser.set_m_prevts SongParser.m_song].
      unfold SongParser.warning. rewrite Hnotes, !length_app, Hsong, Hcout, Htime.
      repeat split.
  - intros Hnotes. now apply NotesFacts.placeNote_overlap_first.
Qed.

Lemma overlap_skips_note_witness :
  exists vocal P P' vocal',
    SongParser.reached vocal P
    /\ SongParser.txtParseNote ": 4 4 62 li" vocal P = Ok (true, P', vocal')
    /\ length (VocalTrack.notes vocal') = 1%nat
    /\ SongParser.cout P'
       = ["songparser/warning: Skipping overlapping note in songs/song.txt" +:+ String "010" ""].
Proof.
  pose proof (SongParser.reached_line ": 8 8 60 la" _ _ _ _ _
                (SongParser.reached_start Sample.parser60) eq_refl) as Hreached.
  destruct (overlap_skips_note ": 4 4 62 li" _ _ _ _ _ Hreached eq_refl eq_refl eq_refl)
    as [Hskip _].
  destruct (Hskip [] _ eq_refl) as (p1 & _ & Hsame & Hgt).
  rewrite (Hsame ltac:(discriminate)) in Hgt.
  destruct (Hgt eq_refl) as (P' & vocal' & H1 & _ & H2 & H3 & _).
  eexists _, _, P', vocal'. split; [exact Hreached|]. split; [exact H1|].
  split; [exact H2 | exact H3].
Defined.

(** Against C2 as it is stated.  Two note lines, the second beginning
    before the first begins: the second is discarded with the warning,
    and b0rkedTracks is false afterwards, not true. *)
Lemma overlap_skip_leaves_flag :
  exists P1 v1 P2 v2 p n ts P1',
    SongParser.txtParseNote ": 8 8 60 la" Sample.lead Sample.parser60 = Ok (true, P1, v1)
    /\ VocalTrack.notes v1 = [p]
    /\ SongParser.noteLine ": 4 4 62 li" = true
    /\ SongParser.readNote ": 4 4 62 li" P1 = Ok (n, ts, P1')
    /\ Qltb (Note.begin n) (SongParser.m_prevtime P1) = true
    /\ Qltb (Note.begin n) (Note.begin p) = true
    /\ SongParser.txtParseNote ": 4 4 62 li" v1 P1 = Ok (true, P2, v2)
    /\ VocalTrack.notes v2 = [p]
    /\ SongParser.cout P2 = [SongParser.warning P1]
    /\ Song.b0rkedTracks (SongParser.m_song P2) = false
    /\ Song.b0rkedTracks (SongParser.m_song P2) <> true.
Proof.
  repeat eexists; try (vm_compute; reflexivity). vm_compute. discriminate.
Qed.

(** ** SLEEP lines *)

(** C3.  For a SLEEP line: on a track without notes the SLEEP is not
    appended; whenever it is appended, its begin and its end are the
    resolved end time of before the line and the note before it has
    lineBreak set; and it is appended whenever the track has notes and
    the line does not begin before that end time. *)
Theorem sleep_is_normalized (line : string) (vocal : VocalTrack.t) (P : SongParser.t)
    (ts0 end0 : Z) :
  SongParser.noteLine line = true ->
  SongParser.scanNote (SongParser.chomp line) (SongParser.m_prevts P)
  = Ok (SongParser.Rest ts0 end0) ->
  (VocalTrack.notes vocal = [] ->
   forall more P' vocal',
     SongParser.txtParseNote line vocal P = Ok (more, P', vocal') ->
     VocalTrack.notes vocal' = [])
  /\ (forall more P' vocal',
        SongParser.txtParseNote line vocal P = Ok (more, P', vocal') ->
        length (VocalTrack.notes vocal') = S (length (VocalTrack.notes vocal)) ->
        exists before p s,
          VocalTrack.notes vocal' = before ++ [p; s]
          /\ Note.type s = Note.SLEEP
          /\ Note.begin s = SongParser.m_prevtime P
          /\ Note.end_ s = SongParser.m_prevtime P
          /\ Note.lineBreak p = true)
  /\ (VocalTrack.notes vocal <> [] ->
      forall n ts P1,
        SongParser.timeNote (SongParser.Rest ts0 end0) P = (n, ts, P1) ->
        Qltb (Note.begin n) (SongParser.m_prevtime P) = false ->
        exists P' vocal',
          SongParser.txtParseNote line vocal P = Ok (true, P', vocal')
          /\ length (VocalTrack.notes vocal') = S (length (VocalTrack.notes vocal))).
Proof.
  intros Hline Hscan.
  rewrite (NotesFacts.txtParseNote_noteLine _ _ _ Hline).
  unfold SongParser.readNote. rewrite Hscan. cbn [mbind result_bind].
  destruct (SongParser.timeNote (SongParser.Rest ts0 end0) P) as [[n ts] P1] eqn:Htime.
  destruct (NotesFacts.timeNote_keeps _ _ _ _ _ Htime) as (_ & Hprev & _).
  assert (Hs : Note.type n = Note.SLEEP) by (simpl in Htime; now inversion Htime).
  rewrite <- Hprev. split; [|split].
  - intros Hnotes more P' vocal' Hplace.
    destruct (NotesFacts.placeNote_sleep _ _ _ _ _ _ _ Hs Hplace)
      as [[_ H]|[[_ H]|(before & p & s & _ & H & _)]]; [assumption| |];
      rewrite Hnotes in H; simpl in H.
    + now apply length_zero_iff_nil.
    + discriminate.
  - intros more P' vocal' Hplace Hlen.
    destruct (NotesFacts.placeNote_sleep _ _ _ _ _ _ _ Hs Hplace)
      as [[H1 H2]|[[_ H]|(before & p & s & H1 & _ & H2 & H3 & H4 & H5)]].
    + rewrite H1, H2 in Hlen. discriminate.
    + lia.
    + exists before, p, s. auto.
  - intros Hne n' ts' P1' [= <- <- <-] Hge.
    destruct (NotesFacts.placeNote_in_order n ts vocal P1 Hge) as (P' & _ & _ & _ & Hplace).
    rewrite Hplace, Hs. cbn [Note.is_SLEEP].
    destruct (VocalTrack.notes vocal) as [|p before _] eqn:Hnotes using rev_ind;
      [contradiction|].
    rewrite last_snoc, NotesFacts.set_back_snoc.
    eexists _, _. split; [reflexivity|].
    cbn [VocalTrack.notes VocalTrack.set_notes]. rewrite !length_app. simpl. lia.
Qed.

Lemma sleep_is_normalized_witness :
  exists P' vocal' p s,
    SongParser.txtParseNote "- 10" (VocalTrack.set_notes [Sample.la_0_2] Sample.lead)
      (SongParser.set_m_prevtime 2 Sample.parser60) = Ok (true, P', vocal')
    /\ VocalTrack.notes vocal' = [p; s]
    /\ Note.begin s = 2%Q /\ Note.end_ s = 2%Q /\ Note.lineBreak p = true.
Proof.
  destruct (sleep_is_normalized "- 10" (VocalTrack.set_notes [Sample.la_0_2] Sample.lead)
              (SongParser.set_m_prevtime 2 Sample.parser60) 10 10 eq_refl eq_refl)
    as (_ & Happended & Hin_order).
  destruct (Hin_order ltac:(discriminate) _ _ _ eq_refl eq_refl)
    as (P' & vocal' & Hrun & Hlen).
  destruct (Happended _ _ _ Hrun Hlen) as (before & p & s & Hnotes & _ & Hb & He & Hlb).
  exists P', vocal', p, s. split; [exact Hrun|].
  assert (before = []) as ->.
  { rewrite Hnotes, length_app in Hlen. simpl in Hlen.
    destruct before; [reflexivity | simpl in Hlen; lia]. }
  auto.
Defined.

(** ** Relative mode *)

Module RelativeFacts.
Import SongParser.

Section Ticks.
Variable assign_double : string -> result Q.
Variable assign_bool : string -> result bool.

(** The header writes neither the shift nor the tick read last. *)
Lemma txtParseField_ticks (line : string) (P P' : t) (more : bool) :
  txtParseField assign_double assign_bool line P = Ok (more, P') ->
  m_relativeShift P' = m_relativeShift P /\ m_prevts P' = m_prevts P.
Proof.
  unfold txtParseField. intros H.
  repeat match type of H with
         | context [if ?b then _ else _] => destruct b
         | context [String.index ?n ?a ?b] => destruct (String.index n a b)
         | context [substr ?v ?p] => destruct (substr v p)
         | context [assign_double ?v] => destruct (assign_double v)
         | context [assign_bool ?v] => destruct (assign_bool v)
         | _ => progress cbn [mbind result_bind] in H
         end;
    try discriminate; injection H as <- <-; split; reflexivity.
Qed.

Lemma txtParseFields_ticks (ss ss' : list string) (line : string) (P P' : t) :
  txtParseFields assign_double assign_bool ss P = Ok (ss', line, P') ->
  m_relativeShift P' = m_relativeShift P /\ m_prevts P' = m_prevts P.
Proof.
  revert P. induction ss as [|l ss IH]; intros P; simpl.
  - now intros [= <- <- <-].
  - destruct (txtParseField assign_double assign_bool l P) as [[more P1]| |] eqn:Hf;
      try discriminate. cbn [mbind result_bind].
    destruct (txtParseField_ticks _ _ _ _ Hf) as [H1 H2].
    destruct more.
    + intros H. destruct (IH _ H) as [H3 H4]. split; congruence.
    + intros [= <- <- <-]. split; assumption.
Qed.

End Ticks.

(** A line that is no note line and lets the loop go on leaves the
    track, the shift and the tick read last. *)
Lemma txtParseNote_other_line (line : string) (vocal vocal' : VocalTrack.t) (P P' : t) :
  noteLine line = false ->
  txtParseNote line vocal P = Ok (true, P', vocal') ->
  vocal' = vocal /\ m_relativeShift P' = m_relativeShift P /\ m_prevts P' = m_prevts P
  /\ m_relative P' = m_relative P.
Proof.
  unfold noteLine, txtParseNote.
  destruct (_ || _); [now intros _ [= <- <-]|].
  destruct (front_is "#" line); [discriminate|].
  destruct (front_is "E" _); [discriminate|].
  destruct (front_is "B" _).
  { intros _. destruct (_ ≫= _) as [[ts bpm]|]; [|discriminate].
    intros [= <- <-]. repeat split; reflexivity. }
  destruct (front_is "P" _); [now intros _ [= <- <-]|].
  discriminate.
Qed.

(** Before the first note line the track has no note, no shift has
    accumulated and no tick has been read. *)
Lemma beforeFirstNote_fresh (vocal : VocalTrack.t) (P : t) :
  beforeFirstNote vocal P ->
  VocalTrack.notes vocal = [] /\ m_relativeShift P = 0 /\ m_prevts P = 0.
Proof.
  induction 1 as [ad ab s ss ss1 line P1 Hf|line vocal vocal' P P' _ IH Hline Hstep].
  - destruct (txtParseFields_ticks _ _ _ _ _ _ _ Hf) as [H1 H2].
    unfold registerBPM. destruct (negb _); simpl; rewrite ?H1, ?H2; auto.
  - destruct (txtParseNote_other_line _ _ _ _ _ Hline Hstep) as (-> & -> & -> & _).
    exact IH.
Qed.

(** In relative mode, a note line read while the track has no note sets
    m_relativeShift to the tick of the line after the shift of before
    the line was added to it, modulo 2^32, the tick at which the note of
    the line begins. *)
Lemma relativeShift_first_in_track (line : string) (vocal vocal' : VocalTrack.t)
    (P P' : SongParser.t) (tok : SongParser.NoteLine) (more : bool) :
  SongParser.m_relative P = true ->
  VocalTrack.notes vocal = [] ->
  SongParser.noteLine line = true ->
  SongParser.scanNote (SongParser.chomp line) (SongParser.m_prevts P) = Ok tok ->
  SongParser.txtParseNote line vocal P = Ok (more, P', vocal') ->
  SongParser.m_relativeShift P'
  = uadd (SongParser.rawTick tok) (SongParser.m_relativeShift P)
  /\ SongParser.m_prevts P' = SongParser.m_relativeShift P'
  /\ (exists n ts P1,
        SongParser.readNote (SongParser.chomp line) P = Ok (n, ts, P1)
        /\ ts = SongParser.m_relativeShift P'
        /\ Note.begin n = SongParser.tsTime P (SongParser.m_relativeShift P')).
Proof.
  intros Hrel Hnotes Hline Hscan.
  rewrite (NotesFacts.txtParseNote_noteLine _ _ _ Hline).
  unfold SongParser.readNote. rewrite Hscan. cbn [mbind result_bind].
  destruct (SongParser.timeNote tok P) as [[n ts] P1] eqn:Htime. intros Hplace.
  destruct (NotesFacts.timeNote_keeps _ _ _ _ _ Htime) as (_ & _ & _ & Hrel1).
  destruct (NotesFacts.placeNote_shift _ _ _ _ _ _ _ Hplace) as [Hts Hshift].
  rewrite Hrel1, Hrel, Hnotes in Hshift. cbn [andb SongParser.is_nil] in Hshift.
  assert (Hraw : ts = uadd (SongParser.rawTick tok) (SongParser.m_relativeShift P)).
  { destruct tok; simpl in Htime; rewrite Hrel in Htime; now inversion Htime. }
  rewrite Hshift, Hts, Hraw. split; [reflexivity|]. split; [reflexivity|].
  eexists n, _, P1. split; [reflexivity|]. split; [reflexivity|]. rewrite <- Hraw.
  destruct tok; simpl in Htime; rewrite Hrel in Htime; now inversion Htime.
Qed.

End RelativeFacts.

(** C5.  In relative mode, on the very first note line of a track, be it
    a sung note or a SLEEP, m_relativeShift is set to the tick of the
    line as it is written: no shift has accumulated before that line, so
    the tick that the code stores, after it has added the shift of before
    the line, is the raw tick; the timestamps of the line itself are those
    written, and the seed is the tick read last. *)
Theorem relativeShift_seeded_from_raw_tick (line : string) (vocal vocal' : VocalTrack.t)
    (P P' : SongParser.t) (tok : SongParser.NoteLine) (more : bool) :
  beforeFirstNote vocal P ->
  SongParser.m_relative P = true ->
  SongParser.noteLine line = true ->
  SongParser.scanNote (SongParser.chomp line) (SongParser.m_prevts P) = Ok tok ->
  SongParser.txtParseNote line vocal P = Ok (more, P', vocal') ->
  SongParser.m_relativeShift P' = SongParser.rawTick tok
  /\ SongParser.m_prevts P' = SongParser.rawTick tok
  /\ exists n ts P1,
       SongParser.readNote (SongParser.chomp line) P = Ok (n, ts, P1)
       /\ ts = SongParser.rawTick tok
       /\ Note.begin n = SongParser.tsTime P (SongParser.rawTick tok).
Proof.
  intros Hfirst Hrel Hline Hscan Hstep.
  destruct (RelativeFacts.beforeFirstNote_fresh _ _ Hfirst) as (Hnotes & Hshift & Hprev).
  destruct (RelativeFacts.relativeShift_first_in_track _ _ _ _ _ _ _
              Hrel Hnotes Hline Hscan Hstep) as (Hseed & Hts & n & ts & P1 & Hr & Hn & Hb).
  assert (Hraw : SongParser.m_relativeShift P' = SongParser.rawTick tok).
  { rewrite Hseed, Hshift. unfold uadd. rewrite Z.add_0_r.
    apply Z.mod_small. eapply scanNote_rawTick_range; [|exact Hscan].
    rewrite Hprev. lia. }
  rewrite Hraw in *. split; [reflexivity|]. split; [exact Hts|].
  exists n, ts, P1. auto.
Qed.

Lemma relativeShift_seeded_from_raw_tick_witness :
  exists P vocal,
    beforeFirstNote vocal P
    /\ SongParser.m_relative P = true
    /\ (exists P' vocal',
          SongParser.txtParseNote "- 5 10" vocal P = Ok (true, P', vocal')
          /\ SongParser.m_relativeShift P' = 5)
    /\ (exists P' vocal',
          SongParser.txtParseNote ": 6 2 60 la" vocal P = Ok (true, P', vocal')
          /\ SongParser.m_relativeShift P' = 6).
Proof.
  pose proof (beforeFirstNote_line "P 1" _ _ _ _
                (beforeFirstNote_start Sample.assign_decimal Sample.assign_flag Sample.song
                   ["#RELATIVE:1"; "#BPM:60"; "P 1"] _ _ _ eq_refl)
                eq_refl eq_refl) as Hfirst.
  eexists _, _. split; [exact Hfirst|]. split; [reflexivity|]. split.
  - eexists _, _. split; [reflexivity|].
    exact (proj1 (relativeShift_seeded_from_raw_tick "- 5 10" _ _ _ _ _ true
                    Hfirst eq_refl eq_refl eq_refl eq_refl)).
  - eexists _, _. split; [reflexivity|].
    exact (proj1 (relativeShift_seeded_from_raw_tick ": 6 2 60 la" _ _ _ _ _ true
                    Hfirst eq_refl eq_refl eq_refl eq_refl)).
Defined.

(** The first sung note after a leading SLEEP is not the first note
    line: the SLEEP line, written with tick 5, has seeded the shift with
    5 and was not kept, so the track is still without notes on the next
    line, written with tick 6, and the seed is written again, now with
    the tick after the shift was added, 11. *)
Remark relativeShift_after_leading_sleep :
  exists P1 v1 P2 v2 n,
    SongParser.txtParseNote "- 5 10" Sample.lead Sample.relative60 = Ok (true, P1, v1)
    /\ VocalTrack.notes v1 = []
    /\ SongParser.m_relativeShift P1 = 5
    /\ SongParser.txtParseNote ": 6 2 60 la" v1 P1 = Ok (true, P2, v2)
    /\ SongParser.m_relativeShift P2 = 11
    /\ VocalTrack.notes v2 = [n]
    /\ Note.begin n = SongParser.tsTime P2 11.
Proof. repeat eexists; vm_compute; reflexivity. Qed.

(** ** The look-back of the SLEEP workaround *)

(** C6.  On every track and parser that the note loop reaches, the
    SLEEP workaround finds the note it looks back to: a last note that is
    a SLEEP has a note before it, a sequence of one note does not hold a
    SLEEP, and no line makes [txtParseNote] access a note that is not
    there. *)
Theorem lookback_in_range (vocal : VocalTrack.t) (P : SongParser.t) :
  SongParser.reached vocal P ->
  (forall p, last (VocalTrack.notes vocal) = Some p -> Note.type p = Note.SLEEP ->
     exists p2, rev (VocalTrack.notes vocal) !! 1%nat = Some p2)
  /\ (forall p, VocalTrack.notes vocal = [p] -> Note.type p <> Note.SLEEP)
  /\ (forall line, SongParser.txtParseNote line vocal P <> Undefined).
Proof.
  intros Hreached.
  pose proof (ParseNoteFacts.reached_leading _ _ Hreached) as Hlead.
  split; [|split].
  - intros p Hlast Hs.
    destruct (NotesFacts.last_Some_snoc _ _ Hlast) as [before Hnotes].
    rewrite Hnotes in *. rewrite NotesFacts.two_back_snoc.
    pose proof (NotesFacts.leading_sleep_guard _ _ Hlead Hs) as Hne.
    destruct before as [|q before' _] using rev_ind; [contradiction|].
    rewrite last_snoc. eauto.
  - intros p Hnotes Hs. rewrite Hnotes in Hlead. simpl in Hlead.
    rewrite Hs in Hlead. discriminate.
  - intros line. now apply ParseNoteFacts.txtParseNote_defined.
Qed.

Lemma lookback_in_range_witness :
  exists vocal P p2 s,
    SongParser.reached vocal P
    /\ VocalTrack.notes vocal = [p2; s]
    /\ Note.type s = Note.SLEEP
    /\ SongParser.txtParseNote ": 4 1 60 x" vocal P <> Undefined.
Proof.
  pose proof (SongParser.reached_line "- 8" _ _ _ _ _
                (SongParser.reached_line ": 0 8 60 la" _ _ _ _ _
                   (SongParser.reached_start Sample.parser60) eq_refl) eq_refl) as H.
  eexists _, _, _, _. split; [exact H|].
  split; [reflexivity|]. split; [reflexivity|].
  exact (proj2 (proj2 (lookback_in_range _ _ H)) ": 4 1 60 x").
Defined.

(** The invariant is what keeps the access in range: on a track that
    holds one SLEEP only, which the note loop never builds, the same line
    looks back past the first note. *)
Remark lookback_needs_invariant :
  SongParser.txtParseNote ": 4 1 60 x"
    (VocalTrack.set_notes
       [{| Note.type := Note.SLEEP; Note.begin := 2; Note.end_ := 2; Note.note := 0;
           Note.notePrev := 0; Note.syllable := ""; Note.lineBreak := false |}]
       Sample.lead)
    (SongParser.set_m_prevtime 2 Sample.parser60)
  = Undefined.
Proof. reflexivity. Qed.

(** ** The end of the note stream *)

Lemma removelast_snoc {A : Type} (l : list A) (x : A) : removelast (l ++ [x]) = l.
Proof. rewrite removelast_app by discriminate. simpl. apply app_nil_r. Qed.

(** C9.  When the note stream is over: a last note that is no SLEEP and
    begins when it ends is removed from the sequence put in the song;
    otherwise the sequence is put in the song as it is. *)
Theorem txtParse_drops_terminator (assign_double : string -> result Q)
    (assign_bool : string -> result bool)
    (ss ss1 ss2 : list string) (line : string) (P P1 P3 : SongParser.t)
    (vocal : VocalTrack.t) :
  SongParser.txtParseFields assign_double assign_bool ss P = Ok (ss1, line, P1) ->
  SongParser.txtParseNotes ss1 line (VocalTrack.make TrackName.LEAD_VOCAL)
    (SongParser.registerBPM P1) = Ok (ss2, P3, vocal) ->
  exists P' final,
    SongParser.txtParse assign_double assign_bool ss P = Ok (ss2, P')
    /\ StdMap.find TrackName.LEAD_VOCAL (Song.vocalTracks (SongParser.m_song P')) = Some final
    /\ (forall before b,
          VocalTrack.notes vocal = before ++ [b] ->
          Note.type b <> Note.SLEEP -> (Note.begin b == Note.end_ b)%Q ->
          VocalTrack.notes final = before)
    /\ (forall before b,
          VocalTrack.notes vocal = before ++ [b] ->
          Note.type b = Note.SLEEP \/ ~ (Note.begin b == Note.end_ b)%Q ->
          VocalTrack.notes final = before ++ [b])
    /\ (VocalTrack.notes vocal = [] -> VocalTrack.notes final = []).
Proof.
  intros Hfields Hnotes. unfold SongParser.txtParse.
  rewrite Hfields. cbn [mbind result_bind]. rewrite Hnotes. cbn [mbind result_bind].
  eexists _, _. split; [reflexivity|]. split; [apply StdMapFacts.find_replace|].
  unfold SongParser.dropTerminator. split; [|split].
  - intros before b Hv Hty Heq. rewrite Hv, last_snoc.
    apply Qeq_bool_iff in Heq. rewrite Heq.
    destruct (Note.type b); try contradiction; simpl; now rewrite ?Hv, removelast_snoc.
  - intros before b Hv Hcase. rewrite Hv, last_snoc.
    destruct Hcase as [Hs|Hne].
    + rewrite Hs. simpl. exact Hv.
    + destruct (Qeq_bool (Note.begin b) (Note.end_ b)) eqn:E.
      * apply Qeq_bool_iff in E. contradiction.
      * rewrite andb_false_r. exact Hv.
  - intros Hv. rewrite Hv. simpl. exact Hv.
Qed.

Lemma txtParse_drops_terminator_witness :
  exists P' final la,
    SongParser.txtParse Sample.assign_decimal Sample.assign_flag
      ["#TITLE:Foo"; "#ARTIST:Bar"; "#BPM:60"; ": 0 8 60 la"; ": 8 0 0"; "E"]
      (SongParser.make Sample.song) = Ok ([], P')
    /\ StdMap.find TrackName.LEAD_VOCAL (Song.vocalTracks (SongParser.m_song P')) = Some final
    /\ VocalTrack.notes final = [la].
Proof.
  destruct (txtParse_drops_terminator Sample.assign_decimal Sample.assign_flag
              ["#TITLE:Foo"; "#ARTIST:Bar"; "#BPM:60"; ": 0 8 60 la"; ": 8 0 0"; "E"]
              _ _ _ (SongParser.make Sample.song) _ _ _ eq_refl eq_refl)
    as (P' & final & Hrun & Hfind & Hdrop & _).
  eexists P', final, _. split; [exact Hrun|]. split; [exact Hfind|].
  eapply (Hdrop [_]); [reflexivity | discriminate | reflexivity].
Defined.

(** ** A whole file *)

(** An overlap that is trimmed, a SLEEP that is normalized, the end
    marker, and a terminating zero-length note that is dropped. *)
Example parsed_song :
  Sample.parsed ["#TITLE:Foo"; "#ARTIST:Bar"; "#BPM:60"; "";
          ": 0 8 60 la"; ": 4 4 62 li"; "- 10"; ": 12 2 60 lu"; ": 14 0 0"; "E"; ": 20 1 0 no"]
  = Ok [(Note.NORMAL, 0%Q, 1%Q, 60, "la", false);
        (Note.NORMAL, 1%Q, 2%Q, 62, "li", true);
        (Note.SLEEP, 2%Q, 2%Q, 0, "", false);
        (Note.NORMAL, 3%Q, (7 # 2)%Q, 60, "lu", false)].
Proof. vm_compute. reflexivity. Qed.

Example parsed_relative :
  Sample.parsed ["#TITLE:Foo"; "#ARTIST:Bar"; "#BPM:60"; "#RELATIVE:1";
          ": 0 4 60 la"; "- 6 8"; ": 0 4 62 li"; "E"]
  = Ok [(Note.NORMAL, 0%Q, 1%Q, 60, "la", true);
        (Note.SLEEP, 1%Q, 1%Q, 0, "", false);
        (Note.NORMAL, 2%Q, 3%Q, 62, "li", false)].
Proof. vm_compute. reflexivity. Qed.

(** Without a BPM every tick is at time 0 and the only note is dropped as
    a terminator; only the header parse asks for the artist. *)
Example parsed_without_artist :
  Sample.parsed ["#TITLE:Foo"; ": 0 8 60 la"; "E"]
  = Ok []
  /\ SongParser.txtParseHeader Sample.assign_decimal Sample.assign_flag
       ["#TITLE:Foo"; ": 0 8 60 la"; "E"] (SongParser.make Sample.song)
     = Throw (runtime_error "Required header fields missing").
Proof. split; vm_compute; reflexivity. Qed.

Example parsed_key_in_notes :
  Sample.parsed ["#TITLE:Foo"; "#ARTIST:Bar"; "#BPM:60"; ": 0 8 60 la"; "#GAP:100"]
  = Throw (runtime_error "Key found in the middle of notes").
Proof. vm_compute. reflexivity. Qed.

(** * Further properties *)

(** ** More on the track map *)

Module TrackMapFacts.
Section Map.
Context {V : Type}.
Implicit Types (m : StdMap.t V) (k : string) (v : V).

Lemma find_erase_ne k k' m :
  k <> k' -> StdMap.find k' (StdMap.erase k m) = StdMap.find k' m.
Proof.
  intros Hne. induction m as [|[k0 v0] m IH]; simpl; [reflexivity|].
  destruct (String.eqb_spec k k0) as [->|Hk].
  - rewrite IH. destruct (String.eqb_spec k' k0); [congruence | reflexivity].
  - simpl. now rewrite IH.
Qed.

Lemma find_insert_ne k k' v m :
  k <> k' -> StdMap.find k' (StdMap.insert k v m) = StdMap.find k' m.
Proof.
  intros Hne. induction m as [|[k0 v0] m IH]; simpl.
  - destruct (String.eqb_spec k' k); [congruence | reflexivity].
  - destruct (String.eqb_spec k k0) as [->|Hk]; [reflexivity|].
    destruct (String.ltb k k0); simpl.
    + destruct (String.eqb_spec k' k); [congruence | reflexivity].
    + now rewrite IH.
Qed.

Lemma erase_fresh k m : StdMap.find k m = None -> StdMap.erase k m = m.
Proof.
  induction m as [|[k0 v0] m IH]; simpl; [reflexivity|].
  destruct (String.eqb k k0); [discriminate|]. intros H. now rewrite IH.
Qed.

Lemma erase_insert_fresh k v m :
  StdMap.find k m = None -> StdMap.erase k (StdMap.insert k v m) = m.
Proof.
  induction m as [|[k0 v0] m IH]; simpl.
  - intros _. now rewrite String.eqb_refl.
  - destruct (String.eqb k k0) eqn:E; [discriminate|]. intros H.
    destruct (String.ltb k k0); simpl.
    + rewrite String.eqb_refl, E. now rewrite erase_fresh.
    + rewrite E. now rewrite IH.
Qed.

Lemma keys_erase_iff k k' m :
  In k' (StdMap.keys (StdMap.erase k m)) <-> k' <> k /\ In k' (StdMap.keys m).
Proof.
  induction m as [|[k0 v0] m IH]; simpl; [tauto|].
  destruct (String.eqb_spec k k0) as [->|Hk]; simpl; rewrite IH.
  - split; [tauto|]. intros [Hne [->|H]]; [contradiction | tauto].
  - split; [intros [->|[? ?]]; auto | tauto].
Qed.

Lemma keys_insert_iff k k' v m :
  In k' (StdMap.keys (StdMap.insert k v m)) <-> k' = k \/ In k' (StdMap.keys m).
Proof.
  induction m as [|[k0 v0] m IH]; simpl; [split; intros [->|H]; auto|].
  destruct (String.eqb_spec k k0) as [->|Hk]; simpl.
  - split; [tauto|]. intros [->|H]; auto.
  - destruct (String.ltb k k0); simpl; [|rewrite IH]; split; intros H;
      repeat destruct H as [H|H]; subst; auto.
Qed.

Lemma ltb_irrefl k : String.ltb k k = false.
Proof.
  unfold String.ltb.
  pose proof (proj2 (OrderedTypeEx.String_as_OT.cmp_eq k k) eq_refl) as H.
  unfold OrderedTypeEx.String_as_OT.cmp in H. now rewrite H.
Qed.

Lemma sorted_NoDup m : StdMap.sorted m -> NoDup (StdMap.keys m).
Proof.
  unfold StdMap.sorted. induction 1 as [|k ks Hs IH Hall]; [constructor|].
  apply NoDup_cons_2; [|exact IH].
  intros Hin. apply list_elem_of_In in Hin.
  rewrite List.Forall_forall in Hall. specialize (Hall _ Hin).
  rewrite ltb_irrefl in Hall. discriminate.
Qed.

End Map.
End TrackMapFacts.

(** X1.  A track put in with insertVocalTrack is the one getVocalTrack
    returns for that name, whatever was stored before; the tracks under
    the other names stay as they were, and the song has vocals. *)
Theorem insertVocalTrack_getVocalTrack (s : Song.t) (name : string) (track : VocalTrack.t) :
  Song.getVocalTrack (Song.insertVocalTrack name track s) name = track
  /\ (forall other, other <> name ->
        StdMap.find other (Song.vocalTracks (Song.insertVocalTrack name track s))
        = StdMap.find other (Song.vocalTracks s))
  /\ Song.hasVocals (Song.insertVocalTrack name track s) = true.
Proof.
  pose proof (StdMapFacts.find_replace name track (Song.vocalTracks s)) as Hfind.
  split; [|split].
  - unfold Song.getVocalTrack. cbn [Song.insertVocalTrack Song.vocalTracks Song.set_vocalTracks].
    now rewrite Hfind.
  - intros other Hne. cbn [Song.insertVocalTrack Song.vocalTracks Song.set_vocalTracks].
    rewrite TrackMapFacts.find_insert_ne, TrackMapFacts.find_erase_ne; auto.
  - unfold Song.hasVocals. cbn [Song.insertVocalTrack Song.vocalTracks Song.set_vocalTracks].
    destruct (StdMap.insert _ _ _); [discriminate | reflexivity].
Qed.

(** X2.  insertVocalTrack replaces: putting a second track under a name
    gives the song that putting only the second one gives. *)
Theorem insertVocalTrack_replaces (s : Song.t) (name : string) (first second : VocalTrack.t) :
  Song.insertVocalTrack name second (Song.insertVocalTrack name first s)
  = Song.insertVocalTrack name second s.
Proof.
  unfold Song.insertVocalTrack.
  cbn [Song.vocalTracks Song.set_vocalTracks].
  rewrite TrackMapFacts.erase_insert_fresh by apply StdMapFacts.find_erase.
  reflexivity.
Qed.

(** X3.  On a track map in the order of its keys, insertVocalTrack keeps
    the order, the names that getVocalTrackNames lists afterwards are the
    new name and the names of before, and no name is listed twice. *)
Theorem insertVocalTrack_names (s : Song.t) (name : string) (track : VocalTrack.t) :
  StdMap.sorted (Song.vocalTracks s) ->
  StdMap.sorted (Song.vocalTracks (Song.insertVocalTrack name track s))
  /\ (forall k, In k (Song.getVocalTrackNames (Song.insertVocalTrack name track s))
                <-> k = name \/ In k (Song.getVocalTrackNames s))
  /\ NoDup (Song.getVocalTrackNames (Song.insertVocalTrack name track s)).
Proof.
  intros Hs.
  assert (Hs' : StdMap.sorted (Song.vocalTracks (Song.insertVocalTrack name track s)))
    by now apply StdMapFacts.insert_sorted, StdMapFacts.erase_sorted.
  split; [exact Hs'|]. split.
  - intros k. unfold Song.getVocalTrackNames.
    cbn [Song.insertVocalTrack Song.vocalTracks Song.set_vocalTracks].
    rewrite TrackMapFacts.keys_insert_iff, TrackMapFacts.keys_erase_iff.
    destruct (String.eqb_spec k name); tauto.
  - now apply TrackMapFacts.sorted_NoDup.
Qed.

Lemma insertVocalTrack_names_witness :
  Song.getVocalTrackNames
    (Song.insertVocalTrack TrackName.LEAD_VOCAL Sample.lead
       (Song.insertVocalTrack TrackName.HARMONIC_1 (VocalTrack.make TrackName.HARMONIC_1)
          (Song.insertVocalTrack TrackName.LEAD_VOCAL Sample.lead Sample.song)))
  = [TrackName.HARMONIC_1; TrackName.LEAD_VOCAL]
  /\ NoDup (Song.getVocalTrackNames
              (Song.insertVocalTrack TrackName.LEAD_VOCAL Sample.lead
                 (Song.insertVocalTrack TrackName.HARMONIC_1
                    (VocalTrack.make TrackName.HARMONIC_1)
                    (Song.insertVocalTrack TrackName.LEAD_VOCAL Sample.lead Sample.song)))).
Proof.
  split; [reflexivity|].
  apply (insertVocalTrack_names _ TrackName.LEAD_VOCAL Sample.lead).
  unfold StdMap.sorted. simpl. repeat constructor.
Defined.

(** ** Header lines *)

Module FieldFacts.

Lemma substring_all (s : string) : String.substring 0 (String.length s) s = s.
Proof. induction s as [|c s IH]; simpl; [reflexivity | now rewrite IH]. Qed.

Lemma substring_prefix (a b : string) :
  String.substring 0 (String.length a) (a +:+ b) = a.
Proof.
  induction a as [|c a IH]; simpl; [now destruct b | now rewrite IH].
Qed.

Lemma substring_after (a b : string) (c : ascii) (m : nat) :
  String.substring (S (String.length a)) m (a +:+ String c b) = String.substring 0 m b.
Proof. induction a as [|c0 a IH]; simpl; [reflexivity | exact IH]. Qed.

Lemma length_append (a b : string) :
  String.length (a +:+ b) = (String.length a + String.length b)%nat.
Proof. induction a as [|c a IH]; simpl; [reflexivity | now rewrite IH]. Qed.

(** The first colon of [key ++ ":" ++ value] is the one after a key
    that holds none. *)
Lemma index_step (c : ascii) (s : string) :
  String.index 0 ":" (String c s)
  = if Ascii.eqb c ":" then Some O else S <$> String.index 0 ":" s.
Proof.
  cbn [String.index String.prefix].
  destruct (ascii_dec ":" c) as [<-|Hc].
  - now destruct s.
  - destruct (Ascii.eqb_spec c ":") as [->|_]; [contradiction|].
    now destruct (String.index 0 ":" s).
Qed.

Lemma index_colon (key value : string) :
  String.index 0 ":" key = None ->
  String.index 0 ":" (key +:+ String ":" value) = Some (String.length key).
Proof.
  induction key as [|c key IH].
  - intros _. change (EmptyString +:+ String ":" value) with (String ":" value).
    now rewrite index_step.
  - change (String c key +:+ String ":" value) with (String c (key +:+ String ":" value)).
    rewrite !index_step. destruct (Ascii.eqb c ":"); [discriminate|].
    destruct (String.index 0 ":" key); [discriminate|]. intros _.
    now rewrite IH.
Qed.

(** How txtParseField cuts a line written as key, colon and value. *)
Lemma fieldLine_parts (key value : string) :
  String.index 0 ":" key = None ->
  String.eqb (fieldLine key value) EmptyString = false
  /\ SongParser.front_is "#" (fieldLine key value) = true
  /\ String.index 0 ":" (fieldLine key value) = Some (S (String.length key))
  /\ String.substring 1 (S (String.length key) - 1) (fieldLine key value) = key
  /\ String.substring (S (String.length key) + 1)
       (String.length (fieldLine key value) - (S (String.length key) + 1))
       (fieldLine key value) = value.
Proof.
  intros Hkey. unfold fieldLine. repeat split.
  - rewrite index_step. cbn [Ascii.eqb Bool.eqb].
    now rewrite (index_colon _ _ Hkey).
  - simpl. rewrite Nat.sub_0_r. apply substring_prefix.
  - cbn [String.length String.substring Nat.add]. rewrite Nat.add_1_r.
    cbn [String.substring]. rewrite length_append. cbn [String.length Nat.sub].
    replace (String.length key + S (String.length value) - S (String.length key))%nat
      with (String.length value) by lia.
    rewrite substring_after. apply substring_all.
Qed.

Lemma trim_left_head (s t : string) (c : ascii) :
  trim_left s = String c t -> isspace c = false.
Proof.
  induction s as [|c0 s IH]; simpl; [discriminate|].
  destruct (isspace c0) eqn:E; [exact IH|]. now intros [= <- _].
Qed.

Lemma trim_right_head (s t : string) (c : ascii) :
  trim_right s = String c t -> exists s', s = String c s'.
Proof.
  destruct s as [|c0 s]; simpl; [discriminate|].
  destruct (trim_right s); [destruct (isspace c0); [discriminate|]|];
    intros [= <- _]; eauto.
Qed.

(** A trimmed text that is not empty starts with a character that is
    no space. *)
Lemma trim_copy_head (s t : string) (c : ascii) :
  trim_copy s = String c t -> isspace c = false.
Proof.
  unfold trim_copy. intros H.
  destruct (trim_right_head _ _ _ H) as [s' Hs'].
  eapply trim_left_head, Hs'.
Qed.

(** So the second strip of the spaces finds nothing to strip. *)
Lemma unspaced_trimmed (s : string) :
  trim_copy s <> EmptyString ->
  substr (trim_copy s) (find_first_not_of [" "%char] (trim_copy s)) = Ok (trim_copy s).
Proof.
  destruct (trim_copy s) as [|c t] eqn:E; [contradiction|]. intros _.
  pose proof (trim_copy_head _ _ _ E) as Hc.
  assert (Hsp : Ascii.eqb c " " = false).
  { destruct (Ascii.eqb_spec c " ") as [->|]; [discriminate | reflexivity]. }
  cbn [find_first_not_of existsb]. rewrite Hsp. cbn [orb substr Nat.leb].
  now rewrite Nat.sub_0_r, substring_all.
Qed.

End FieldFacts.

Module TitleFacts.

(** What [find_first_not_of] finds: the characters before the position
    are all in the set, the one at the position is not. *)
Lemma find_first_not_of_None (chars : list ascii) (s : string) :
  find_first_not_of chars s = None
  <-> forallb (fun c => existsb (Ascii.eqb c) chars) (list_ascii_of_string s) = true.
Proof.
  induction s as [|c s IH]; simpl; [tauto|].
  destruct (existsb (Ascii.eqb c) chars); simpl.
  - rewrite <- IH. destruct (find_first_not_of chars s); simpl; split; congruence.
  - split; discriminate.
Qed.

Lemma find_first_not_of_Some (chars : list ascii) (s : string) (n : nat) :
  find_first_not_of chars s = Some n ->
  exists skipped c kept,
    s = skipped +:+ String c kept
    /\ String.length skipped = n
    /\ forallb (fun c => existsb (Ascii.eqb c) chars) (list_ascii_of_string skipped) = true
    /\ existsb (Ascii.eqb c) chars = false
    /\ substr s (Some n) = Ok (String c kept).
Proof.
  revert n. induction s as [|c s IH]; simpl; [discriminate|]. intros n.
  destruct (existsb (Ascii.eqb c) chars) eqn:E.
  - destruct (find_first_not_of chars s) as [m|] eqn:Ef; [|discriminate].
    intros [= <-]. destruct (IH m eq_refl) as (skipped & c' & kept & -> & Hlen & Hall & Hc & Hsub).
    exists (String c skipped), c', kept. simpl. rewrite E, Hall, Hlen.
    repeat split; assumption.
  - intros [= <-]. exists EmptyString, c, s. simpl.
    repeat split; try assumption.
    unfold substr. cbn [Nat.leb String.length Nat.sub String.substring].
    now rewrite FieldFacts.substring_all.
Qed.

Lemma forallb_pointwise {A : Type} (f g : A -> bool) (l : list A) :
  (forall a, f a = g a) -> forallb f l = forallb g l.
Proof. intros H. induction l as [|a l IH]; simpl; [reflexivity | now rewrite H, IH]. Qed.

End TitleFacts.

(** X4.  A header line whose key, once trimmed, is none of the known
    keys is accepted and changes nothing, whatever its value holds and
    whatever the conversions accept. *)
Theorem txtParseField_unknown_key (assign_double : string -> result Q)
    (assign_bool : string -> result bool) (key value : string) (P : SongParser.t) :
  String.index 0 ":" key = None ->
  ~ In (trim_copy key) knownKeys ->
  SongParser.txtParseField assign_double assign_bool (fieldLine key value) P = Ok (true, P).
Proof.
  intros Hkey Hunknown.
  destruct (FieldFacts.fieldLine_parts key value Hkey) as (Hne & Hfront & Hidx & Hk & Hv).
  unfold SongParser.txtParseField. rewrite Hne, Hfront, Hidx, Hk, Hv. cbn [negb].
  destruct (String.eqb (trim_copy value) EmptyString); [reflexivity|].
  repeat match goal with
         | |- context [String.eqb (trim_copy key) ?k] =>
             destruct (String.eqb_spec (trim_copy key) k) as [E|_];
             [exfalso; apply Hunknown; rewrite E; simpl; tauto|]
         end.
  reflexivity.
Qed.

Lemma txtParseField_unknown_key_witness :
  SongParser.txtParseField Sample.assign_decimal Sample.assign_flag
    (fieldLine "YEAR " " 19:84") Sample.parser60 = Ok (true, Sample.parser60).
Proof.
  apply txtParseField_unknown_key; [reflexivity|].
  simpl. intros H. repeat destruct H as [H|H]; try discriminate H. exact H.
Defined.

(** X5.  For the keys ARTIST, EDITION, GENRE, CREATOR and LANGUAGE the
    member becomes the value after the first colon, trimmed: the second
    strip of leading spaces finds nothing to strip and never throws; for
    COVER, VIDEO and BACKGROUND likewise.  Colons and spaces inside the
    value are kept, and nothing else of the parser changes. *)
Theorem txtParseField_text (assign_double : string -> result Q)
    (assign_bool : string -> result bool) (key value : string) (P : SongParser.t)
    (set : string -> Song.t -> Song.t) :
  String.index 0 ":" key = None ->
  textMember (trim_copy key) = Some set ->
  trim_copy value <> EmptyString ->
  SongParser.txtParseField assign_double assign_bool (fieldLine key value) P
  = Ok (true, SongParser.upd_song (set (trim_copy value)) P).
Proof.
  intros Hkey Hset Hvalue.
  destruct (FieldFacts.fieldLine_parts key value Hkey) as (Hne & Hfront & Hidx & Hk & Hv).
  unfold SongParser.txtParseField. rewrite Hne, Hfront, Hidx, Hk, Hv. cbn [negb].
  rewrite (FieldFacts.unspaced_trimmed _ Hvalue).
  destruct (String.eqb_spec (trim_copy value) EmptyString) as [|_]; [contradiction|].
  revert Hset. unfold textMember. generalize (trim_copy key). intros k.
  repeat match goal with
         | |- context [String.eqb k ?x] =>
             destruct (String.eqb_spec k x) as [->|?];
             [cbn; try discriminate; intros [= <-]; reflexivity|]
         end.
  discriminate.
Qed.

Lemma txtParseField_text_witness :
  SongParser.txtParseField Sample.assign_decimal Sample.assign_flag
    (fieldLine "ARTIST" "  AC:DC live ") Sample.parser60
  = Ok (true, SongParser.upd_song (Song.set_artist "AC:DC live") Sample.parser60).
Proof.
  exact (txtParseField_text Sample.assign_decimal Sample.assign_flag
           "ARTIST" "  AC:DC live " Sample.parser60 Song.set_artist
           eq_refl eq_refl ltac:(discriminate)).
Defined.

(** X6.  For the key TITLE the leading spaces and colons of the trimmed
    value are stripped: the title is what is left, it is not empty and
    starts with neither a space nor a colon; a value of spaces and colons
    only makes the parser throw std::out_of_range. *)
Theorem txtParseField_title (assign_double : string -> result Q)
    (assign_bool : string -> result bool) (key value : string) (P : SongParser.t) :
  String.index 0 ":" key = None ->
  trim_copy key = "TITLE" ->
  trim_copy value <> EmptyString ->
  (forallb (fun c => Ascii.eqb c " " || Ascii.eqb c ":")
     (list_ascii_of_string (trim_copy value)) = true
   /\ SongParser.txtParseField assign_double assign_bool (fieldLine key value) P
      = Throw out_of_range)
  \/ (exists skipped c kept,
        trim_copy value = skipped +:+ String c kept
        /\ forallb (fun c => Ascii.eqb c " " || Ascii.eqb c ":")
             (list_ascii_of_string skipped) = true
        /\ c <> " "%char /\ c <> ":"%char
        /\ SongParser.txtParseField assign_double assign_bool (fieldLine key value) P
           = Ok (true, SongParser.upd_song (Song.set_title (String c kept)) P)).
Proof.
  intros Hkey Htitle Hvalue.
  destruct (FieldFacts.fieldLine_parts key value Hkey) as (Hne & Hfront & Hidx & Hk & Hv).
  unfold SongParser.txtParseField. rewrite Hne, Hfront, Hidx, Hk, Hv, Htitle. cbn [negb].
  destruct (String.eqb_spec (trim_copy value) EmptyString) as [|_]; [contradiction|].
  cbn [String.eqb Ascii.eqb Bool.eqb andb].
  assert (Hset : forall c, existsb (Ascii.eqb c) [" "%char; ":"%char]
                           = (Ascii.eqb c " " || Ascii.eqb c ":")).
  { intros c. simpl. now rewrite orb_false_r. }
  destruct (find_first_not_of [" "%char; ":"%char] (trim_copy value)) as [n|] eqn:Ef.
  - right.
    destruct (TitleFacts.find_first_not_of_Some _ _ _ Ef)
      as (skipped & c & kept & Hs & _ & Hall & Hc & Hsub).
    exists skipped, c, kept. rewrite Hsub. cbn [mbind result_bind].
    rewrite Hset in Hc. apply orb_false_elim in Hc. destruct Hc as [Hc1 Hc2].
    split; [exact Hs|]. split.
    { erewrite TitleFacts.forallb_pointwise; [exact Hall|].
      intros a. cbn beta. now rewrite Hset. }
    split; [now apply Ascii.eqb_neq|]. split; [now apply Ascii.eqb_neq | reflexivity].
  - left. split; [|reflexivity].
    apply TitleFacts.find_first_not_of_None in Ef.
    erewrite TitleFacts.forallb_pointwise; [exact Ef|].
    intros a. cbn beta. now rewrite Hset.
Qed.

Lemma txtParseField_title_witness :
  SongParser.txtParseField Sample.assign_decimal Sample.assign_flag
    (fieldLine "TITLE" ":") Sample.parser60 = Throw out_of_range
  /\ SongParser.txtParseField Sample.assign_decimal Sample.assign_flag
       (fieldLine "TITLE" " : Foo") Sample.parser60
     = Ok (true, SongParser.upd_song (Song.set_title "Foo") Sample.parser60).
Proof.
  split.
  - destruct (txtParseField_title Sample.assign_decimal Sample.assign_flag
                "TITLE" ":" Sample.parser60 eq_refl eq_refl ltac:(discriminate))
      as [[_ H]|(skipped & c & kept & _ & _ & _ & _ & H)]; [exact H | discriminate H].
  - destruct (txtParseField_title Sample.assign_decimal Sample.assign_flag
                "TITLE" " : Foo" Sample.parser60 eq_refl eq_refl ltac:(discriminate))
      as [[_ H]|(skipped & c & kept & _ & _ & _ & _ & H)]; [discriminate H|].
    rewrite H. vm_compute in H. injection H as <- <-. reflexivity.
Defined.

(** ** Line breaks *)

Module LineBreakFacts.
Import SongParser NotesFacts.

Lemma leading_sleep_last (before : Notes) (p p' : Note.t) (tail : Notes) :
  Note.type p' = Note.type p ->
  leading_sleep (before ++ p' :: tail) = leading_sleep (before ++ [p]).
Proof. intros H. destruct before; simpl; [now rewrite H | reflexivity]. Qed.

Lemma marks_last (before : Notes) (p : Note.t) :
  lineBreaksMarkSleeps (before ++ [p]) -> Note.lineBreak p = false.
Proof.
  induction before as [|q before IH]; simpl; [now intros [H _] | intros [_ H]; auto].
Qed.

(** The last note changed without its type or lineBreak, or changed
    and followed by a new note that its lineBreak tells of. *)
Lemma marks_changed (before : Notes) (p p' : Note.t) :
  Note.type p' = Note.type p -> Note.lineBreak p' = Note.lineBreak p ->
  lineBreaksMarkSleeps (before ++ [p]) -> lineBreaksMarkSleeps (before ++ [p']).
Proof.
  intros Hty Hlb. induction before as [|q before IH]; simpl.
  - now rewrite Hlb.
  - intros [Hq H]. split; [|auto].
    rewrite Hq. symmetry. now apply leading_sleep_last.
Qed.

Lemma marks_appended (before : Notes) (p p' n : Note.t) :
  Note.type p' = Note.type p ->
  Note.lineBreak p' = Note.is_SLEEP (Note.type n) ->
  Note.lineBreak n = false ->
  lineBreaksMarkSleeps (before ++ [p]) -> lineBreaksMarkSleeps (before ++ [p'; n]).
Proof.
  intros Hty Hlb Hn. induction before as [|q before IH]; simpl.
  - intros _. now rewrite Hlb, Hn.
  - intros [Hq H]. split; [|auto].
    rewrite Hq. symmetry. now apply leading_sleep_last.
Qed.

Lemma marks_popped (before : Notes) (b : Note.t) :
  Note.is_SLEEP (Note.type b) = false ->
  lineBreaksMarkSleeps (before ++ [b]) -> lineBreaksMarkSleeps before.
Proof.
  intros Hb. induction before as [|q before IH]; simpl; [auto|].
  intros [Hq H]. split; [|auto]. rewrite Hq.
  destruct before; simpl; [exact Hb | reflexivity].
Qed.

Lemma sleepWorkaround_lineBreak (n p p1 : Note.t) (notes : Notes) :
  sleepWorkaround n p notes = Ok p1 ->
  Note.type p1 = Note.type p /\ Note.lineBreak p1 = Note.lineBreak p.
Proof.
  unfold sleepWorkaround.
  destruct (Note.is_SLEEP (Note.type p)); [|now intros [= ->]].
  destruct (rev notes !! 1%nat) as [p2|]; [|discriminate].
  destruct (Qltb _ _); intros [= <-]; split; reflexivity.
Qed.

Lemma placeNote_marks (n : Note.t) (ts : Z) (vocal vocal' : VocalTrack.t) (P P' : t)
    (more : bool) :
  Note.lineBreak n = false ->
  lineBreaksMarkSleeps (VocalTrack.notes vocal) ->
  placeNote n ts vocal P = Ok (more, P', vocal') ->
  lineBreaksMarkSleeps (VocalTrack.notes vocal').
Proof.
  intros Hn Hmarks. unfold placeNote.
  destruct (VocalTrack.notes vocal) as [|p before _] eqn:Hnotes using rev_ind.
  - destruct (Qltb _ _); [discriminate|]. cbn [mbind result_bind negb last].
    destruct (Note.is_SLEEP (Note.type n)) eqn:En; intros [= <- <- <-];
      cbn [VocalTrack.notes VocalTrack.set_notes]; simpl; auto.
  - pose proof (marks_last _ _ Hmarks) as Hp.
    destruct (Qltb _ _).
    + unfold recoverOverlap. rewrite last_snoc.
      destruct (sleepWorkaround n p (before ++ [p])) as [p1| |] eqn:Hw; try discriminate.
      destruct (sleepWorkaround_lineBreak _ _ _ _ Hw) as [Hty Hlb].
      cbn [mbind result_bind].
      destruct (Qle_bool _ _); cbn [mbind result_bind negb]; rewrite set_back_snoc.
      * destruct (Note.is_SLEEP (Note.type n)) eqn:En;
          [rewrite last_snoc, set_back_snoc|];
          intros [= <- <- <-]; cbn [VocalTrack.notes VocalTrack.set_notes];
          rewrite <- app_assoc; apply (marks_appended before p); simpl; auto; congruence.
      * intros [= <- <- <-]. cbn [VocalTrack.notes VocalTrack.set_notes].
        now apply (marks_changed before p).
    + cbn [mbind result_bind negb].
      destruct (Note.is_SLEEP (Note.type n)) eqn:En;
        [rewrite last_snoc, set_back_snoc|];
        intros [= <- <- <-]; cbn [VocalTrack.notes VocalTrack.set_notes];
        rewrite <- app_assoc; apply (marks_appended before p); simpl; auto; congruence.
Qed.

Lemma readNote_lineBreak (line : string) (P P1 : t) (n : Note.t) (ts : Z) :
  readNote line P = Ok (n, ts, P1) -> Note.lineBreak n = false.
Proof.
  unfold readNote. destruct (scanNote line (m_prevts P)) as [tok| |]; try discriminate.
  cbn [mbind result_bind]. destruct tok; simpl; intros [= <- _ _]; reflexivity.
Qed.

Lemma txtParseNote_marks (line : string) (vocal vocal' : VocalTrack.t) (P P' : t)
    (more : bool) :
  lineBreaksMarkSleeps (VocalTrack.notes vocal) ->
  txtParseNote line vocal P = Ok (more, P', vocal') ->
  lineBreaksMarkSleeps (VocalTrack.notes vocal').
Proof.
  intros Hmarks. unfold txtParseNote.
  destruct (_ || _); [now intros [= <- <- <-]|].
  destruct (front_is "#" line); [discriminate|].
  destruct (front_is "E" _); [now intros [= <- <- <-]|].
  destruct (front_is "B" _).
  { destruct (_ ≫= _) as [[ts bpm]|]; [now intros [= <- <- <-] | discriminate]. }
  destruct (front_is "P" _); [now intros [= <- <- <-]|].
  destruct (readNote _ P) as [[[n ts] P1]| |] eqn:Hr; try discriminate.
  cbn [mbind result_bind]. apply placeNote_marks; [|assumption].
  eapply readNote_lineBreak, Hr.
Qed.

End LineBreakFacts.

(** X7.  On every track that the note loop builds, and on the track
    that txtParse puts in the song, a note has lineBreak set exactly when
    the note after it is a SLEEP; the last note never has it set. *)
Theorem lineBreak_marks_sleeps (vocal : VocalTrack.t) (P : SongParser.t) :
  SongParser.reached vocal P ->
  lineBreaksMarkSleeps (VocalTrack.notes vocal)
  /\ lineBreaksMarkSleeps (VocalTrack.notes (SongParser.dropTerminator vocal))
  /\ (forall p, last (VocalTrack.notes vocal) = Some p -> Note.lineBreak p = false).
Proof.
  intros Hreached.
  assert (Hmarks : lineBreaksMarkSleeps (VocalTrack.notes vocal)).
  { induction Hreached as [P|line vocal vocal' P P' more _ IH Hstep]; [exact I|].
    eapply LineBreakFacts.txtParseNote_marks; eassumption. }
  split; [exact Hmarks|]. split.
  - unfold SongParser.dropTerminator.
    destruct (last (VocalTrack.notes vocal)) as [b|] eqn:Hlast; [|exact Hmarks].
    destruct (negb (Note.is_SLEEP (Note.type b)) && _) eqn:E; [|exact Hmarks].
    apply andb_prop in E. destruct E as [E _]. apply negb_true_iff in E.
    destruct (NotesFacts.last_Some_snoc _ _ Hlast) as [before Hnotes].
    cbn [VocalTrack.notes VocalTrack.set_notes]. rewrite Hnotes in *.
    rewrite removelast_snoc. eapply LineBreakFacts.marks_popped; eassumption.
  - intros p Hlast.
    destruct (NotesFacts.last_Some_snoc _ _ Hlast) as [before Hnotes].
    rewrite Hnotes in Hmarks. eapply LineBreakFacts.marks_last, Hmarks.
Qed.

Lemma lineBreak_marks_sleeps_witness :
  exists vocal P la s,
    SongParser.reached vocal P
    /\ VocalTrack.notes vocal = [la; s]
    /\ Note.lineBreak la = true /\ Note.type s = Note.SLEEP /\ Note.lineBreak s = false.
Proof.
  pose proof (SongParser.reached_line "- 8" _ _ _ _ _
                (SongParser.reached_line ": 0 8 60 la" _ _ _ _ _
                   (SongParser.reached_start Sample.parser60) eq_refl) eq_refl) as H.
  eexists _, _, _, _. split; [exact H|]. split; [reflexivity|].
  destruct (lineBreak_marks_sleeps _ _ H) as (Hmarks & _ & Hlast).
  split; [exact (proj1 Hmarks)|]. split; [reflexivity|].
  exact (Hlast _ eq_refl).
Defined.

(** ** The steps of the note loop *)

Module StepFacts.
Import SongParser NotesFacts.

Lemma Qltb_lt (x y : Q) : Qltb x y = true <-> (x < y)%Q.
Proof.
  unfold Qltb. rewrite negb_true_iff. split.
  - intros H. apply Qnot_le_lt. intros Hle. apply Qle_bool_iff in Hle. congruence.
  - intros H. destruct (Qle_bool y x) eqn:E; [|reflexivity].
    apply Qle_bool_iff in E. exfalso. eapply Qlt_not_le; eassumption.
Qed.

Lemma Qltb_ge (x y : Q) : Qltb x y = false <-> (y <= x)%Q.
Proof.
  unfold Qltb. rewrite negb_false_iff. apply Qle_bool_iff.
Qed.

(** What a line does: nothing, a tempo change, or a note read and placed. *)
Lemma txtParseNote_cases (line : string) (vocal vocal' : VocalTrack.t) (P P' : t)
    (more : bool) :
  txtParseNote line vocal P = Ok (more, P', vocal') ->
  (P' = P /\ vocal' = vocal)
  \/ (exists ts bpm, P' = addBPM ts bpm P /\ vocal' = vocal /\ more = true)
  \/ (exists n ts P1, readNote (chomp line) P = Ok (n, ts, P1)
                      /\ placeNote n ts vocal P1 = Ok (more, P', vocal')).
Proof.
  unfold txtParseNote.
  destruct (_ || _); [intros [= <- <- <-]; now left|].
  destruct (front_is "#" line); [discriminate|].
  destruct (front_is "E" _); [intros [= <- <- <-]; now left|].
  destruct (front_is "B" _).
  { destruct (_ ≫= _) as [[ts bpm]|]; [|discriminate].
    intros [= <- <- <-]. right. left. eauto. }
  destruct (front_is "P" _); [intros [= <- <- <-]; now left|].
  destruct (readNote _ P) as [[[n ts] P1]| |] eqn:Hr; try discriminate.
  cbn [mbind result_bind]. intros H. right. right. eauto 6.
Qed.

Lemma sleepWorkaround_other (n p : Note.t) (notes : Notes) :
  Note.is_SLEEP (Note.type p) = false -> sleepWorkaround n p notes = Ok p.
Proof. unfold sleepWorkaround. now intros ->. Qed.

Lemma sleepWorkaround_sleep (n p p1 : Note.t) (notes : Notes) :
  Note.is_SLEEP (Note.type p) = true -> sleepWorkaround n p notes = Ok p1 ->
  Note.is_SLEEP (Note.type p1) = true /\ Note.begin p1 = Note.end_ p1.
Proof.
  unfold sleepWorkaround. intros Hs. rewrite Hs.
  destruct (rev notes !! 1%nat) as [p2|]; [|discriminate].
  destruct (Qltb _ _); intros [= <-]; split; simpl; auto.
Qed.

(** The parser that placeNote works on, after the first note of a
    relative song has set the shift. *)
Lemma placeNote_start (ts : Z) (b : bool) (P : t) :
  let P1 := if b then set_m_relativeShift ts P else P in
  m_song P1 = m_song P /\ m_relative P1 = m_relative P /\ m_gap P1 = m_gap P
  /\ m_bpm P1 = m_bpm P /\ m_prevtime P1 = m_prevtime P /\ m_bpms P1 = m_bpms P
  /\ cout P1 = cout P /\ (b = false -> m_relativeShift P1 = m_relativeShift P).
Proof. destruct b; simpl; repeat split; auto; discriminate. Qed.

End StepFacts.

(** The cases of placeNote on a goal [placeNote n ts vocal P = Ok _ -> _]:
    [P1] is the parser after the shift of the first note, with the
    members it keeps in [HP1]; the notes are none or [before ++ [p]]. *)
Ltac place_cases n ts vocal P P1 HP1 before p Hnotes :=
  unfold SongParser.placeNote;
  pose proof (StepFacts.placeNote_start ts
                (SongParser.m_relative P && SongParser.is_nil (VocalTrack.notes vocal)) P)
    as HP1;
  cbv zeta in HP1;
  set (P1 := if SongParser.m_relative P && SongParser.is_nil (VocalTrack.notes vocal)
             then SongParser.set_m_relativeShift ts P else P) in *;
  clearbody P1;
  cbn [SongParser.m_prevtime SongParser.set_m_prevts];
  destruct (VocalTrack.notes vocal) as [|p before _] eqn:Hnotes using rev_ind.

(** ** The pitch range *)

Module RangeFacts.
Import SongParser NotesFacts StepFacts.

Lemma inRange_wider (lo hi lo' hi' : Z) (q : Note.t) :
  lo' <= lo -> hi <= hi' -> inRange lo hi q -> inRange lo' hi' q.
Proof. unfold inRange. intros Hlo Hhi H Hs Hd. specialize (H Hs Hd). lia. Qed.

Lemma widenRange_wider (n : Note.t) (vocal : VocalTrack.t) :
  VocalTrack.noteMin (widenRange n vocal) <= VocalTrack.noteMin vocal
  /\ VocalTrack.noteMax vocal <= VocalTrack.noteMax (widenRange n vocal).
Proof. unfold widenRange. destruct (_ && _); simpl; lia. Qed.

Lemma widenRange_new (n : Note.t) (vocal : VocalTrack.t) :
  inRange (VocalTrack.noteMin (widenRange n vocal)) (VocalTrack.noteMax (widenRange n vocal)) n.
Proof.
  unfold inRange, widenRange. intros -> ->. simpl. lia.
Qed.

Lemma inRange_sleep (lo hi : Z) (q : Note.t) :
  Note.is_SLEEP (Note.type q) = true -> inRange lo hi q.
Proof. unfold inRange. congruence. Qed.

Lemma rangeCovers_widen (n : Note.t) (vocal : VocalTrack.t) :
  rangeCovers vocal ->
  Forall (inRange (VocalTrack.noteMin (widenRange n vocal))
                  (VocalTrack.noteMax (widenRange n vocal)))
         (VocalTrack.notes vocal).
Proof.
  intros H. eapply Forall_impl; [exact H|]. intros q.
  destruct (widenRange_wider n vocal). now apply inRange_wider.
Qed.

(** The last note after the recovery has made it end where the new note
    begins. *)
Lemma inRange_trimmed (lo hi : Z) (n p p1 : Note.t) (notes : Notes) (prevtime : Q) :
  (Note.is_SLEEP (Note.type p) = false -> Note.end_ p = prevtime) ->
  Qltb (Note.begin n) prevtime = true ->
  sleepWorkaround n p notes = Ok p1 ->
  inRange lo hi p -> inRange lo hi (Note.set_end (Note.begin n) p1).
Proof.
  intros Hend Ho Hw Hp.
  destruct (Note.is_SLEEP (Note.type p)) eqn:Es.
  - apply inRange_sleep. simpl. now destruct (sleepWorkaround_sleep _ _ _ _ Es Hw).
  - rewrite (sleepWorkaround_other _ _ _ Es) in Hw. injection Hw as <-.
    intros _ Hd. simpl in Hd.
    destruct (Qltb (Note.begin p) (Note.end_ p)) eqn:Ed; [now apply Hp|].
    exfalso. apply Qltb_ge in Ed. apply Qltb_lt in Hd, Ho.
    rewrite <- (Hend eq_refl) in Ho. lra.
Qed.

Lemma placeNote_range (n : Note.t) (ts : Z) (vocal vocal' : VocalTrack.t) (P P' : t)
    (more : bool) :
  rangeCovers vocal -> endsAtPrevtime vocal P ->
  placeNote n ts vocal P = Ok (more, P', vocal') ->
  rangeCovers vocal' /\ endsAtPrevtime vocal' P'.
Proof.
  intros Hcov Hend. pose proof (rangeCovers_widen n vocal Hcov) as Hwide.
  unfold rangeCovers, endsAtPrevtime in *.
  place_cases n ts vocal P P1 HP1 before p Hnotes;
    destruct HP1 as (_ & _ & _ & _ & Hpt & _); rewrite Hpt.
  - destruct (Qltb _ _); [discriminate|]. cbn [mbind result_bind negb last].
    destruct (Note.is_SLEEP (Note.type n)) eqn:En; intros [= <- <- <-];
      cbn [VocalTrack.notes VocalTrack.set_notes VocalTrack.noteMin VocalTrack.noteMax].
    + split; [constructor | discriminate].
    + split; [apply Forall_singleton, widenRange_new|].
      now intros q [= <-] _.
  - apply Forall_app in Hcov, Hwide.
    destruct Hcov as [Hb Hp], Hwide as [Hwb Hwp].
    rewrite Forall_singleton in Hp, Hwp.
    specialize (Hend p (last_snoc _ _)).
    destruct (Qltb (Note.begin n) (m_prevtime P)) eqn:Ho.
    + unfold recoverOverlap. rewrite last_snoc.
      destruct (sleepWorkaround n p (before ++ [p])) as [p1| |] eqn:Hw; try discriminate.
      cbn [mbind result_bind].
      destruct (Qle_bool _ _); cbn [mbind result_bind negb]; rewrite set_back_snoc.
      * pose proof (inRange_trimmed _ _ _ _ _ _ _ Hend Ho Hw Hwp) as Hp'.
        destruct (Note.is_SLEEP (Note.type n)) eqn:En;
          [rewrite last_snoc, set_back_snoc|];
          intros [= <- <- <-];
          cbn [VocalTrack.notes VocalTrack.set_notes VocalTrack.noteMin VocalTrack.noteMax];
          (split; [|rewrite last_snoc; intros q [= <-]; simpl; congruence]);
          rewrite !Forall_app, !Forall_singleton.
        -- split; [split; [exact Hwb | exact Hp'] | now apply inRange_sleep].
        -- split; [split; [exact Hwb | exact Hp'] | apply widenRange_new].
      * intros [= <- <- <-].
        cbn [VocalTrack.notes VocalTrack.set_notes VocalTrack.noteMin VocalTrack.noteMax
             m_prevtime set_cout set_m_prevts].
        rewrite last_snoc, Forall_app, Forall_singleton.
        destruct (Note.is_SLEEP (Note.type p)) eqn:Es.
        -- destruct (sleepWorkaround_sleep _ _ _ _ Es Hw) as [Hs1 _].
           split; [split; [exact Hb | now apply inRange_sleep]|].
           intros q [= <-]. congruence.
        -- rewrite (sleepWorkaround_other _ _ _ Es) in Hw. injection Hw as <-.
           split; [split; assumption|]. intros q [= <-] _. rewrite Hpt. now apply Hend.
    + cbn [mbind result_bind negb].
      destruct (Note.is_SLEEP (Note.type n)) eqn:En;
        [rewrite last_snoc, set_back_snoc|];
        intros [= <- <- <-];
        cbn [VocalTrack.notes VocalTrack.set_notes VocalTrack.noteMin VocalTrack.noteMax];
        (split; [|rewrite last_snoc; intros q [= <-]; simpl; congruence]);
        rewrite !Forall_app, !Forall_singleton.
      * split; [split; [exact Hwb | exact Hwp] | now apply inRange_sleep].
      * split; [split; [exact Hwb | exact Hwp] | apply widenRange_new].
Qed.

Lemma txtParseNote_range (line : string) (vocal vocal' : VocalTrack.t) (P P' : t)
    (more : bool) :
  rangeCovers vocal -> endsAtPrevtime vocal P ->
  txtParseNote line vocal P = Ok (more, P', vocal') ->
  rangeCovers vocal' /\ endsAtPrevtime vocal' P'.
Proof.
  intros Hcov Hend Hstep.
  destruct (txtParseNote_cases _ _ _ _ _ _ Hstep)
    as [[-> ->]|[(ts & bpm & -> & -> & _)|(n & ts & P1 & Hr & Hp)]]; [auto|auto|].
  eapply placeNote_range; [exact Hcov| |exact Hp].
  destruct (readNote_keeps _ _ _ _ _ Hr) as (_ & Hpt & _).
  unfold endsAtPrevtime. rewrite Hpt. exact Hend.
Qed.

Lemma reached_range (vocal : VocalTrack.t) (P : t) :
  reached vocal P -> rangeCovers vocal /\ endsAtPrevtime vocal P.
Proof.
  induction 1 as [P|line vocal vocal' P P' more _ [IH1 IH2] Hstep].
  - split; [constructor | discriminate].
  - eapply txtParseNote_range; eassumption.
Qed.

End RangeFacts.

(** X8.  The pitch range of a track that the note loop builds holds the
    pitch of each of its notes that is no SLEEP and ends after it begins,
    also of a note that the overlap recovery has cut; the terminator
    workaround leaves that so. *)
Theorem noteRange_covers_notes (vocal : VocalTrack.t) (P : SongParser.t) (q : Note.t) :
  SongParser.reached vocal P ->
  q ∈ VocalTrack.notes vocal ->
  Note.is_SLEEP (Note.type q) = false ->
  Qltb (Note.begin q) (Note.end_ q) = true ->
  VocalTrack.noteMin vocal <= Note.note q <= VocalTrack.noteMax vocal
  /\ VocalTrack.noteMin (SongParser.dropTerminator vocal) = VocalTrack.noteMin vocal
  /\ VocalTrack.noteMax (SongParser.dropTerminator vocal) = VocalTrack.noteMax vocal
  /\ q ∈ VocalTrack.notes (SongParser.dropTerminator vocal).
Proof.
  intros Hreached Hq Hs Hd.
  destruct (RangeFacts.reached_range _ _ Hreached) as [Hcov _].
  unfold rangeCovers in Hcov. rewrite Forall_forall in Hcov.
  split; [exact (Hcov q Hq Hs Hd)|].
  unfold SongParser.dropTerminator.
  destruct (last (VocalTrack.notes vocal)) as [b|] eqn:Hlast; [|auto].
  destruct (negb _ && Qeq_bool _ _) eqn:E; [|auto].
  split; [reflexivity|]. split; [reflexivity|].
  cbn [VocalTrack.notes VocalTrack.set_notes].
  destruct (NotesFacts.last_Some_snoc _ _ Hlast) as [before Hnotes].
  rewrite Hnotes in *. rewrite removelast_snoc.
  apply elem_of_app in Hq. destruct Hq as [Hq|Hq]; [exact Hq|].
  apply list_elem_of_singleton in Hq. subst q.
  apply andb_prop in E. destruct E as [_ E]. apply Qeq_bool_iff in E.
  apply StepFacts.Qltb_lt in Hd. lra.
Qed.

Lemma noteRange_covers_notes_witness :
  exists vocal P q,
    SongParser.reached vocal P
    /\ q ∈ VocalTrack.notes vocal
    /\ VocalTrack.noteMin vocal <= Note.note q <= VocalTrack.noteMax vocal.
Proof.
  pose proof (SongParser.reached_line ": 0 8 60 la" _ _ _ _ _
                (SongParser.reached_start Sample.parser60) eq_refl) as H.
  refine (ex_intro _ _ (ex_intro _ _ (ex_intro _ _
            (conj H (conj (list_elem_of_here _ _)
               (proj1 (noteRange_covers_notes _ _ _ H (list_elem_of_here _ _)
                         eq_refl eq_refl))))))).
Defined.

(** ** Notes are only added *)

Module GrowFacts.
Import SongParser NotesFacts StepFacts.

Lemma retimed_refl (q : Note.t) : retimed q q.
Proof. unfold retimed. tauto. Qed.

Lemma retimed_trans (q q' q'' : Note.t) : retimed q q' -> retimed q' q'' -> retimed q q''.
Proof. unfold retimed. intuition congruence. Qed.

Lemma grows_refl (a : Notes) : grows a a.
Proof. split; [reflexivity|]. intros i q H. exists q. auto using retimed_refl. Qed.

Lemma grows_length (a b : Notes) : grows a b -> (length a <= length b)%nat.
Proof.
  intros [_ H]. destruct a as [|p before _] using rev_ind; [simpl; lia|].
  destruct (H (length before) p) as (q' & Hq' & _).
  { rewrite lookup_app_r, Nat.sub_diag by lia. reflexivity. }
  apply lookup_lt_Some in Hq'. rewrite length_app. simpl. lia.
Qed.

Lemma grows_trans (a b c : Notes) : grows a b -> grows b c -> grows a c.
Proof.
  intros Hab Hbc. pose proof (grows_length _ _ Hab) as Hlen.
  destruct Hab as [Ha Ha'], Hbc as [Hb Hb']. split.
  - rewrite <- Ha.
    replace (length a - 1)%nat with (Nat.min (length a - 1) (length b - 1)) by lia.
    rewrite <- !take_take. now rewrite Hb.
  - intros i q Hq. destruct (Ha' i q Hq) as (q' & Hq' & Hr).
    destruct (Hb' i q' Hq') as (q'' & Hq'' & Hr').
    exists q''. split; [exact Hq''|]. eapply retimed_trans; eassumption.
Qed.

Lemma grows_first (b : Notes) : grows [] b.
Proof. split; [reflexivity|]. intros i q H. destruct i; discriminate. Qed.

Lemma grows_snoc (before tail : Notes) (p p' : Note.t) :
  retimed p p' -> grows (before ++ [p]) (before ++ p' :: tail).
Proof.
  intros Hr. split.
  - rewrite length_app. simpl.
    replace (length before + 1 - 1)%nat with (length before) by lia.
    now rewrite !take_app_length.
  - intros i q Hq. destruct (decide (i < length before)%nat) as [Hi|Hi].
    + rewrite lookup_app_l in Hq by exact Hi. exists q.
      rewrite lookup_app_l by exact Hi. auto using retimed_refl.
    + rewrite lookup_app_r in Hq by lia. rewrite lookup_app_r by lia.
      destruct (i - length before)%nat as [|k]; [|destruct k; discriminate].
      injection Hq as <-. exists p'. auto.
Qed.

Lemma sleepWorkaround_retimed (n p p1 : Note.t) (notes : Notes) :
  sleepWorkaround n p notes = Ok p1 -> retimed p p1.
Proof.
  unfold sleepWorkaround.
  destruct (Note.is_SLEEP (Note.type p)); [|intros [= ->]; apply retimed_refl].
  destruct (rev notes !! 1%nat) as [p2|]; [|discriminate].
  destruct (Qltb _ _); intros [= <-]; unfold retimed; simpl; tauto.
Qed.

Lemma placeNote_grows (n : Note.t) (ts : Z) (vocal vocal' : VocalTrack.t) (P P' : t)
    (more : bool) :
  placeNote n ts vocal P = Ok (more, P', vocal') ->
  grows (VocalTrack.notes vocal) (VocalTrack.notes vocal')
  /\ VocalTrack.name vocal' = VocalTrack.name vocal
  /\ VocalTrack.noteMin vocal' <= VocalTrack.noteMin vocal
  /\ VocalTrack.noteMax vocal <= VocalTrack.noteMax vocal'.
Proof.
  assert (Hname : VocalTrack.name (widenRange n vocal) = VocalTrack.name vocal)
    by (unfold widenRange; destruct (_ && _); reflexivity).
  pose proof (RangeFacts.widenRange_wider n vocal) as Hwide.
  place_cases n ts vocal P P1 HP1 before p Hnotes; clear HP1.
  - intros H. split; [apply grows_first|].
    revert H. destruct (Qltb _ _); [discriminate|]. cbn [mbind result_bind negb last].
    destruct (Note.is_SLEEP (Note.type n)); intros [= <- <- <-];
      cbn [VocalTrack.name VocalTrack.set_notes VocalTrack.noteMin VocalTrack.noteMax]; auto.
  - destruct (Qltb _ _).
    + unfold recoverOverlap. rewrite last_snoc.
      destruct (sleepWorkaround n p (before ++ [p])) as [p1| |] eqn:Hw; try discriminate.
      pose proof (sleepWorkaround_retimed _ _ _ _ Hw) as Hr.
      cbn [mbind result_bind].
      destruct (Qle_bool _ _); cbn [mbind result_bind negb]; rewrite set_back_snoc.
      * destruct (Note.is_SLEEP (Note.type n));
          [rewrite last_snoc, set_back_snoc|];
          intros [= <- <- <-];
          cbn [VocalTrack.notes VocalTrack.name VocalTrack.set_notes
               VocalTrack.noteMin VocalTrack.noteMax];
          (split; [|auto]); rewrite <- app_assoc; apply grows_snoc;
          unfold retimed in *; simpl; tauto.
      * intros [= <- <- <-].
        cbn [VocalTrack.notes VocalTrack.name VocalTrack.set_notes
             VocalTrack.noteMin VocalTrack.noteMax].
        split; [now apply grows_snoc|]. repeat split; lia.
    + cbn [mbind result_bind negb].
      destruct (Note.is_SLEEP (Note.type n));
        [rewrite last_snoc, set_back_snoc|];
        intros [= <- <- <-];
        cbn [VocalTrack.notes VocalTrack.name VocalTrack.set_notes
             VocalTrack.noteMin VocalTrack.noteMax];
        (split; [|auto]); rewrite <- app_assoc; apply grows_snoc;
        unfold retimed; simpl; tauto.
Qed.

Lemma txtParseNote_grows (line : string) (vocal vocal' : VocalTrack.t) (P P' : t)
    (more : bool) :
  txtParseNote line vocal P = Ok (more, P', vocal') ->
  grows (VocalTrack.notes vocal) (VocalTrack.notes vocal')
  /\ VocalTrack.name vocal' = VocalTrack.name vocal
  /\ VocalTrack.noteMin vocal' <= VocalTrack.noteMin vocal
  /\ VocalTrack.noteMax vocal <= VocalTrack.noteMax vocal'.
Proof.
  intros Hstep.
  destruct (txtParseNote_cases _ _ _ _ _ _ Hstep)
    as [[-> ->]|[(ts & bpm & -> & -> & _)|(n & ts & P1 & Hr & Hp)]].
  - split; [apply grows_refl|]. repeat split; lia.
  - split; [apply grows_refl|]. repeat split; lia.
  - eapply placeNote_grows, Hp.
Qed.

Lemma txtParseNotes_grows (ss ss' : list string) (line : string)
    (vocal vocal' : VocalTrack.t) (P P' : t) :
  txtParseNotes ss line vocal P = Ok (ss', P', vocal') ->
  grows (VocalTrack.notes vocal) (VocalTrack.notes vocal')
  /\ VocalTrack.name vocal' = VocalTrack.name vocal
  /\ VocalTrack.noteMin vocal' <= VocalTrack.noteMin vocal
  /\ VocalTrack.noteMax vocal <= VocalTrack.noteMax vocal'.
Proof.
  revert line vocal P. induction ss as [|next ss IH]; intros line vocal P; simpl;
    destruct (txtParseNote line vocal P) as [[[more P1] vocal1]| |] eqn:Hstep;
    try discriminate; cbn [mbind result_bind];
    pose proof (txtParseNote_grows _ _ _ _ _ _ Hstep) as H1;
    destruct more; try (now intros [= <- <- <-]).
  intros H. destruct (IH _ _ _ H) as (Hg & Hn & Hlo & Hhi).
  destruct H1 as (Hg1 & Hn1 & Hlo1 & Hhi1).
  split; [eapply grows_trans; eassumption|]. repeat split; [congruence|lia|lia].
Qed.

End GrowFacts.

(** X9.  The note loop only adds notes: on every line that it reads, the
    notes before the last one stay as they are, no note is removed or
    moved, and a note keeps its type, pitch and syllable; the name of the
    track stays and the pitch range only widens. *)
Theorem noteLoop_only_adds (ss ss' : list string) (line : string)
    (vocal vocal' : VocalTrack.t) (P P' : SongParser.t) :
  SongParser.txtParseNotes ss line vocal P = Ok (ss', P', vocal') ->
  (exists tail, VocalTrack.notes vocal' = removelast (VocalTrack.notes vocal) ++ tail)
  /\ (forall i q, VocalTrack.notes vocal !! i = Some q ->
        exists q', VocalTrack.notes vocal' !! i = Some q'
                   /\ Note.type q' = Note.type q /\ Note.note q' = Note.note q
                   /\ Note.notePrev q' = Note.notePrev q
                   /\ Note.syllable q' = Note.syllable q)
  /\ VocalTrack.name vocal' = VocalTrack.name vocal
  /\ VocalTrack.noteMin vocal' <= VocalTrack.noteMin vocal
  /\ VocalTrack.noteMax vocal <= VocalTrack.noteMax vocal'.
Proof.
  intros H. destruct (GrowFacts.txtParseNotes_grows _ _ _ _ _ _ _ H) as ([Ht Hl] & Hrest).
  split; [|split; [exact Hl | exact Hrest]].
  exists (drop (length (VocalTrack.notes vocal) - 1) (VocalTrack.notes vocal')).
  rewrite removelast_firstn_len, <- Nat.sub_1_r, <- Ht. symmetry. apply take_drop.
Qed.

Lemma noteLoop_only_adds_witness :
  exists P' vocal',
    SongParser.txtParseNotes [": 4 4 62 di"; "E"; ": 20 4 64 da"] ": 0 8 60 la"
      Sample.lead Sample.parser60
    = Ok ([": 20 4 64 da"], P', vocal')
    /\ VocalTrack.noteMin vocal' <= VocalTrack.noteMin Sample.lead
    /\ VocalTrack.noteMax Sample.lead <= VocalTrack.noteMax vocal'.
Proof.
  eexists _, _. split; [reflexivity|].
  pose proof (noteLoop_only_adds [": 4 4 62 di"; "E"; ": 20 4 64 da"] _
                ": 0 8 60 la" Sample.lead _ Sample.parser60 _ eq_refl)
    as (_ & _ & _ & Hlo & Hhi).
  split; [exact Hlo | exact Hhi].
Defined.

(** ** A note ends no earlier than it begins *)

Module OrderFacts.
Import SongParser NotesFacts StepFacts.

Abbreviation ordered := (fun q : Note.t => (Note.begin q <= Note.end_ q)%Q).

Lemma sleepWorkaround_ordered (n p p1 : Note.t) (notes : Notes) :
  sleepWorkaround n p notes = Ok p1 -> ordered p -> ordered p1.
Proof.
  intros Hw Hp. destruct (Note.is_SLEEP (Note.type p)) eqn:Es.
  - destruct (sleepWorkaround_sleep _ _ _ _ Es Hw) as [_ H]. simpl. rewrite H. lra.
  - rewrite (sleepWorkaround_other _ _ _ Es) in Hw. now injection Hw as <-.
Qed.

Lemma placeNote_ordered (n : Note.t) (ts : Z) (vocal vocal' : VocalTrack.t) (P P' : t)
    (more : bool) :
  (Note.is_SLEEP (Note.type n) = false -> ordered n) ->
  Forall ordered (VocalTrack.notes vocal) ->
  placeNote n ts vocal P = Ok (more, P', vocal') ->
  Forall ordered (VocalTrack.notes vocal').
Proof.
  intros Hn Hall.
  place_cases n ts vocal P P1 HP1 before p Hnotes; clear HP1.
  - destruct (Qltb _ _); [discriminate|]. cbn [mbind result_bind negb last].
    destruct (Note.is_SLEEP (Note.type n)) eqn:En; intros [= <- <- <-];
      cbn [VocalTrack.notes VocalTrack.set_notes]; [constructor|].
    apply Forall_singleton. auto.
  - apply Forall_app in Hall. destruct Hall as [Hb Hp]. rewrite Forall_singleton in Hp.
    destruct (Qltb _ _).
    + unfold recoverOverlap. rewrite last_snoc.
      destruct (sleepWorkaround n p (before ++ [p])) as [p1| |] eqn:Hw; try discriminate.
      pose proof (sleepWorkaround_ordered _ _ _ _ Hw Hp) as Hp1.
      cbn [mbind result_bind].
      destruct (Qle_bool _ _) eqn:Hle; cbn [mbind result_bind negb]; rewrite set_back_snoc.
      * apply Qle_bool_iff in Hle.
        destruct (Note.is_SLEEP (Note.type n)) eqn:En;
          [rewrite last_snoc, set_back_snoc|];
          intros [= <- <- <-]; cbn [VocalTrack.notes VocalTrack.set_notes];
          rewrite !Forall_app, !Forall_singleton; simpl;
          (split; [split; [exact Hb | exact Hle]|]); [lra | auto].
      * intros [= <- <- <-]. cbn [VocalTrack.notes VocalTrack.set_notes].
        rewrite Forall_app, Forall_singleton. auto.
    + cbn [mbind result_bind negb].
      destruct (Note.is_SLEEP (Note.type n)) eqn:En;
        [rewrite last_snoc, set_back_snoc|];
        intros [= <- <- <-]; cbn [VocalTrack.notes VocalTrack.set_notes];
        rewrite !Forall_app, !Forall_singleton; simpl;
        (split; [split; [exact Hb | exact Hp]|]); [lra | auto].
Qed.

End OrderFacts.

(** X10.  When no note of the track ends before it begins, and the note
    of the line does not either, then after txtParseNote no note of the
    track does: the overlap recovery cuts a note at most down to its
    begin, and a SLEEP is given one time for both. *)
Theorem txtParseNote_keeps_notes_ordered (line : string) (vocal vocal' : VocalTrack.t)
    (P P' : SongParser.t) (more : bool) :
  Forall (fun q => (Note.begin q <= Note.end_ q)%Q) (VocalTrack.notes vocal) ->
  (forall n ts P1, SongParser.readNote (SongParser.chomp line) P = Ok (n, ts, P1) ->
                   Note.is_SLEEP (Note.type n) = false ->
                   (Note.begin n <= Note.end_ n)%Q) ->
  SongParser.txtParseNote line vocal P = Ok (more, P', vocal') ->
  Forall (fun q => (Note.begin q <= Note.end_ q)%Q) (VocalTrack.notes vocal').
Proof.
  intros Hall Hread Hstep.
  destruct (StepFacts.txtParseNote_cases _ _ _ _ _ _ Hstep)
    as [[-> ->]|[(ts & bpm & -> & -> & _)|(n & ts & P1 & Hr & Hp)]]; [auto|auto|].
  eapply OrderFacts.placeNote_ordered; [|exact Hall|exact Hp].
  eapply Hread, Hr.
Qed.

Lemma txtParseNote_keeps_notes_ordered_witness :
  exists P' vocal',
    SongParser.txtParseNote ": 1 4 62 di" (VocalTrack.set_notes [Sample.la_0_2] Sample.lead)
      (SongParser.set_m_prevtime 2 Sample.parser60)
    = Ok (true, P', vocal')
    /\ Forall (fun q => (Note.begin q <= Note.end_ q)%Q) (VocalTrack.notes vocal').
Proof.
  eexists _, _. split; [reflexivity|].
  eapply (txtParseNote_keeps_notes_ordered ": 1 4 62 di"
           (VocalTrack.set_notes [Sample.la_0_2] Sample.lead) _
           (SongParser.set_m_prevtime 2 Sample.parser60) _ true).
  - apply Forall_singleton. vm_compute. discriminate.
  - intros n ts P1 [= <- _ _] _. vm_compute. discriminate.
  - reflexivity.
Defined.

(** ** What the note loop leaves alone *)

Module FrameFacts.
Import SongParser NotesFacts StepFacts.

Lemma kept_refl (k : nat) (P : t) : kept k P P.
Proof.
  unfold kept. repeat split; auto. exists 0%nat. simpl. rewrite app_nil_r. split; [lia|auto].
Qed.

Lemma warning_song (P P' : t) : m_song P' = m_song P -> warning P' = warning P.
Proof. unfold warning. now intros ->. Qed.

Lemma kept_trans (j k : nat) (P P' P'' : t) :
  kept j P P' -> kept k P' P'' -> kept (j + k) P P''.
Proof.
  intros (Hs & Hr & Hg & Hb & Hsh & a & Ha & Hc) (Hs' & Hr' & Hg' & Hb' & Hsh' & b & Hb'' & Hc').
  unfold kept. repeat split; try congruence.
  - intros H. rewrite Hsh' by congruence. auto.
  - exists (a + b)%nat. split; [lia|].
    rewrite Hc', Hc, (warning_song _ _ Hs), <- app_assoc, replicate_add. reflexivity.
Qed.

Lemma kept_more (j k : nat) (P P' : t) : (j <= k)%nat -> kept j P P' -> kept k P P'.
Proof.
  intros Hjk (Hs & Hr & Hg & Hb & Hsh & a & Ha & Hc).
  unfold kept. repeat split; auto. exists a. split; [lia|auto].
Qed.

Lemma timeNote_kept (tok : NoteLine) (P P1 : t) (n : Note.t) (ts : Z) :
  timeNote tok P = (n, ts, P1) -> kept 0 P P1.
Proof.
  destruct tok; simpl; intros [= <- <- <-]; [apply kept_refl|].
  destruct (m_relative P) eqn:E; [|apply kept_refl].
  unfold kept. simpl. rewrite E. repeat split; try discriminate.
  exists 0%nat. simpl. rewrite app_nil_r. auto.
Qed.

Lemma readNote_kept (line : string) (P P1 : t) (n : Note.t) (ts : Z) :
  readNote line P = Ok (n, ts, P1) -> kept 0 P P1.
Proof.
  unfold readNote. destruct (scanNote line (m_prevts P)) as [tok| |]; try discriminate.
  cbn [mbind result_bind]. intros [= H]. eapply timeNote_kept, H.
Qed.

Lemma placeNote_kept (n : Note.t) (ts : Z) (vocal vocal' : VocalTrack.t) (P P' : t)
    (more : bool) :
  placeNote n ts vocal P = Ok (more, P', vocal') -> kept 1 P P'.
Proof.
  unfold placeNote.
  pose proof (placeNote_start ts (m_relative P && is_nil (VocalTrack.notes vocal)) P) as HP1.
  cbv zeta in HP1.
  set (P1 := if m_relative P && is_nil (VocalTrack.notes vocal)
             then set_m_relativeShift ts P else P) in *.
  clearbody P1. destruct HP1 as (Hs & Hr & Hg & Hb & _ & _ & Hc & Hsh).
  assert (Hw : warning (set_m_prevts ts P1) = warning P) by now apply warning_song.
  destruct (if Qltb _ _ then _ else _) as [[keep notes1]| |]; try discriminate.
  cbn [mbind result_bind].
  assert (Hshift : m_relative P = false -> m_relativeShift P1 = m_relativeShift P)
    by (intros E; apply Hsh; now rewrite E).
  destruct (negb keep).
  - intros [= <- <- <-]. unfold kept. cbn [m_song m_relative m_gap m_bpm m_relativeShift
                                           cout set_cout set_m_prevts].
    repeat split; auto. exists 1%nat. split; [lia|]. simpl.
    cbn [set_m_prevts cout] in *. rewrite Hc. f_equal. f_equal. exact Hw.
  - assert (H3 : kept 1 P (set_m_prevtime (Note.end_ n) (set_m_prevts ts P1))).
    { unfold kept. cbn. repeat split; auto. exists 0%nat. simpl. rewrite app_nil_r.
      split; [lia|auto]. }
    destruct (Note.is_SLEEP _); [destruct (last notes1)|]; now intros [= <- <- <-].
Qed.

Lemma txtParseNote_kept (line : string) (vocal vocal' : VocalTrack.t) (P P' : t)
    (more : bool) :
  txtParseNote line vocal P = Ok (more, P', vocal') -> kept 1 P P'.
Proof.
  intros Hstep.
  destruct (txtParseNote_cases _ _ _ _ _ _ Hstep)
    as [[-> ->]|[(ts & bpm & -> & -> & _)|(n & ts & P1 & Hr & Hp)]].
  - apply kept_refl.
  - unfold kept. cbn. repeat split; auto. exists 0%nat. simpl. rewrite app_nil_r.
    split; [lia|auto].
  - apply (kept_trans 0 1 P P1 P'); [eapply readNote_kept, Hr | eapply placeNote_kept, Hp].
Qed.

Lemma txtParseNotes_kept (ss ss' : list string) (line : string)
    (vocal vocal' : VocalTrack.t) (P P' : t) :
  txtParseNotes ss line vocal P = Ok (ss', P', vocal') -> kept (S (length ss)) P P'.
Proof.
  revert line vocal P. induction ss as [|next ss IH]; intros line vocal P; simpl;
    destruct (txtParseNote line vocal P) as [[[more P1] vocal1]| |] eqn:Hstep;
    try discriminate; cbn [mbind result_bind];
    pose proof (txtParseNote_kept _ _ _ _ _ _ Hstep) as H1;
    destruct more; try (intros [= <- <- <-]; eapply kept_more; [|exact H1]; lia).
  intros H. apply (kept_trans 1 (S (length ss)) P P1 P'); [exact H1 | eapply IH, H].
Qed.

End FrameFacts.

(** X11.  The note loop leaves what the header has set: the song, the
    relative flag, the gap and the BPM member stay as they were; outside
    relative mode the shift is never written; and the only output is the
    warning of a skipped note, at most once for each line read. *)
Theorem noteLoop_keeps_header (ss ss' : list string) (line : string)
    (vocal vocal' : VocalTrack.t) (P P' : SongParser.t) :
  SongParser.txtParseNotes ss line vocal P = Ok (ss', P', vocal') ->
  SongParser.m_song P' = SongParser.m_song P
  /\ SongParser.m_relative P' = SongParser.m_relative P
  /\ SongParser.m_gap P' = SongParser.m_gap P
  /\ SongParser.m_bpm P' = SongParser.m_bpm P
  /\ (SongParser.m_relative P = false ->
      SongParser.m_relativeShift P' = SongParser.m_relativeShift P)
  /\ exists skipped,
       (skipped <= S (length ss))%nat
       /\ SongParser.cout P'
          = SongParser.cout P ++ replicate skipped (SongParser.warning P).
Proof. apply FrameFacts.txtParseNotes_kept. Qed.

Lemma noteLoop_keeps_header_witness :
  exists P' vocal',
    SongParser.txtParseNotes [": 4 4 64 da"] ": 8 8 60 la" Sample.lead Sample.parser60
    = Ok ([], P', vocal')
    /\ SongParser.m_song P' = Sample.song
    /\ SongParser.cout P' = [SongParser.warning Sample.parser60].
Proof.
  eexists _, _. split; [reflexivity|].
  pose proof (noteLoop_keeps_header [": 4 4 64 da"] _ ": 8 8 60 la" Sample.lead _
                Sample.parser60 _ eq_refl)
    as (Hsong & _).
  split; [exact Hsong | reflexivity].
Defined.

(** ** Lines that the note loop passes over *)

Module SkipFacts.
Import SongParser.

Lemma chomp_front (c : ascii) (line : string) :
  front_is c line = true -> Ascii.eqb c CR = false -> front_is c (chomp line) = true.
Proof.
  unfold chomp. destruct line as [|c' rest]; [discriminate|]. simpl front_is.
  intros Hc Hcr. apply Ascii.eqb_eq in Hc. subst c'.
  destruct (bool_decide _) eqn:E; [|simpl; apply Ascii.eqb_refl].
  destruct rest as [|d rest'].
  - apply bool_decide_eq_true in E. simpl in E. injection E as E.
    subst c. rewrite Ascii.eqb_refl in Hcr. discriminate.
  - simpl. apply Ascii.eqb_refl.
Qed.

Lemma front_other (c d : ascii) (line : string) :
  front_is c line = true -> Ascii.eqb c d = false -> front_is d line = false.
Proof.
  destruct line as [|c' rest]; [discriminate|]. simpl.
  intros Hc Hd. apply Ascii.eqb_eq in Hc. now subst c'.
Qed.

Lemma front_line (c : ascii) (line : string) :
  front_is c line = true -> Ascii.eqb c CR = false ->
  String.eqb line EmptyString || String.eqb line (String CR EmptyString) = false.
Proof.
  destruct line as [|c' rest]; [discriminate|]. simpl.
  intros Hc Hcr. apply Ascii.eqb_eq in Hc. subst c'. now rewrite Hcr.
Qed.

Lemma txtParseNote_ignored (line : string) (vocal : VocalTrack.t) (P : t) :
  ignoredLine line = true -> txtParseNote line vocal P = Ok (true, P, vocal).
Proof.
  unfold ignoredLine, txtParseNote. intros H.
  destruct (String.eqb line EmptyString || String.eqb line (String CR EmptyString)) eqn:E;
    [reflexivity|].
  simpl in H.
  rewrite (front_other "P" "#" line H eq_refl).
  pose proof (chomp_front "P" line H eq_refl) as Hc.
  rewrite (front_other "P" "E" _ Hc eq_refl), (front_other "P" "B" _ Hc eq_refl), Hc.
  reflexivity.
Qed.

Lemma txtParseNote_end (line : string) (vocal : VocalTrack.t) (P : t) :
  front_is "E" line = true -> txtParseNote line vocal P = Ok (false, P, vocal).
Proof.
  unfold txtParseNote. intros H.
  rewrite (front_line "E" line H eq_refl), (front_other "E" "#" line H eq_refl).
  now rewrite (chomp_front "E" line H eq_refl).
Qed.

End SkipFacts.

(** X12.  An empty line, a lone carriage return and a player line change
    nothing: the note loop leaves the same parser and the same track with
    such a line anywhere among the lines to come as without it. *)
Theorem ignoredLine_changes_nothing (before after : list string) (skipped line : string)
    (vocal : VocalTrack.t) (P : SongParser.t) :
  ignoredLine skipped = true ->
  outcome (SongParser.txtParseNotes (before ++ skipped :: after) line vocal P)
  = outcome (SongParser.txtParseNotes (before ++ after) line vocal P).
Proof.
  intros Hskip. revert line vocal P.
  induction before as [|next before IH]; intros line vocal P; simpl.
  - rewrite (LoopFacts.txtParseNotes_getline after line).
    destruct (SongParser.txtParseNote line vocal P) as [[[more P1] vocal1]| |];
      try reflexivity.
    cbn [mbind result_bind]. destruct more; [|reflexivity].
    rewrite (LoopFacts.txtParseNotes_getline after skipped).
    rewrite (SkipFacts.txtParseNote_ignored _ _ _ Hskip). cbn [mbind result_bind].
    destruct after; reflexivity.
  - destruct (SongParser.txtParseNote line vocal P) as [[[more P1] vocal1]| |];
      try reflexivity.
    cbn [mbind result_bind]. destruct more; [apply IH | reflexivity].
Qed.

Lemma ignoredLine_changes_nothing_witness :
  ignoredLine "P 2" = true
  /\ outcome (SongParser.txtParseNotes [": 8 4 62 di"; "P 2"; "- 12"] ": 0 8 60 la"
                Sample.lead Sample.parser60)
     = outcome (SongParser.txtParseNotes [": 8 4 62 di"; "- 12"] ": 0 8 60 la"
                  Sample.lead Sample.parser60).
Proof.
  split; [reflexivity|].
  exact (ignoredLine_changes_nothing [": 8 4 62 di"] ["- 12"] "P 2" ": 0 8 60 la"
           Sample.lead Sample.parser60 eq_refl).
Defined.

(** X13.  A line that starts with E ends the notes: whatever lines follow
    it, the note loop leaves the parser and the track that it leaves when
    the stream ends before that line. *)
Theorem lines_after_E_are_not_read (before after : list string) (e line : string)
    (vocal : VocalTrack.t) (P : SongParser.t) :
  SongParser.front_is "E" e = true ->
  outcome (SongParser.txtParseNotes (before ++ e :: after) line vocal P)
  = outcome (SongParser.txtParseNotes before line vocal P)
  /\ forall ss' P' vocal',
       SongParser.txtParseNotes (before ++ e :: after) line vocal P = Ok (ss', P', vocal') ->
       exists read, ss' = read ++ after.
Proof.
  intros He. revert line vocal P.
  induction before as [|next before IH]; intros line vocal P; simpl.
  - destruct (SongParser.txtParseNote line vocal P) as [[[more P1] vocal1]| |];
      try (split; [reflexivity | discriminate]).
    cbn [mbind result_bind]. destruct more.
    + rewrite (LoopFacts.txtParseNotes_getline after e).
      rewrite (SkipFacts.txtParseNote_end _ _ _ He). cbn [mbind result_bind].
      split; [reflexivity|]. intros ss' P' vocal' [= <- _ _]. now exists [].
    + split; [reflexivity|]. intros ss' P' vocal' [= <- _ _]. now exists [e].
  - destruct (SongParser.txtParseNote line vocal P) as [[[more P1] vocal1]| |];
      try (split; [reflexivity | discriminate]).
    cbn [mbind result_bind]. destruct more; [apply IH|].
    split; [reflexivity|]. intros ss' P' vocal' [= <- _ _].
    exists (next :: before ++ [e]). simpl. now rewrite <- app_assoc.
Qed.

Lemma lines_after_E_are_not_read_witness :
  SongParser.front_is "E" "End" = true
  /\ outcome (SongParser.txtParseNotes [": 8 4 62 di"; "End"; "#TITLE:x"; ": oops"]
                ": 0 8 60 la" Sample.lead Sample.parser60)
     = outcome (SongParser.txtParseNotes [": 8 4 62 di"] ": 0 8 60 la"
                  Sample.lead Sample.parser60).
Proof.
  split; [reflexivity|].
  exact (proj1 (lines_after_E_are_not_read [": 8 4 62 di"] ["#TITLE:x"; ": oops"] "End"
                  ": 0 8 60 la" Sample.lead Sample.parser60 eq_refl)).
Defined.

(** ** The header read twice *)

Module AssignFacts.
Import SongParser.

Lemma assign_same (a b : Field.t) (P : t) :
  Field.key a = Field.key b -> Field.assign a (Field.assign b P) = Field.assign a P.
Proof.
  destruct a, b; try discriminate; intros _; try reflexivity;
    unfold Field.assign, upd_song, set_m_song, Song.set_music;
    cbn [m_song Song.music Song.path]; now rewrite insert_insert_eq.
Qed.

Lemma assign_other (a b : Field.t) (P : t) :
  Field.key a <> Field.key b ->
  Field.assign a (Field.assign b P) = Field.assign b (Field.assign a P).
Proof.
  destruct a, b; intros H; try (exfalso; apply H; reflexivity); try reflexivity;
    unfold Field.assign, upd_song, set_m_song, Song.set_music;
    cbn [m_song Song.music Song.path]; now rewrite insert_insert_ne.
Qed.

Lemma assignAll_cons (a : Field.t) (w : list Field.t) (P : t) :
  Field.assignAll (a :: w) P = Field.assignAll w (Field.assign a P).
Proof. reflexivity. Qed.

Lemma assignAll_app (w w' : list Field.t) (P : t) :
  Field.assignAll (w ++ w') P = Field.assignAll w' (Field.assignAll w P).
Proof. apply foldl_app. Qed.

(** An assignment that a later one of the list overwrites. *)
Lemma assignAll_overwritten (a : Field.t) (w : list Field.t) (P : t) :
  Exists (fun b => Field.key b = Field.key a) w ->
  Field.assignAll w (Field.assign a P) = Field.assignAll w P.
Proof.
  revert P. induction w as [|b w IH]; intros P Hex; [now apply Exists_nil in Hex|].
  rewrite !assignAll_cons.
  destruct (decide (Field.key b = Field.key a)) as [Hk|Hk].
  - now rewrite assign_same.
  - rewrite assign_other by exact Hk. apply IH.
    apply Exists_cons in Hex. destruct Hex as [Hex|Hex]; [contradiction | exact Hex].
Qed.

(** An assignment that no later one of the list touches. *)
Lemma assignAll_untouched (a : Field.t) (w : list Field.t) (P : t) :
  ~ Exists (fun b => Field.key b = Field.key a) w ->
  Field.assignAll w (Field.assign a P) = Field.assign a (Field.assignAll w P).
Proof.
  revert P. induction w as [|b w IH]; intros P Hex; [reflexivity|].
  rewrite !assignAll_cons.
  rewrite Exists_cons in Hex.
  rewrite assign_other by (intros Hk; apply Hex; now left).
  apply IH. intros H. apply Hex. now right.
Qed.

Lemma assignAll_twice (w : list Field.t) (P : t) :
  Field.assignAll w (Field.assignAll w P) = Field.assignAll w P.
Proof.
  revert P. induction w as [|a w IH]; intros P; [reflexivity|].
  rewrite !assignAll_cons.
  destruct (decide (Exists (fun b => Field.key b = Field.key a) w)) as [Hex|Hex].
  - rewrite assignAll_overwritten by exact Hex. apply IH.
  - rewrite (assignAll_untouched a w P) by exact Hex.
    rewrite assign_same by reflexivity.
    rewrite <- (assignAll_untouched a w P) by exact Hex. apply IH.
Qed.

Section Fields.
Variable assign_double : string -> result Q.
Variable assign_bool : string -> result bool.

Lemma substr_throws (s : string) (pos : option nat) (e : exn) :
  substr s pos = Throw e -> e = out_of_range.
Proof.
  unfold substr. destruct pos as [p|]; [destruct (Nat.leb _ _)|]; congruence.
Qed.

Ltac allowed :=
  first [ left; reflexivity
        | right; left; eapply substr_throws; eassumption
        | right; right; left; eexists; eassumption
        | right; right; right; eexists; eassumption ].
Ltac stops r :=
  left; exists r;
  split; [intros x; discriminate
         | split; [intros e' He'; inversion He'; subst; allowed | intros P; reflexivity]].
Ltac assigns a :=
  right; right; exists [a]; split; [simpl; lia | intros P; reflexivity].
Ltac text_case val a :=
  destruct (substr val (find_first_not_of [" "%char] val)) as [v|e|] eqn:Hsub;
  [assigns (a v) | stops (@Throw (bool * t) e) | stops (@Undefined (bool * t))].
Ltac number_case val a :=
  destruct (assign_double val) as [d|e|] eqn:Hd;
  [assigns (a d) | stops (@Throw (bool * t) e) | stops (@Undefined (bool * t))].

(** A line is refused, ends the header, or makes at most one
    assignment that does not depend on the parser. *)
Lemma txtParseField_assigns (line : string) :
  (exists r : result (bool * t),
      (forall x, r <> Ok x)
      /\ (forall e, r = Throw e ->
            e = runtime_error "Invalid txt format, should be #key:value"
            \/ e = out_of_range
            \/ (exists v, assign_double v = Throw e)
            \/ (exists v, assign_bool v = Throw e))
      /\ forall P, txtParseField assign_double assign_bool line P = r)
  \/ (forall P, txtParseField assign_double assign_bool line P = Ok (false, P))
  \/ (exists w, (length w <= 1)%nat
                /\ forall P, txtParseField assign_double assign_bool line P
                             = Ok (true, Field.assignAll w P)).
Proof.
  unfold txtParseField.
  destruct (String.eqb line EmptyString).
  { right; right. exists []. split; [simpl; lia | reflexivity]. }
  destruct (front_is "#" line); simpl negb; [|right; left; reflexivity].
  destruct (String.index 0 ":" line) as [pos|];
    [|stops (@Throw (bool * t) (runtime_error "Invalid txt format, should be #key:value"))].
  cbv zeta.
  generalize (trim_copy (String.substring 1 (pos - 1) line)).
  generalize (trim_copy (String.substring (pos + 1) (String.length line - (pos + 1)) line)).
  intros value key.
  destruct (String.eqb value EmptyString).
  { right; right. exists []. split; [simpl; lia | reflexivity]. }
  destruct (String.eqb key "TITLE").
  { destruct (substr value (find_first_not_of [" "%char; ":"%char] value)) as [v|e|] eqn:Hsub;
      [assigns (Field.Title v) | stops (@Throw (bool * t) e)
       | stops (@Undefined (bool * t))]. }
  destruct (String.eqb key "ARTIST"); [text_case value Field.Artist|].
  destruct (String.eqb key "EDITION"); [text_case value Field.Edition|].
  destruct (String.eqb key "GENRE"); [text_case value Field.Genre|].
  destruct (String.eqb key "CREATOR"); [text_case value Field.Creator|].
  destruct (String.eqb key "COVER"); [assigns (Field.Cover value)|].
  destruct (String.eqb key "MP3"); [assigns (Field.Mp3 value)|].
  destruct (String.eqb key "VOCALS"); [assigns (Field.Vocals value)|].
  destruct (String.eqb key "VIDEO"); [assigns (Field.Video value)|].
  destruct (String.eqb key "BACKGROUND"); [assigns (Field.Background value)|].
  destruct (String.eqb key "START"); [number_case value Field.Start|].
  destruct (String.eqb key "VIDEOGAP"); [number_case value Field.VideoGap|].
  destruct (String.eqb key "PREVIEWSTART"); [number_case value Field.PreviewStart|].
  destruct (String.eqb key "RELATIVE").
  { destruct (assign_bool value) as [b|e|] eqn:Hb;
      [assigns (Field.Relative b) | stops (@Throw (bool * t) e)
       | stops (@Undefined (bool * t))]. }
  destruct (String.eqb key "GAP"); [number_case value Field.Gap|].
  destruct (String.eqb key "BPM"); [number_case value Field.Bpm|].
  destruct (String.eqb key "LANGUAGE"); [text_case value Field.Language|].
  right; right. exists []. split; [simpl; lia | reflexivity].
Qed.


Lemma txtParseFields_assigns (ss ss1 : list string) (line : string) (P P1 : t) :
  txtParseFields assign_double assign_bool ss P = Ok (ss1, line, P1) ->
  exists w, (length w <= length ss)%nat
            /\ forall Q, txtParseFields assign_double assign_bool ss Q
                         = Ok (ss1, line, Field.assignAll w Q).
Proof.
  revert P. induction ss as [|first ss IH]; intros P; simpl.
  - intros [= <- <- <-]. exists []. split; [simpl; lia | reflexivity].
  - destruct (txtParseField_assigns first) as [(r & Hr & _ & Hthrow)|[Hend|(w & Hw & Hset)]].
    + rewrite Hthrow. destruct r as [x| |]; [now destruct (Hr x) | discriminate | discriminate].
    + rewrite Hend. cbn [mbind result_bind]. intros [= <- <- <-].
      exists []. split; [simpl; lia|]. intros Q. now rewrite Hend.
    + rewrite Hset. cbn [mbind result_bind]. intros H.
      destruct (IH _ H) as (w' & Hw' & Hrest).
      exists (w ++ w'). split; [rewrite length_app; lia|].
      intros Q. rewrite Hset. cbn [mbind result_bind]. now rewrite Hrest, assignAll_app.
Qed.

End Fields.

End AssignFacts.

(** X14.  Reading the header again changes nothing: after the header
    loop has run over some lines, the same loop over the same lines, run
    on the parser that the first run left, stops at the same line and
    leaves that parser as it is. *)
Theorem txtParseFields_again (assign_double : string -> result Q)
    (assign_bool : string -> result bool)
    (ss ss1 : list string) (line : string) (P P1 : SongParser.t) :
  SongParser.txtParseFields assign_double assign_bool ss P = Ok (ss1, line, P1) ->
  SongParser.txtParseFields assign_double assign_bool ss P1 = Ok (ss1, line, P1).
Proof.
  intros H.
  destruct (AssignFacts.txtParseFields_assigns _ _ _ _ _ _ _ H) as (w & _ & Hw).
  rewrite Hw in H. injection H as <-.
  now rewrite Hw, AssignFacts.assignAll_twice.
Qed.

Lemma txtParseFields_again_witness :
  exists P1,
    SongParser.txtParseFields Sample.assign_decimal Sample.assign_flag
      ["#TITLE:Foo"; "#MP3:a.ogg"; "#GAP:500"; "#TITLE:Bar"; "#MP3:b.ogg"; ": 0 1 0 la"]
      (SongParser.make Sample.song) = Ok ([], ": 0 1 0 la", P1)
    /\ SongParser.txtParseFields Sample.assign_decimal Sample.assign_flag
         ["#TITLE:Foo"; "#MP3:a.ogg"; "#GAP:500"; "#TITLE:Bar"; "#MP3:b.ogg"; ": 0 1 0 la"]
         P1 = Ok ([], ": 0 1 0 la", P1).
Proof.
  eexists. split; [reflexivity|].
  exact (txtParseFields_again Sample.assign_decimal Sample.assign_flag
           ["#TITLE:Foo"; "#MP3:a.ogg"; "#GAP:500"; "#TITLE:Bar"; "#MP3:b.ogg"; ": 0 1 0 la"]
           _ _ (SongParser.make Sample.song) _ eq_refl).
Defined.

(** ** The check of the first bytes *)

(** X15.  txtCheck reads past the end of the data exactly on no data and
    on the single byte of a hash; on all other data it gives an answer. *)
Theorem txtCheck_out_of_range (data : list ascii) :
  txtCheck data = Undefined <-> data = [] \/ data = ["#"%char].
Proof.
  unfold txtCheck. destruct data as [|c0 rest]; [tauto|].
  destruct (Ascii.eqb_spec c0 "#") as [->|Hc].
  - destruct rest as [|c1 rest]; [tauto|].
    split; [discriminate | intros [H|H]; discriminate].
  - split; [discriminate | intros [H|[= H _]]; [discriminate | contradiction]].
Qed.

(** X16.  Data that txtCheck accepts starts with a line that the header
    takes: a first line of two bytes or more is never the line that ends
    the header, and the note parser refuses it as a key. *)
Theorem txtCheck_accepts_header (assign_double : string -> result Q)
    (assign_bool : string -> result bool)
    (data rest : list ascii) (line : string) :
  txtCheck data = Ok true ->
  data = list_ascii_of_string line ++ rest ->
  (2 <= String.length line)%nat ->
  (forall P more P',
      SongParser.txtParseField assign_double assign_bool line P = Ok (more, P') ->
      more = true)
  /\ (forall vocal P,
        SongParser.txtParseNote line vocal P
        = Throw (runtime_error "Key found in the middle of notes")).
Proof.
  intros Hcheck -> Hlen.
  destruct line as [|c0 [|c1 line]]; simpl in Hlen; try lia.
  simpl in Hcheck. destruct (Ascii.eqb_spec c0 "#") as [->|Hc]; [clear Hcheck|discriminate].
  split.
  - intros P more P'. unfold SongParser.txtParseField. simpl String.eqb. simpl negb.
    cbv iota.
    destruct (String.index _ _ _) as [pos|]; [|discriminate]. cbv zeta.
    destruct (String.eqb _ EmptyString); [now intros [= <- _]|].
    destruct (_ : result SongParser.t) as [P1| |]; [|discriminate|discriminate].
    now intros [= <- _].
  - intros vocal P. unfold SongParser.txtParseNote.
    replace (String.eqb (String "#" (String c1 line)) EmptyString
             || String.eqb (String "#" (String c1 line)) (String CR EmptyString))
      with false; [reflexivity|].
    simpl. reflexivity.
Qed.

Lemma txtCheck_accepts_header_witness :
  txtCheck (list_ascii_of_string "#TITLE:Foo" ++ ["010"%char; "#"%char]) = Ok true
  /\ SongParser.txtParseNote "#TITLE:Foo" Sample.lead Sample.parser60
     = Throw (runtime_error "Key found in the middle of notes").
Proof.
  split; [reflexivity|].
  refine (proj2 (txtCheck_accepts_header Sample.assign_decimal Sample.assign_flag
                   (list_ascii_of_string "#TITLE:Foo" ++ ["010"%char; "#"%char])
                   ["010"%char; "#"%char] "#TITLE:Foo" eq_refl eq_refl _) _ _).
  simpl. lia.
Defined.

(** ** The two parses of a file *)

Module ParseFacts.
Import SongParser.

Lemma registerBPM_kept (P : t) :
  m_song (registerBPM P) = m_song P /\ m_relative (registerBPM P) = m_relative P
  /\ m_gap (registerBPM P) = m_gap P /\ m_bpm (registerBPM P) = m_bpm P.
Proof. unfold registerBPM. destruct (negb _); repeat split; reflexivity. Qed.

Lemma dropTerminator_name (vocal : VocalTrack.t) :
  VocalTrack.name (dropTerminator vocal) = VocalTrack.name vocal.
Proof.
  unfold dropTerminator. destruct (last _) as [b|]; [|reflexivity].
  destruct (_ && _); reflexivity.
Qed.

End ParseFacts.

(** X17.  When txtParseHeader and txtParse both read a file through, the
    song of the full parse is the song of the header parse with the track
    of the notes put under LEAD_VOCAL in place of the track without notes,
    and the relative flag, the gap and the BPM member are the same. *)
Theorem txtParse_extends_header (assign_double : string -> result Q)
    (assign_bool : string -> result bool)
    (ss ssH ssF : list string) (P PH PF : SongParser.t) :
  SongParser.txtParseHeader assign_double assign_bool ss P = Ok (ssH, PH) ->
  SongParser.txtParse assign_double assign_bool ss P = Ok (ssF, PF) ->
  exists track,
    VocalTrack.name track = TrackName.LEAD_VOCAL
    /\ SongParser.m_song PF
       = Song.insertVocalTrack TrackName.LEAD_VOCAL track (SongParser.m_song PH)
    /\ Song.getVocalTrack (SongParser.m_song PH) TrackName.LEAD_VOCAL
       = VocalTrack.make TrackName.LEAD_VOCAL
    /\ Song.getVocalTrack (SongParser.m_song PF) TrackName.LEAD_VOCAL = track
    /\ SongParser.m_relative PF = SongParser.m_relative PH
    /\ SongParser.m_gap PF = SongParser.m_gap PH
    /\ SongParser.m_bpm PF = SongParser.m_bpm PH.
Proof.
  unfold SongParser.txtParseHeader, SongParser.txtParse.
  destruct (SongParser.txtParseFields _ _ ss P) as [[[ss1 line] P1]| |]; try discriminate.
  cbn [mbind result_bind].
  destruct (_ || _); [discriminate|]. intros [= <- <-].
  destruct (SongParser.txtParseNotes ss1 line _ _) as [[[ss2 P3] vocal1]| |] eqn:Hn;
    try discriminate.
  cbn [mbind result_bind]. intros [= <- <-].
  destruct (FrameFacts.txtParseNotes_kept _ _ _ _ _ _ _ Hn) as (Hs & Hr & Hg & Hb & _).
  destruct (GrowFacts.txtParseNotes_grows _ _ _ _ _ _ _ Hn) as (_ & Hname & _).
  exists (SongParser.dropTerminator vocal1).
  split; [now rewrite ParseFacts.dropTerminator_name, Hname|].
  cbn [SongParser.m_song SongParser.upd_song SongParser.set_m_song SongParser.m_relative
       SongParser.m_gap SongParser.m_bpm].
  rewrite Hs. split; [|split; [|split; [|auto]]].
  - unfold Song.insertVocalTrack. cbn [Song.vocalTracks Song.set_vocalTracks].
    rewrite TrackMapFacts.erase_insert_fresh by apply StdMapFacts.find_erase.
    reflexivity.
  - unfold Song.getVocalTrack, Song.insertVocalTrack.
    cbn [Song.vocalTracks Song.set_vocalTracks].
    now rewrite StdMapFacts.find_replace.
  - unfold Song.getVocalTrack, Song.insertVocalTrack.
    cbn [Song.vocalTracks Song.set_vocalTracks].
    now rewrite StdMapFacts.find_replace.
Qed.

Lemma txtParse_extends_header_witness :
  exists PH PF track,
    SongParser.txtParseHeader Sample.assign_decimal Sample.assign_flag
      ["#TITLE:Foo"; "#ARTIST:Bar"; "#BPM:60"; ": 0 8 60 la"; "E"]
      (SongParser.make Sample.song) = Ok (["E"], PH)
    /\ SongParser.txtParse Sample.assign_decimal Sample.assign_flag
         ["#TITLE:Foo"; "#ARTIST:Bar"; "#BPM:60"; ": 0 8 60 la"; "E"]
         (SongParser.make Sample.song) = Ok ([], PF)
    /\ SongParser.m_song PF
       = Song.insertVocalTrack TrackName.LEAD_VOCAL track (SongParser.m_song PH).
Proof.
  destruct (txtParse_extends_header Sample.assign_decimal Sample.assign_flag
              ["#TITLE:Foo"; "#ARTIST:Bar"; "#BPM:60"; ": 0 8 60 la"; "E"] _ _
              (SongParser.make Sample.song) _ _ eq_refl eq_refl)
    as (track & _ & Hsong & _).
  eexists _, _, track. split; [reflexivity|]. split; [reflexivity|]. exact Hsong.
Defined.

(** ** Exceptions *)

Module ThrowFacts.
Import SongParser StepFacts.





End ThrowFacts.



(** ** The label cut in two *)

Module CutFacts.

Lemma cutpos_half (n : Z) : NoteGraphWidget.cutpos n = (n + 1) / 2.
Proof.
  unfold NoteGraphWidget.cutpos, Qceiling, Qfloor. simpl.
  rewrite Z.mul_1_r. 
  Z.to_euclidean_division_equations. lia.
Qed.

End CutFacts.

(** X19.  A click of the right button cuts the text of a label in two
    without losing or repeating a character: the two texts joined give
    the text again, the first holds the half of the characters rounded up
    and the second the half rounded down, so a text of one character
    leaves a second label without text. *)
Theorem mousePressEvent_cuts_in_half {QChar : Type} (text : list QChar) :
  let (firstst, secondst) := NoteGraphWidget.mousePressEvent_right text in
  firstst ++ secondst = text
  /\ length firstst = ((length text + 1) / 2)%nat
  /\ length secondst = (length text / 2)%nat.
Proof.
  unfold NoteGraphWidget.mousePressEvent_right.
  rewrite CutFacts.cutpos_half.
  set (len := length text).
  assert (Hcut : (Z.of_nat len + 1) / 2 = Z.of_nat ((len + 1) / 2)).
  { rewrite Nat2Z.inj_div, Nat2Z.inj_add. reflexivity. }
  rewrite Hcut.
  assert (Hle : ((len + 1) / 2 <= len)%nat).
  { destruct len as [|k]; [reflexivity|].
    apply Nat.Div0.div_le_upper_bound. lia. }
  assert (Hhalf : (len - (len + 1) / 2 = len / 2)%nat).
  { pose proof (Nat.div_mod_eq len 2). pose proof (Nat.div_mod_eq (len + 1) 2).
    pose proof (Nat.mod_upper_bound len 2). pose proof (Nat.mod_upper_bound (len + 1) 2).
    assert (((len + 1) / 2 + len / 2 = len)%nat); [|lia].
    Z.to_euclidean_division_equations. lia. }
  assert (Hfirst : NoteGraphWidget.left (Z.of_nat ((len + 1) / 2)) text
                   = take ((len + 1) / 2) text).
  { unfold NoteGraphWidget.left. fold len.
    destruct (Z.ltb_spec (Z.of_nat ((len + 1) / 2)) 0) as [?|_]; [lia|]. cbn [orb].
    destruct (Z.leb_spec (Z.of_nat len) (Z.of_nat ((len + 1) / 2))) as [Hge|_].
    - symmetry. apply take_ge. fold len. lia.
    - now rewrite Nat2Z.id. }
  assert (Hsecond : NoteGraphWidget.right (Z.of_nat len - Z.of_nat ((len + 1) / 2)) text
                    = drop ((len + 1) / 2) text).
  { unfold NoteGraphWidget.right. fold len.
    destruct (Z.ltb_spec (Z.of_nat len - Z.of_nat ((len + 1) / 2)) 0) as [?|_]; [lia|].
    cbn [orb].
    destruct (Z.leb_spec (Z.of_nat len) (Z.of_nat len - Z.of_nat ((len + 1) / 2)))
      as [Hge|_].
    - assert (H0 : ((len + 1) / 2 = 0)%nat) by lia. now rewrite H0.
    - f_equal. lia. }
  rewrite Hfirst, Hsecond. split; [apply take_drop|].
  rewrite length_take, length_drop. fold len. lia.
Qed.

(** ** The first note *)

(** X20.  No track that the note loop builds starts with a SLEEP, and
    the terminator workaround leaves none in front either: a SLEEP line
    read in order while the track has no note is not kept, and it moves
    the resolved times, the end time to the end of the SLEEP and the tick
    read last to its tick. *)
Theorem track_never_starts_with_SLEEP (vocal : VocalTrack.t) (P : SongParser.t) :
  SongParser.reached vocal P ->
  (forall q rest, VocalTrack.notes vocal = q :: rest -> Note.type q <> Note.SLEEP)
  /\ (forall q rest, VocalTrack.notes (SongParser.dropTerminator vocal) = q :: rest ->
        Note.type q <> Note.SLEEP)
  /\ (forall line n ts P1,
        VocalTrack.notes vocal = [] ->
        SongParser.noteLine line = true ->
        SongParser.readNote (SongParser.chomp line) P = Ok (n, ts, P1) ->
        Note.type n = Note.SLEEP ->
        Qltb (Note.begin n) (SongParser.m_prevtime P) = false ->
        exists P',
          SongParser.txtParseNote line vocal P = Ok (true, P', vocal)
          /\ SongParser.m_prevtime P' = Note.end_ n
          /\ SongParser.m_prevts P' = ts).
Proof.
  intros Hreached. pose proof (ParseNoteFacts.reached_leading _ _ Hreached) as Hlead.
  assert (Hfirst : forall q rest, VocalTrack.notes vocal = q :: rest ->
                                  Note.type q <> Note.SLEEP).
  { intros q rest Hnotes Hs. rewrite Hnotes in Hlead. simpl in Hlead.
    rewrite Hs in Hlead. discriminate. }
  split; [exact Hfirst|]. split.
  - unfold SongParser.dropTerminator.
    destruct (last (VocalTrack.notes vocal)) as [b|] eqn:Hlast; [|exact Hfirst].
    destruct (negb _ && _); [|exact Hfirst].
    destruct (NotesFacts.last_Some_snoc _ _ Hlast) as [before Hnotes].
    cbn [VocalTrack.notes VocalTrack.set_notes]. rewrite Hnotes, removelast_snoc.
    intros q rest Hbefore. apply (Hfirst q (rest ++ [b])).
    now rewrite Hnotes, Hbefore.
  - intros line n ts P1 Hnotes Hline Hread Hsleep Horder.
    rewrite (NotesFacts.txtParseNote_noteLine _ _ _ Hline), Hread.
    cbn [mbind result_bind].
    destruct (NotesFacts.readNote_keeps _ _ _ _ _ Hread) as (_ & Hpt & _).
    rewrite <- Hpt in Horder.
    destruct (NotesFacts.placeNote_in_order n ts vocal P1 Horder)
      as (P' & _ & Hend & Hts & Hplace).
    exists P'. rewrite Hplace, Hnotes. unfold SongParser.widenRange.
    rewrite Hsleep. cbn [Note.is_SLEEP negb andb last].
    split; [|split; assumption].
    destruct vocal; simpl in Hnotes; subst; reflexivity.
Qed.

Lemma track_never_starts_with_SLEEP_witness :
  exists P',
    SongParser.txtParseNote "- 4 8" Sample.lead Sample.parser60 = Ok (true, P', Sample.lead)
    /\ SongParser.m_prevts P' = 4
    /\ (SongParser.m_prevtime P' == 2)%Q.
Proof.
  destruct (proj2 (proj2 (track_never_starts_with_SLEEP _ _
                            (SongParser.reached_start Sample.parser60)))
              "- 4 8" _ _ _ eq_refl eq_refl eq_refl eq_refl eq_refl)
    as (P' & Hrun & Hend & Hts).
  exists P'. split; [exact Hrun|]. split; [exact Hts|].
  rewrite Hend. vm_compute. reflexivity.
Defined.
